(** * MRV carbon dashboard: the emission calculator and the aggregator

    A shallow embedding of the calculation core of [app.py]: the emission
    factors, the six calculator functions, [kg_to_tonnes], the totals and
    the potential-credit value computed in [main], the dominant-source
    selection and the share of [_mrv_section_B_reporting] with its
    fallback text, the dictionary of inputs that [main] hands to the two
    section A functions, and [nice_number].

    Python's [float] is IEEE 754 binary64.  Its arithmetic is taken from
    the Standard Library's executable specification [SpecFloat], at
    precision 53 and maximal exponent 1024, so every definition below can
    be evaluated on concrete inputs.  The same definitions are also
    instantiated on exact rationals, to tell apart what holds of the
    formulas from what holds of their binary64 evaluation.

    How Python is read:
    - float addition, subtraction and multiplication never raise (they
      overflow to an infinity); float division raises
      [ZeroDivisionError] on a zero divisor;
    - an [int] operand of a float operation is converted to a float
      first, which raises [OverflowError] when the int is out of range;
      the cattle count is the only [int] variable of the program;
    - [sum] adds from left to right, [max] keeps its first argument
      unless the second is greater;
    - pandas' [Series.round(2)] is numpy's [round]
      ([rint(x * 100.0) / 100.0]) and [Series.idxmax()] is the first
      position of the greatest value, missing values skipped. *)

From Stdlib Require Import ZArith List Bool String Ascii DecimalString DecimalN Lia.
From Stdlib Require Import QArith Qcanon Qpower Lqa.
From Stdlib Require Import Floats.SpecFloat.
Import ListNotations.

Local Open Scope Z_scope.

(* ------------------------------------------------------------------ *)
(** ** Python exceptions as an error monad *)

Inductive exn : Type :=
| OverflowError       (* int too large to convert to float *)
| ZeroDivisionError   (* float division by zero *)
| ValueError          (* argmax of an empty or all-NaN column *)
| KeyError.           (* row label not in the index *)

Inductive result (A : Type) : Type :=
| Ok (a : A)
| Raise (e : exn).

Arguments Ok {A} a.
Arguments Raise {A} e.

Definition bind {A B : Type} (c : result A) (k : A -> result B) : result B :=
  match c with
  | Ok a => k a
  | Raise e => Raise e
  end.

Notation "x <- c ;; k" := (bind c (fun x => k))
  (at level 61, c at next level, right associativity).

(* ------------------------------------------------------------------ *)
(** ** The arithmetic the program runs on

    [of_Z] converts an [int] literal that takes part in a float operation
    ([265], [7870], [1000], [2], [0]); [py_float] is the implicit
    conversion of an [int] variable, which raises [OverflowError] on ints
    beyond the float range; [lit m k] is the decimal literal [m / 10^k]
    ([lit 716 3] is [0.716]).  The four operations are the raw ones;
    Python's [/] checks the divisor first, see [py_truediv].  [rint]
    serves numpy's [round]; [isna] and [fillna] serve pandas' [idxmax]. *)

Class Arith (num : Type) : Type := {
  of_Z : Z -> num;
  py_float : Z -> result num;
  lit : Z -> Z -> num;
  nadd : num -> num -> num;
  nsub : num -> num -> num;
  nmul : num -> num -> num;
  ndiv : num -> num -> num;
  is_zero : num -> bool;
  gtb : num -> num -> bool;
  rint : num -> num;
  isna : num -> bool;
  fillna : num -> num
}.

Declare Scope num_scope.
Delimit Scope num_scope with num.
Infix "+!" := nadd (at level 50, left associativity) : num_scope.
Infix "-!" := nsub (at level 50, left associativity) : num_scope.
Infix "*!" := nmul (at level 40, left associativity) : num_scope.
Infix ">!" := gtb (at level 70, no associativity) : num_scope.

(* ------------------------------------------------------------------ *)
(** ** binary64 *)

Module B64.

Definition prec : Z := 53.
Definition emax : Z := 1024.

Definition f64 : Type := spec_float.

Definition pos_zero : f64 := S754_zero false.
Definition neg_inf : f64 := S754_infinity true.

Definition add : f64 -> f64 -> f64 := SFadd prec emax.
Definition sub : f64 -> f64 -> f64 := SFsub prec emax.
Definition mul : f64 -> f64 -> f64 := SFmul prec emax.
Definition div : f64 -> f64 -> f64 := SFdiv prec emax.

Definition ltb : f64 -> f64 -> bool := SFltb.
Definition leb : f64 -> f64 -> bool := SFleb.
Definition eqb : f64 -> f64 -> bool := SFeqb.

Definition is_nan (x : f64) : bool :=
  match x with S754_nan => true | _ => false end.

(** The float nearest to an integer (ties to even); infinite when the
    integer is out of range. *)
Definition Z2F (z : Z) : f64 := binary_normalize prec emax z 0 false.

(** [float(n)] for a Python int. *)
Definition float_of_int (z : Z) : result f64 :=
  match Z2F z with
  | S754_infinity _ => Raise OverflowError
  | f => Ok f
  end.

(** A decimal literal with mantissa [m] and [k] decimals: the parser
    rounds [m / 10^k] to the nearest float, which is what the correctly
    rounded quotient of the two integers gives (both are exact floats
    for the literals of this program). *)
Definition literal (m k : Z) : f64 := div (Z2F m) (Z2F (10 ^ k)).

(** C's [rint] in the default rounding mode: the nearest integer, ties
    to even, keeping the sign of a zero result. *)
Definition round_to_integral (x : f64) : f64 :=
  match x with
  | S754_finite s m e =>
      if 0 <=? e then x
      else
        let '(mrs, _) := shr (shr_record_of_loc (Zpos m) loc_Exact) e (- e) in
        let z := round_nearest_even (shr_m mrs) (loc_of_shr_record mrs) in
        binary_normalize prec emax (cond_Zopp s z) 0 s
  | _ => x
  end.

(** pandas' [nanargmax] replaces missing values by minus infinity. *)
Definition fill_neg_inf (x : f64) : f64 :=
  if is_nan x then neg_inf else x.

(** Well-formed floats: canonical mantissa and exponent in range. *)
Definition valid (x : f64) : bool := valid_binary prec emax x.

(** *** Notions for the facts about rounding *)

(** The sign carried by a value that is not a NaN. *)
Definition sign_is (s : bool) (x : f64) : bool :=
  match x with
  | S754_zero s' | S754_infinity s' | S754_finite s' _ _ => Bool.eqb s s'
  | S754_nan => false
  end.

(** Positive finite values: the shape of every emission factor. *)
Definition is_pos_finite (x : f64) : bool :=
  match x with S754_finite false _ _ => true | _ => false end.

(** [0.0 <= x] *)
Definition nonneg (x : f64) : bool := leb pos_zero x.

(** [x <= 0.0] *)
Definition nonpos (x : f64) : bool := leb x pos_zero.

(** Number of bits of a mantissa. *)
Definition dig (m : positive) : Z := Zpos (digits2_pos m).

(** The exponent at which a value of mantissa [m] and exponent [e] is
    rounded. *)
Definition E_of (m : positive) (e : Z) : Z := fexp prec emax (dig m + e).

(** What [binary_round_aux] returns from the rounded mantissa. *)
Definition finish (s : bool) (m e : Z) : f64 :=
  match m with
  | Z0 => S754_zero s
  | Zpos p => if e <=? emax - prec then S754_finite s p e else S754_infinity s
  | Zneg _ => S754_nan
  end.

End B64.

#[export] Instance b64_arith : Arith B64.f64 := {
  of_Z := B64.Z2F;
  py_float := B64.float_of_int;
  lit := B64.literal;
  nadd := B64.add;
  nsub := B64.sub;
  nmul := B64.mul;
  ndiv := B64.div;
  is_zero := fun x => B64.eqb x B64.pos_zero;
  gtb := fun a b => B64.ltb b a;
  rint := B64.round_to_integral;
  isna := B64.is_nan;
  fillna := B64.fill_neg_inf
}.

(* ------------------------------------------------------------------ *)
(** ** Exact rationals *)

Module Exact.

Local Open Scope Qc_scope.

(** Nearest integer, ties to even. *)
Definition round_half_even (q : Qc) : Qc :=
  let n := Qnum q in
  let d := Zpos (Qden q) in
  let f := (n / d)%Z in
  let up :=
    match (2 * (n mod d) ?= d)%Z with
    | Lt => false
    | Eq => negb (Z.even f)
    | Gt => true
    end in
  Q2Qc (inject_Z (if up then f + 1 else f)%Z).

Definition of_int (z : Z) : Qc := Q2Qc (inject_Z z).

Definition of_decimal (m k : Z) : Qc := of_int m / of_int (10 ^ k).

Definition gt (a b : Qc) : bool :=
  match a ?= b with Gt => true | _ => false end.

Definition zerob (a : Qc) : bool :=
  match a ?= 0 with Eq => true | _ => false end.

End Exact.

#[export] Instance exact_arith : Arith Qc := {
  of_Z := Exact.of_int;
  py_float := fun z => Ok (Exact.of_int z);
  lit := Exact.of_decimal;
  nadd := Qcplus;
  nsub := Qcminus;
  nmul := Qcmult;
  ndiv := Qcdiv;
  is_zero := Exact.zerob;
  gtb := Exact.gt;
  rint := Exact.round_half_even;
  isna := fun _ => false;
  fillna := fun q => q
}.

(* ------------------------------------------------------------------ *)
(** ** Strings

    The program's strings are ASCII ([fuel_type] is ["Diesel"] or
    ["Petrol"], [crop_type] is ["General"] or ["Rice"]); on such strings
    [str.lower] maps [A]..[Z] to [a]..[z] and leaves every other
    character alone. *)

Definition is_upper (c : ascii) : bool :=
  let n := nat_of_ascii c in
  (Nat.leb 65 n && Nat.leb n 90)%bool.

Definition lower_char (c : ascii) : ascii :=
  if is_upper c then ascii_of_nat (nat_of_ascii c + 32) else c.

Fixpoint lower (s : string) : string :=
  match s with
  | EmptyString => EmptyString
  | String c s' => String (lower_char c) (lower s')
  end.

(** Two characters that are the same letter, whatever their case. *)
Definition same_letter (c d : ascii) : bool :=
  Ascii.eqb (lower_char c) (lower_char d).

(** Case-insensitive equality of strings, character by character. *)
Fixpoint eqb_nocase (s t : string) : bool :=
  match s, t with
  | EmptyString, EmptyString => true
  | String c s', String d t' => same_letter c d && eqb_nocase s' t'
  | _, _ => false
  end.

(* ------------------------------------------------------------------ *)
(** ** The calculation core, for any arithmetic *)

Section Calculator.

Context {num : Type} {A : Arith num}.

Local Open Scope num_scope.

(** *** Emission factors *)

Definition FERT_EF_N2O_N : num := lit 1 2.                         (* 0.01 *)
Definition N2O_TO_N2O_RATIO : num := ndiv (of_Z 44) (of_Z 28).     (* 44 / 28 *)
Definition N2O_GWP : Z := 265.
Definition ELECTRICITY_EF_KG_PER_KWH : num := lit 716 3.           (* 0.716 *)
Definition DIESEL_EF_KG_PER_L : num := lit 268 2.                  (* 2.68 *)
Definition PETROL_EF_KG_PER_L : num := lit 227 2.                  (* 2.27 *)
Definition RICE_AREA_EF_KG_PER_HA : Z := 7870.
Definition RICE_YIELD_EF_KG_PER_KG : num := lit 9 1.               (* 0.9 *)
Definition STEEL_EF_T_PER_TONNE : num := lit 255 2.                (* 2.55 *)
Definition LIVESTOCK_EF_KG_PER_HEAD_PER_YEAR : num := lit 9125 1.  (* 912.5 *)

(** Python's [x / y] on floats: the divisor is checked first. *)
Definition py_truediv (x y : num) : result num :=
  if is_zero y then Raise ZeroDivisionError else Ok (ndiv x y).

(** *** Core calculation functions *)

Definition compute_fertilizer_emissions (n_kg : num) : num :=
  let n2o_n_emissions := n_kg *! FERT_EF_N2O_N in
  let n2o_emissions := n2o_n_emissions *! N2O_TO_N2O_RATIO in
  let co2e_emissions := n2o_emissions *! of_Z N2O_GWP in
  co2e_emissions.

Definition fertilizer_emission_factor_kg_per_kgN : num :=
  FERT_EF_N2O_N *! N2O_TO_N2O_RATIO *! of_Z N2O_GWP.

Definition compute_electricity_emissions (kwh : num) : num :=
  kwh *! ELECTRICITY_EF_KG_PER_KWH.

Definition compute_fuel_emissions (litres : num) (fuel_type : string) : num :=
  let factor :=
    if String.eqb (lower fuel_type) "diesel"
    then DIESEL_EF_KG_PER_L
    else PETROL_EF_KG_PER_L in
  litres *! factor.

Definition compute_rice_emissions (area_ha yield_tonnes : num) : result num :=
  let area_emissions := area_ha *! of_Z RICE_AREA_EF_KG_PER_HA in
  let yield_emissions := yield_tonnes *! of_Z 1000 *! RICE_YIELD_EF_KG_PER_KG in
  py_truediv (area_emissions +! yield_emissions) (of_Z 2).

Definition compute_steel_emissions (tonnes : num) : num :=
  let emissions_tonnes := tonnes *! STEEL_EF_T_PER_TONNE in
  emissions_tonnes *! of_Z 1000.

(** [headcount] is an [int]: the product converts it to a float first. *)
Definition compute_livestock_emissions (headcount : Z) : result num :=
  h <- py_float headcount ;;
  Ok (h *! LIVESTOCK_EF_KG_PER_HEAD_PER_YEAR).

Definition kg_to_tonnes (kg : num) : result num :=
  py_truediv kg (lit 10000 1).                                     (* 1000.0 *)

(** *** Builtins used by [main] *)

(** [sum(xs)]: from the int [0], left to right, one addition per item
    (the plain summation; CPython from 3.12 on also carries a correction
    term for the rounding errors, which can change the last bits of a
    total). *)
Definition py_sum (xs : list num) : num :=
  fold_left nadd xs (of_Z 0).

(** [max(a, b)]: the first argument unless the second is greater. *)
Definition py_max (a b : num) : num :=
  if b >! a then b else a.

(** [max(0.0, baseline - total) if baseline > 0 else 0.0] *)
Definition potential_credits (baseline_tco2e total_em_t : num) : num :=
  if baseline_tco2e >! of_Z 0
  then py_max (lit 0 1) (baseline_tco2e -! total_em_t)
  else lit 0 1.

(** numpy's [round(x, 2)], which pandas' [Series.round(2)] applies to
    each value: scale by 100, round to the nearest integer, scale back. *)
Definition round2 (x : num) : num :=
  ndiv (rint (x *! of_Z 100)) (of_Z 100).

(** *** The report computed by [main] after a submission

    Of a row of the breakdown table only the two columns that later code
    reads are kept; the other three are formatted strings.  The total is
    [float(sum(em_values_kg))], where [float] has nothing to convert. *)

Record row : Type := {
  Source : string;
  Emissions : num
}.

Record report : Type := {
  sources : list string;
  em_values_kg : list num;
  total_em_kg : num;
  total_em_t : num;
  potential_credits_t : num;
  df_breakdown : list row
}.

(** [pd.DataFrame(data_rows)] followed by rounding the emissions column. *)
Definition make_breakdown (names : list string) (values : list num) : list row :=
  map (fun nv => {| Source := fst nv; Emissions := round2 (snd nv) |})
      (combine names values).

(** The fields of the agriculture form; the cattle count is an [int]. *)
Record agri_inputs : Type := {
  area_ha : num;
  crop_type : string;
  rice_yield_t : num;
  livestock_count : Z;
  fert_n_kg : num;
  diesel_l : num;
  petrol_l : num;
  elec_kwh : num
}.

(** The branch of [main] for the sector ["Agriculture / Farmer"], from
    the submitted form to the values handed to the screen and to the PDF
    builder. *)
Definition main_agriculture (baseline_tco2e : num) (i : agri_inputs)
  : result report :=
  let fert_em := compute_fertilizer_emissions (fert_n_kg i) in
  let diesel_em := compute_fuel_emissions (diesel_l i) "Diesel" in
  let petrol_em := compute_fuel_emissions (petrol_l i) "Petrol" in
  let elec_em := compute_electricity_emissions (elec_kwh i) in
  rice_em <- (if String.eqb (crop_type i) "Rice"
              then compute_rice_emissions (area_ha i) (rice_yield_t i)
              else Ok (lit 0 1)) ;;
  livestock_em <- compute_livestock_emissions (livestock_count i) ;;
  let sources :=
    [ "Synthetic nitrogen fertilizer"; "Diesel"; "Petrol";
      "Electricity (grid)"; "Rice paddies"; "Livestock (enteric methane)" ]%string in
  let em_values_kg :=
    [fert_em; diesel_em; petrol_em; elec_em; rice_em; livestock_em] in
  let total_em_kg := py_sum em_values_kg in
  total_em_t <- kg_to_tonnes total_em_kg ;;
  let potential_credits_t := potential_credits baseline_tco2e total_em_t in
  Ok {| sources := sources;
        em_values_kg := em_values_kg;
        total_em_kg := total_em_kg;
        total_em_t := total_em_t;
        potential_credits_t := potential_credits_t;
        df_breakdown := make_breakdown sources em_values_kg |}.

(** The fields of the alloy form. *)
Record alloy_inputs : Type := {
  steel_prod_t : num;
  elec_kwh_alloy : num;
  diesel_l_alloy : num;
  petrol_l_alloy : num
}.

(** The branch of [main] for the sector ["Alloy / Steel Producer"]. *)
Definition main_alloy (baseline_tco2e : num) (i : alloy_inputs)
  : result report :=
  let steel_em_kg := compute_steel_emissions (steel_prod_t i) in
  let elec_em_kg := compute_electricity_emissions (elec_kwh_alloy i) in
  let diesel_em_kg := compute_fuel_emissions (diesel_l_alloy i) "Diesel" in
  let petrol_em_kg := compute_fuel_emissions (petrol_l_alloy i) "Petrol" in
  let sources :=
    [ "Steel production"; "Electricity (grid)"; "Diesel"; "Petrol" ]%string in
  let em_values_kg := [steel_em_kg; elec_em_kg; diesel_em_kg; petrol_em_kg] in
  let total_em_kg := py_sum em_values_kg in
  total_em_t <- kg_to_tonnes total_em_kg ;;
  let potential_credits_t := potential_credits baseline_tco2e total_em_t in
  Ok {| sources := sources;
        em_values_kg := em_values_kg;
        total_em_kg := total_em_kg;
        total_em_t := total_em_t;
        potential_credits_t := potential_credits_t;
        df_breakdown := make_breakdown sources em_values_kg |}.

(** *** The dominant source of [_mrv_section_B_reporting] *)

(** numpy's [argmax] on a column without NaN: the first position of the
    greatest value.  [best_i] and [best] are the position and the value
    kept so far, [i] is the position of the head of [xs]. *)
Fixpoint argmax_from (best_i : nat) (best : num) (i : nat) (xs : list num) : nat :=
  match xs with
  | [] => best_i
  | x :: xs' =>
      if x >! best
      then argmax_from i x (S i) xs'
      else argmax_from best_i best (S i) xs'
  end.

(** [Series.idxmax()] with the default [skipna=True] on a column indexed
    [0, 1, ...]: missing values count as minus infinity, and a column
    that is empty or has only missing values is an error. *)
Definition idxmax (col : list num) : result nat :=
  if forallb isna col then Raise ValueError
  else
    match map fillna col with
    | [] => Raise ValueError
    | x :: xs => Ok (argmax_from 0 x 1 xs)
    end.

(** The [try] block of section B.3: the table is copied with the
    emissions rounded to two decimals, and the row at [idxmax] gives the
    dominant source and its value.  Any exception leads to the generic
    interpretation text, which names no source. *)
Definition dominant_source (df_breakdown : list row) : result (string * num) :=
  let df_display :=
    map (fun r => {| Source := Source r; Emissions := round2 (Emissions r) |})
        df_breakdown in
  idx <- idxmax (map Emissions df_display) ;;
  match nth_error df_display idx with
  | Some top_row => Ok (Source top_row, Emissions top_row)
  | None => Raise KeyError
  end.

End Calculator.

Arguments row num : clear implicits.
Arguments report num : clear implicits.
Arguments agri_inputs num : clear implicits.
Arguments alloy_inputs num : clear implicits.

(* ------------------------------------------------------------------ *)
(** ** Formatting *)

Module Format.

Import B64.

Definition digit (z : Z) : ascii := ascii_of_nat (48 + Z.to_nat z).

(** The last [n] decimal digits of [z], zero-padded. *)
Fixpoint last_digits (n : nat) (z : Z) : string :=
  match n with
  | O => EmptyString
  | S n' => (last_digits n' (z / 10) ++ String (digit (z mod 10)) EmptyString)%string
  end.

(** [p / q] rounded to the nearest integer, ties to even ([0 < q]). *)
Definition div_half_even (p q : Z) : Z :=
  let f := p / q in
  match 2 * (p mod q) ?= q with
  | Lt => f
  | Eq => if Z.even f then f else f + 1
  | Gt => f + 1
  end.

(** [|x| * 10^ndigits] as a correctly rounded integer. *)
Definition scaled_magnitude (m : positive) (e : Z) (ndigits : nat) : Z :=
  let t := Zpos m * 10 ^ Z.of_nat ndigits in
  if 0 <=? e then t * 2 ^ e else div_half_even t (2 ^ (- e)).

(** [f"{x:.{ndigits}f}"] *)
Definition nice_number (x : f64) (ndigits : nat) : string :=
  let point := match ndigits with O => EmptyString | _ => "."%string end in
  let render (s : bool) (n : Z) : string :=
    ((if s then "-" else "")
     ++ DecimalString.NilZero.string_of_uint (N.to_uint (Z.to_N (n / 10 ^ Z.of_nat ndigits)))
     ++ point ++ last_digits ndigits n)%string in
  match x with
  | S754_nan => "nan"%string
  | S754_infinity s => ((if s then "-" else "") ++ "inf")%string
  | S754_zero s => render s 0
  | S754_finite s m e => render s (scaled_magnitude m e ndigits)
  end.

End Format.

(* ------------------------------------------------------------------ *)
(** ** Notions used in the statements *)

Abbreviation f64 := B64.f64.

(** Python's [a <= b], [a < b] and [a == b] on floats, as propositions. *)
Definition fle (a b : f64) : Prop := B64.leb a b = true.
Definition flt (a b : f64) : Prop := B64.ltb a b = true.
Definition feq (a b : f64) : Prop := B64.eqb a b = true.

(** The float literal [0.0]. *)
Definition zero : f64 := lit 0 1.

(** [r] is the report that a submission with this baseline produces, in
    one sector or the other. *)
Definition submitted (baseline_tco2e : f64) (r : report f64) : Prop :=
  (exists i, main_agriculture baseline_tco2e i = Ok r) \/
  (exists i, main_alloy baseline_tco2e i = Ok r).

(** The totals of a report, as [main] derives them from the per-source
    values. *)
Definition totals_derived (r : report f64) : Prop :=
  total_em_kg r = py_sum (em_values_kg r) /\
  kg_to_tonnes (total_em_kg r) = Ok (total_em_t r) /\
  total_em_t r = ndiv (total_em_kg r) (lit 10000 1).

(** All the quantities of an agriculture form are non-negative. *)
Definition agri_nonneg (i : agri_inputs f64) : Prop :=
  fle zero (area_ha i) /\ fle zero (rice_yield_t i) /\
  0 <= livestock_count i /\ fle zero (fert_n_kg i) /\
  fle zero (diesel_l i) /\ fle zero (petrol_l i) /\ fle zero (elec_kwh i).

(** All the quantities of an alloy form are non-negative. *)
Definition alloy_nonneg (i : alloy_inputs f64) : Prop :=
  fle zero (steel_prod_t i) /\ fle zero (elec_kwh_alloy i) /\
  fle zero (diesel_l_alloy i) /\ fle zero (petrol_l_alloy i).

(** Position [k] holds the first greatest value of a column, missing
    values counting as minus infinity. *)
Definition first_max (col : list f64) (k : nat) : Prop :=
  exists v, nth_error col k = Some v /\
    (forall j w, nth_error col j = Some w -> fle (fillna w) (fillna v)) /\
    (forall j w, (j < k)%nat -> nth_error col j = Some w ->
                 flt (fillna w) (fillna v)).

(** The alloy form of the second end-to-end scenario: 10 t of steel and
    1000 kWh, no fuel. *)
Definition scenario_alloy {num : Type} {A : Arith num} : alloy_inputs num :=
  {| steel_prod_t := lit 100 1;
     elec_kwh_alloy := lit 10000 1;
     diesel_l_alloy := lit 0 1;
     petrol_l_alloy := lit 0 1 |}.

(** The agriculture form of the first end-to-end scenario. *)
Definition scenario_agri {num : Type} {A : Arith num} : agri_inputs num :=
  {| area_ha := lit 20 1;
     crop_type := "General";
     rice_yield_t := lit 0 1;
     livestock_count := 5;
     fert_n_kg := lit 1000 1;
     diesel_l := lit 500 1;
     petrol_l := lit 0 1;
     elec_kwh := lit 2000 1 |}.

(** The same farm growing rice, with a yield of 3.5 t. *)
Definition scenario_rice {num : Type} {A : Arith num} : agri_inputs num :=
  {| area_ha := lit 20 1;
     crop_type := "Rice";
     rice_yield_t := lit 35 1;
     livestock_count := 5;
     fert_n_kg := lit 1000 1;
     diesel_l := lit 500 1;
     petrol_l := lit 0 1;
     elec_kwh := lit 2000 1 |}.

(** An alloy form whose two largest sources differ by less than half a
    hundredth of a kilogram: 0.1 t of steel and 356.15 kWh. *)
Definition scenario_near_tie {num : Type} {A : Arith num} : alloy_inputs num :=
  {| steel_prod_t := lit 1 1;
     elec_kwh_alloy := lit 35615 2;
     diesel_l_alloy := lit 0 1;
     petrol_l_alloy := lit 0 1 |}.

(** The emissions column of the table that section B displays. *)
Definition displayed_emissions (df_breakdown : list (row f64)) : list f64 :=
  map (fun r => round2 (Emissions r)) df_breakdown.

(* ------------------------------------------------------------------ *)
(** ** The rest of the reporting code *)

Section Reporting.

Context {num : Type} {A : Arith num}.

Local Open Scope num_scope.

(** [(dominant_value / total_em_kg * 100) if total_em_kg > 0 else 0.0],
    of section B.3. *)
Definition share_pct (dominant_value total_em_kg : num) : result num :=
  if total_em_kg >! of_Z 0
  then q <- py_truediv dominant_value total_em_kg ;; Ok (q *! of_Z 100)
  else Ok (lit 0 1).

(** What the interpretation paragraph is formatted from: the dominant
    source, its value and its share of the total, or nothing when the
    [try] block fails and the generic text is used. *)
Inductive interpretation : Type :=
| Dominant (name : string) (dominant_value share : num)
| Generic.

(** Section B.3 of [_mrv_section_B_reporting]: any exception of the
    [try] block selects the generic text. *)
Definition section_B_interpretation (total_em_kg : num)
    (df_breakdown : list (row num)) : interpretation :=
  match (top <- dominant_source df_breakdown ;;
         share <- share_pct (snd top) total_em_kg ;;
         Ok (fst top, snd top, share)) with
  | Ok (name, dominant_value, share) => Dominant name dominant_value share
  | Raise _ => Generic
  end.

(** The interpretation of the report that [main] hands to the PDF
    builder. *)
Definition report_interpretation (r : report num) : interpretation :=
  section_B_interpretation (total_em_kg r) (df_breakdown r).

End Reporting.

Arguments interpretation num : clear implicits.

(** *** The dictionary of inputs that [main] hands to section A *)

(** The values that the dictionary holds. *)
Inductive pyval : Type :=
| PyFloat (x : f64)
| PyInt (n : Z)
| PyStr (s : string).

(** [d[key]] on a dictionary kept as the list of its items: the value of
    the key, or [KeyError]. *)
Fixpoint dict_get {V : Type} (d : list (string * V)) (key : string) : result V :=
  match d with
  | [] => Raise KeyError
  | (k, v) :: d' => if String.eqb k key then Ok v else dict_get d' key
  end.

(** A sequence of lookups, in order; the first missing key stops it. *)
Fixpoint dict_get_all {V : Type} (d : list (string * V)) (keys : list string)
  : result (list V) :=
  match keys with
  | [] => Ok []
  | key :: keys' =>
      v <- dict_get d key ;;
      vs <- dict_get_all d keys' ;;
      Ok (v :: vs)
  end.

(** [inputs_dict] of the agriculture branch of [main]. *)
Definition inputs_dict_agri (i : agri_inputs f64) : list (string * pyval) :=
  [ ("area_ha", PyFloat (area_ha i));
    ("crop_type", PyStr (crop_type i));
    ("rice_yield_t", PyFloat (rice_yield_t i));
    ("fert_n_kg", PyFloat (fert_n_kg i));
    ("diesel_l", PyFloat (diesel_l i));
    ("petrol_l", PyFloat (petrol_l i));
    ("elec_kwh", PyFloat (elec_kwh i));
    ("livestock_count", PyInt (livestock_count i)) ]%string.


(** The keys that [_mrv_section_A_measurement_agri] reads when it
    starts, in the order of its lookups. *)
Definition section_A_agri_keys : list string :=
  [ "area_ha"; "crop_type"; "rice_yield_t"; "fert_n_kg"; "diesel_l";
    "petrol_l"; "elec_kwh"; "livestock_count" ]%string.

(** The keys that [_mrv_section_A_measurement_alloy] reads. *)
Definition section_A_alloy_keys : list string :=
  [ "steel_prod_t"; "elec_kwh_alloy"; "diesel_l_alloy"; "petrol_l_alloy" ]%string.

(** The lookups with which the two section A functions start. *)
Definition section_A_agri_lookups {V : Type} (inputs_dict : list (string * V))
  : result (list V) :=
  dict_get_all inputs_dict section_A_agri_keys.

Definition section_A_alloy_lookups {V : Type} (inputs_dict : list (string * V))
  : result (list V) :=
  dict_get_all inputs_dict section_A_alloy_keys.

(** *** Forms and readings used in the statements *)

(** A form whose activity data are all zero, as the form is when it
    opens. *)
Definition agri_all_zero (i : agri_inputs f64) : Prop :=
  area_ha i = zero /\ rice_yield_t i = zero /\ livestock_count i = 0 /\
  fert_n_kg i = zero /\ diesel_l i = zero /\ petrol_l i = zero /\
  elec_kwh i = zero.

Definition alloy_all_zero (i : alloy_inputs f64) : Prop :=
  steel_prod_t i = zero /\ elec_kwh_alloy i = zero /\
  diesel_l_alloy i = zero /\ petrol_l_alloy i = zero.


(** [r] is the report of a submission whose quantities are all
    non-negative, as the form's [min_value] settings make them. *)
Definition submitted_nonneg (baseline_tco2e : f64) (r : report f64) : Prop :=
  (exists i, agri_nonneg i /\ main_agriculture baseline_tco2e i = Ok r) \/
  (exists i, alloy_nonneg i /\ main_alloy baseline_tco2e i = Ok r).

(** *** Reading a printed number back *)

(** The characters ['0'] to ['9']. *)
Definition is_digit (c : ascii) : bool :=
  let n := nat_of_ascii c in (Nat.leb 48 n && Nat.leb n 57)%bool.

(** The number that a string of decimal digits writes, read from the
    left after [acc]; nothing when a character is not a digit. *)
Fixpoint digits_value (acc : Z) (s : string) : option Z :=
  match s with
  | EmptyString => Some acc
  | String c s' =>
      if is_digit c
      then digits_value (10 * acc + Z.of_nat (nat_of_ascii c - 48)) s'
      else None
  end.

(** The integer nearest to [|x| * 10^ndigits] that [nice_number] prints,
    for a finite [x]. *)
Definition printed_magnitude (x : f64) (ndigits : nat) : Z :=
  match x with
  | S754_finite _ m e => Format.scaled_magnitude m e ndigits
  | _ => 0
  end.

(** The sign that [nice_number] prints. *)
Definition printed_sign (x : f64) : string :=
  match x with
  | S754_zero true | S754_finite true _ _ => "-"
  | _ => ""
  end.

(** *** Notions for the order of rounded values *)

(** Where a remainder [r] of a division by [q] lies: nothing left, or
    below, at or above the half. *)
Definition loc_of (r q : Z) : location :=
  if r =? 0 then loc_Exact else loc_Inexact (2 * r ?= q).

(** The record of a right shift holds the integer part of [P / D] with
    the round bit and the sticky bit of the remainder. *)
Definition shr_inv (P D : Z) (mrs : shr_record) : Prop :=
  shr_m mrs = P / D /\
  shr_r mrs = (D <=? 2 * (P mod D)) /\
  shr_s mrs = negb ((P mod D =? 0) || (2 * (P mod D) =? D)).

(** The exponent at which a mantissa [m] at exponent [e] is rounded. *)
Definition Ez (m e : Z) : Z := fexp B64.prec B64.emax (Zdigits2 m + e).

(** The float of a rounded mantissa [m <= 2^53] at exponent [E]. *)
Definition fin (s : bool) (m E : Z) : f64 :=
  if m =? 2 ^ 53 then B64.finish s (2 ^ 52) (E + 1) else B64.finish s m E.

(** [2^e] as a rational. *)
Definition pow2 (e : Z) : Q := (2 ^ e)%Q.

(** [(P1 / Q1) * 2^e1 <= (P2 / Q2) * 2^e2], without the divisions. *)
Definition vle (P1 Q1 e1 P2 Q2 e2 : Z) : Prop :=
  (inject_Z P1 * pow2 e1 * inject_Z Q2 <= inject_Z P2 * pow2 e2 * inject_Z Q1)%Q.

(** Positive floats with all 53 bits in use, as every constant of the
    program is. *)
Definition is_normal_pos (c : f64) : bool :=
  match c with
  | S754_finite false m e => bounded B64.prec B64.emax m e && (-1074 <? e)
  | _ => false
  end.

(** [0.0 <= x <= y] between well-formed floats. *)
Definition grows (x y : f64) : Prop :=
  B64.valid x = true /\ B64.valid y = true /\ fle zero x /\ fle x y.

(** The floats of a form are well-formed, as every Python float is. *)
Definition alloy_valid (i : alloy_inputs f64) : Prop :=
  B64.valid (steel_prod_t i) = true /\ B64.valid (elec_kwh_alloy i) = true /\
  B64.valid (diesel_l_alloy i) = true /\ B64.valid (petrol_l_alloy i) = true.

Definition agri_valid (i : agri_inputs f64) : Prop :=
  B64.valid (area_ha i) = true /\ B64.valid (rice_yield_t i) = true /\
  B64.valid (fert_n_kg i) = true /\ B64.valid (diesel_l i) = true /\
  B64.valid (petrol_l i) = true /\ B64.valid (elec_kwh i) = true.

(** Form [j] reports at least as much activity as form [i], field by
    field. *)
Definition alloy_le (i j : alloy_inputs f64) : Prop :=
  fle (steel_prod_t i) (steel_prod_t j) /\
  fle (elec_kwh_alloy i) (elec_kwh_alloy j) /\
  fle (diesel_l_alloy i) (diesel_l_alloy j) /\
  fle (petrol_l_alloy i) (petrol_l_alloy j).

Definition agri_le (i j : agri_inputs f64) : Prop :=
  crop_type i = crop_type j /\
  fle (area_ha i) (area_ha j) /\ fle (rice_yield_t i) (rice_yield_t j) /\
  livestock_count i <= livestock_count j /\
  fle (fert_n_kg i) (fert_n_kg j) /\ fle (diesel_l i) (diesel_l j) /\
  fle (petrol_l i) (petrol_l j) /\ fle (elec_kwh i) (elec_kwh j).

(** [r] is the report of a submission whose quantities are well-formed
    floats and are all non-negative. *)
Definition submitted_wellformed (baseline_tco2e : f64) (r : report f64) : Prop :=
  (exists i, agri_valid i /\ agri_nonneg i /\
             main_agriculture baseline_tco2e i = Ok r) \/
  (exists i, alloy_valid i /\ alloy_nonneg i /\
             main_alloy baseline_tco2e i = Ok r).

(* ------------------------------------------------------------------ *)
(** * Facts about binary64 arithmetic *)

Module B64Facts.

Import B64.

(** *** Signs *)

Lemma iter_pos_invariant {A : Type} (P : A -> Prop) (f : A -> A) :
  (forall x, P x -> P (f x)) ->
  forall (p : positive) (x : A), P x -> P (iter_pos f p x).
Proof.
  intros Hf p. induction p as [p IH | p IH | ]; intros x Hx; simpl; auto.
Qed.

Lemma shr_1_nonneg mrs : 0 <= shr_m mrs -> 0 <= shr_m (shr_1 mrs).
Proof.
  destruct mrs as [m r s]. simpl.
  destruct m as [ | [p | p | ] | p ]; simpl; lia.
Qed.

Lemma shr_nonneg mrs e n : 0 <= shr_m mrs -> 0 <= shr_m (fst (shr mrs e n)).
Proof.
  intros H. unfold shr. destruct n as [ | p | p ]; simpl; auto.
  apply (iter_pos_invariant (fun x => 0 <= shr_m x)); auto using shr_1_nonneg.
Qed.

Lemma shr_record_of_loc_m m l : shr_m (shr_record_of_loc m l) = m.
Proof. destruct l as [ | [ | | ] ]; reflexivity. Qed.

Lemma shr_fexp_nonneg m e l :
  0 <= m -> 0 <= shr_m (fst (shr_fexp prec emax m e l)).
Proof.
  intros H. unfold shr_fexp. apply shr_nonneg.
  now rewrite shr_record_of_loc_m.
Qed.

Lemma round_nearest_even_nonneg m l : 0 <= m -> 0 <= round_nearest_even m l.
Proof.
  intros H. unfold round_nearest_even.
  destruct l as [ | [ | | ] ]; try destruct (Z.even m); lia.
Qed.

Lemma binary_round_aux_sign s m e l :
  0 <= m -> sign_is s (binary_round_aux prec emax s m e l) = true.
Proof.
  intros H. unfold binary_round_aux.
  pose proof (shr_fexp_nonneg m e l H) as H1.
  destruct (shr_fexp prec emax m e l) as [mrs' e']. simpl in H1.
  pose proof (shr_fexp_nonneg _ e' loc_Exact
                (round_nearest_even_nonneg _ (loc_of_shr_record mrs') H1)) as H2.
  destruct (shr_fexp prec emax (round_nearest_even _ _) e' loc_Exact) as [mrs'' e''].
  simpl in H2.
  destruct (shr_m mrs'') as [ | p | p ]; simpl.
  - apply eqb_reflx.
  - destruct (_ <=? _); simpl; apply eqb_reflx.
  - lia.
Qed.

Lemma binary_round_sign s m e :
  sign_is s (binary_round prec emax s m e) = true.
Proof.
  unfold binary_round.
  destruct (shl_align m e _) as [mz ez].
  apply binary_round_aux_sign. lia.
Qed.

Lemma nonneg_cases x :
  nonneg x = true ->
  (exists s, x = S754_zero s) \/ x = S754_infinity false \/
  (exists m e, x = S754_finite false m e).
Proof.
  destruct x as [s | [ | ] | | [ | ] m e]; cbn; try discriminate; eauto.
Qed.

Lemma sign_false_nonneg x : sign_is false x = true -> nonneg x = true.
Proof. destruct x as [ [ | ] | [ | ] | | [ | ] m e]; cbn; congruence. Qed.

Lemma sign_true_nonpos x : sign_is true x = true -> nonpos x = true.
Proof. destruct x as [ [ | ] | [ | ] | | [ | ] m e]; cbn; congruence. Qed.

Lemma mul_sign x y sx sy :
  sign_is sx x = true -> sign_is sy y = true ->
  is_pos_finite y = true ->
  sign_is (xorb sx sy) (mul x y) = true.
Proof.
  intros Hx Hy Hp.
  destruct y as [ | | | [ | ] my ey]; try discriminate.
  destruct sy; try discriminate.
  destruct x as [s | s | | s mx ex]; cbn in Hx |- *; try discriminate;
    apply eqb_prop in Hx; subst s; rewrite ?xorb_false_r; try apply eqb_reflx.
  apply binary_round_aux_sign. lia.
Qed.

Lemma mul_nonneg x c :
  nonneg x = true -> is_pos_finite c = true -> nonneg (mul x c) = true.
Proof.
  intros Hx Hc.
  destruct c as [ | | | [ | ] mc ec]; try discriminate.
  destruct (nonneg_cases x Hx) as [[s ->] | [-> | (m & e & ->)]].
  - reflexivity.
  - reflexivity.
  - apply sign_false_nonneg.
    apply (mul_sign _ _ false false); reflexivity.
Qed.

Lemma shl_align_fst_pos m e e' : 0 < Zpos (fst (shl_align m e e')).
Proof. lia. Qed.

Lemma add_nonneg x y :
  nonneg x = true -> nonneg y = true -> nonneg (add x y) = true.
Proof.
  intros Hx Hy.
  destruct (nonneg_cases x Hx) as [[sx ->] | [-> | (mx & ex & ->)]];
    destruct (nonneg_cases y Hy) as [[sy ->] | [-> | (my & ey & ->)]];
    try reflexivity.
  - destruct sx, sy; reflexivity.
  - apply sign_false_nonneg. unfold add, SFadd. cbn [cond_Zopp].
    match goal with
    | |- context [binary_normalize _ _ (Zpos ?a + Zpos ?b)] =>
        change (Zpos a + Zpos b) with (Zpos (a + b))
    end.
    cbn [binary_normalize]. apply binary_round_sign.
Qed.

Lemma div_nonneg x c :
  nonneg x = true -> is_pos_finite c = true -> nonneg (div x c) = true.
Proof.
  intros Hx Hc.
  destruct c as [ | | | [ | ] mc ec]; try discriminate.
  destruct (nonneg_cases x Hx) as [[s ->] | [-> | (m & e & ->)]].
  - destruct s; reflexivity.
  - reflexivity.
  - apply sign_false_nonneg. unfold div, SFdiv, SFdiv_core_binary.
    match goal with
    | |- context [Z.div_eucl ?a ?b] =>
        pose proof (Z.div_pos a b) as Hq;
        unfold Z.div in Hq; destruct (Z.div_eucl a b) as [q r]
    end.
    cbn [xorb]. apply binary_round_aux_sign. simpl in Hq. apply Hq; [ | lia].
    match goal with
    | |- 0 <= match ?s with _ => _ end => destruct s; try lia
    end.
    apply Z.shiftl_nonneg. lia.
Qed.

(** *** The order of the comparison operators *)

Ltac cmp_cases :=
  repeat match goal with
  | H : context [Pos.compare_cont Eq ?a ?b] |- _ =>
      change (Pos.compare_cont Eq a b) with (Pos.compare a b) in H
  | |- context [Pos.compare_cont Eq ?a ?b] =>
      change (Pos.compare_cont Eq a b) with (Pos.compare a b)
  end;
  repeat match goal with
  | H : context [Z.compare ?a ?b] |- _ => destruct (Z.compare_spec a b)
  | |- context [Z.compare ?a ?b] => destruct (Z.compare_spec a b)
  | H : context [Pos.compare ?a ?b] |- _ => destruct (Pos.compare_spec a b)
  | |- context [Pos.compare ?a ?b] => destruct (Pos.compare_spec a b)
  end;
  cbn in *; try reflexivity; try discriminate; try lia.

Lemma ltb_leb a b : ltb a b = true -> leb a b = true.
Proof.
  unfold ltb, leb, SFltb, SFleb. destruct (SFcompare a b) as [[ | | ] | ]; congruence.
Qed.

Lemma leb_refl a : is_nan a = false -> leb a a = true.
Proof.
  destruct a as [ [ | ] | [ | ] | | [ | ] m e]; cbn; try congruence; intros _;
    unfold leb, SFleb; cbn; cmp_cases.
Qed.

Lemma ltb_false_leb a b :
  is_nan a = false -> is_nan b = false -> ltb a b = false -> leb b a = true.
Proof.
  destruct a as [ [ | ] | [ | ] | | [ | ] ma ea];
    destruct b as [ [ | ] | [ | ] | | [ | ] mb eb];
    cbn; try congruence; intros _ _; unfold ltb, leb, SFltb, SFleb; cbn;
    try congruence; cmp_cases.
Qed.

Lemma leb_ltb_trans a b c :
  leb a b = true -> ltb b c = true -> ltb a c = true.
Proof.
  destruct a as [ [ | ] | [ | ] | | [ | ] ma ea];
    destruct b as [ [ | ] | [ | ] | | [ | ] mb eb];
    destruct c as [ [ | ] | [ | ] | | [ | ] mc ec];
    unfold ltb, leb, SFltb, SFleb; cbn; try congruence; cmp_cases.
Qed.

Lemma leb_trans a b c :
  leb a b = true -> leb b c = true -> leb a c = true.
Proof.
  destruct a as [ [ | ] | [ | ] | | [ | ] ma ea];
    destruct b as [ [ | ] | [ | ] | | [ | ] mb eb];
    destruct c as [ [ | ] | [ | ] | | [ | ] mc ec];
    unfold ltb, leb, SFltb, SFleb; cbn; try congruence; cmp_cases.
Qed.

Lemma ltb_irrefl a : ltb a a = false.
Proof.
  destruct a as [ [ | ] | [ | ] | | [ | ] m e]; unfold ltb, SFltb; cbn;
    try reflexivity; cmp_cases.
Qed.

(** *** Rounding never goes above a float that lies above *)

Lemma dig_pos m : 0 < dig m.
Proof. unfold dig. lia. Qed.

Lemma dig_bounds m : 2 ^ (dig m - 1) <= Zpos m < 2 ^ dig m.
Proof.
  unfold dig. induction m as [m IH | m IH | ]; cbn [digits2_pos].
  - rewrite Pos2Z.inj_succ.
    replace (Z.succ (Zpos (digits2_pos m)) - 1) with (Z.succ (Zpos (digits2_pos m) - 1)) by lia.
    rewrite !Z.pow_succ_r by lia. lia.
  - rewrite Pos2Z.inj_succ.
    replace (Z.succ (Zpos (digits2_pos m)) - 1) with (Z.succ (Zpos (digits2_pos m) - 1)) by lia.
    rewrite !Z.pow_succ_r by lia. lia.
  - cbn. lia.
Qed.

Lemma dig_le m k : 0 <= k -> Zpos m < 2 ^ k -> dig m <= k.
Proof.
  intros Hk H. pose proof (dig_bounds m) as [Hl _]. pose proof (dig_pos m).
  assert (2 ^ (dig m - 1) < 2 ^ k) as Hlt by lia.
  apply Z.pow_lt_mono_r_iff in Hlt; lia.
Qed.

Lemma iter_xO m p : Zpos (Pos.iter xO m p) = Zpos m * 2 ^ Zpos p.
Proof.
  induction p as [ | p IH] using Pos.peano_ind.
  - cbn. lia.
  - rewrite Pos.iter_succ, Pos2Z.inj_succ, Z.pow_succ_r by lia.
    rewrite Pos2Z.inj_xO, IH. lia.
Qed.

Lemma shl_align_value m e e' :
  e' <= e ->
  Zpos (fst (shl_align m e e')) = Zpos m * 2 ^ (e - e') /\
  snd (shl_align m e e') = e'.
Proof.
  intros H. unfold shl_align.
  destruct (e' - e) as [ | p | p ] eqn:E; cbn [fst snd].
  - replace (e - e') with 0 by lia. rewrite Z.pow_0_r. lia.
  - lia.
  - rewrite iter_xO. replace (e - e') with (Zpos p) by lia. lia.
Qed.

Lemma shl_align_same m e e' :
  e <= e' -> shl_align m e e' = (m, e).
Proof.
  intros H. unfold shl_align. destruct (e' - e) as [ | p | p ] eqn:E; auto. lia.
Qed.

Lemma shr_1_m mrs : 0 <= shr_m mrs -> shr_m (shr_1 mrs) = shr_m mrs / 2.
Proof.
  destruct mrs as [m r s]. cbn [shr_m].
  destruct m as [ | [p | p | ] | p ]; cbn [shr_1 shr_m]; intros H; try lia.
  - reflexivity.
  - apply Z.div_unique with (r := 1); lia.
  - apply Z.div_unique with (r := 0); lia.
  - reflexivity.
Qed.

Lemma iter_shr_1_nonneg p mrs :
  0 <= shr_m mrs -> 0 <= shr_m (iter_pos shr_1 p mrs).
Proof.
  apply (iter_pos_invariant (fun x => 0 <= shr_m x)); auto using shr_1_nonneg.
Qed.

Lemma shr_m_iter p : forall mrs,
  0 <= shr_m mrs -> shr_m (iter_pos shr_1 p mrs) = shr_m mrs / 2 ^ Zpos p.
Proof.
  induction p as [p IH | p IH | ]; intros mrs H; cbn [iter_pos].
  - pose proof (Z.pow_pos_nonneg 2 (Zpos p)) as Hp.
    rewrite IH, IH, shr_1_m; auto using shr_1_nonneg, iter_shr_1_nonneg.
    rewrite !Z.div_div by lia. f_equal.
    replace (Zpos p~1) with (1 + Zpos p + Zpos p) by lia.
    rewrite !Z.pow_add_r by lia. lia.
  - pose proof (Z.pow_pos_nonneg 2 (Zpos p)) as Hp.
    rewrite IH, IH; auto using iter_shr_1_nonneg.
    rewrite !Z.div_div by lia. f_equal.
    replace (Zpos p~0) with (Zpos p + Zpos p) by lia.
    rewrite !Z.pow_add_r by lia. lia.
  - rewrite shr_1_m by assumption. reflexivity.
Qed.

Lemma E_of_ge m e : -1074 <= E_of m e /\ dig m + e - 53 <= E_of m e.
Proof. unfold E_of, fexp, emin, prec, emax. lia. Qed.

(** The first shift of [binary_round_aux]: down to the exponent [E_of],
    dropping the low bits. *)
Lemma shr_fexp_first m e :
  e <= E_of m e ->
  snd (shr_fexp prec emax (Zpos m) e loc_Exact) = E_of m e /\
  shr_m (fst (shr_fexp prec emax (Zpos m) e loc_Exact))
  = Zpos m / 2 ^ (E_of m e - e).
Proof.
  intros H. unfold shr_fexp. cbn [Zdigits2].
  fold (dig m). fold (E_of m e). unfold shr.
  destruct (E_of m e - e) as [ | p | p ] eqn:En; cbn [fst snd shr_m].
  - split; [lia | ]. rewrite Z.pow_0_r, Z.div_1_r. reflexivity.
  - split; [lia | ]. rewrite shr_m_iter; cbn [shr_m shr_record_of_loc]; [reflexivity | lia].
  - lia.
Qed.

(** The second shift: nothing to do below [2^53], one bit at [2^53]. *)
Lemma shr_fexp_second m E :
  -1074 <= E -> 0 <= m <= 2 ^ 53 ->
  shr_fexp prec emax m E loc_Exact
  = if m =? 2 ^ 53
    then (Build_shr_record (2 ^ 52) false false, E + 1)
    else (Build_shr_record m false false, E).
Proof.
  intros HE Hm. destruct (Z.eqb_spec m (2 ^ 53)) as [-> | Hne].
  - unfold shr_fexp. change (Zdigits2 (2 ^ 53)) with 54.
    replace (fexp prec emax (54 + E) - E) with 1
      by (unfold fexp, emin, prec, emax; lia).
    reflexivity.
  - unfold shr_fexp, shr.
    assert (fexp prec emax (Zdigits2 m + E) - E <= 0) as Hs.
    { destruct m as [ | p | p ]; [ | | lia].
      - unfold fexp, emin, prec, emax. cbn [Zdigits2]. lia.
      - cbn [Zdigits2]. fold (dig p).
        assert (dig p <= 53) by (apply dig_le; lia).
        unfold fexp, emin, prec, emax. lia. }
    destruct (fexp prec emax (Zdigits2 m + E) - E) as [ | p | p ];
      try reflexivity; lia.
Qed.

Lemma round_nearest_even_cases m l :
  round_nearest_even m l = m \/ round_nearest_even m l = m + 1.
Proof.
  unfold round_nearest_even.
  destruct l as [ | [ | | ] ]; try destruct (Z.even m); auto.
Qed.

Lemma binary_round_aux_shape s m e :
  e <= E_of m e ->
  let E := E_of m e in
  let m1 := Zpos m / 2 ^ (E - e) in
  0 <= m1 < 2 ^ 53 /\
  exists m2, (m2 = m1 \/ m2 = m1 + 1) /\
    binary_round_aux prec emax s (Zpos m) e loc_Exact
    = if m2 =? 2 ^ 53 then finish s (2 ^ 52) (E + 1) else finish s m2 E.
Proof.
  intros H E m1.
  pose proof (E_of_ge m e) as [HE1 HE2]. fold E in HE1, HE2.
  pose proof (dig_bounds m) as [_ Hd].
  assert (0 < 2 ^ (E - e)) as Hpw by (apply Z.pow_pos_nonneg; lia).
  assert (0 <= m1 < 2 ^ 53) as Hm1.
  { split.
    - apply Z.div_pos; lia.
    - apply Z.div_lt_upper_bound; [lia | ].
      rewrite <- Z.pow_add_r by lia.
      apply Z.lt_le_trans with (1 := Hd).
      apply Z.pow_le_mono_r; lia. }
  split; [exact Hm1 | ].
  destruct (shr_fexp_first m e H) as [He Hm]. fold E in He, Hm. fold m1 in Hm.
  unfold binary_round_aux.
  destruct (shr_fexp prec emax (Zpos m) e loc_Exact) as [mrs' e'].
  cbn [fst snd] in He, Hm. subst e'. rewrite Hm.
  exists (round_nearest_even m1 (loc_of_shr_record mrs')).
  split; [apply round_nearest_even_cases | ].
  destruct (round_nearest_even_cases m1 (loc_of_shr_record mrs')) as [Hr | Hr];
    rewrite Hr; rewrite shr_fexp_second by lia;
    match goal with |- context [?a =? ?b] => destruct (a =? b) end; reflexivity.
Qed.

Lemma leb_finite_pos m1 e1 m2 e2 :
  e1 < e2 \/ (e1 = e2 /\ Zpos m1 <= Zpos m2) ->
  leb (S754_finite false m1 e1) (S754_finite false m2 e2) = true.
Proof.
  unfold leb, SFleb. cbn. intros H. cmp_cases.
Qed.

Lemma bounded_facts m e :
  bounded prec emax m e = true ->
  E_of m e = e /\ e <= 971 /\ dig m <= 53 /\ -1074 <= e /\
  (-1074 < e -> 2 ^ 52 <= Zpos m).
Proof.
  unfold bounded, canonical_mantissa. intros H.
  apply andb_prop in H as [H1 H2].
  apply Z.eqb_eq in H1. apply Z.leb_le in H2.
  fold (dig m) in H1. fold (E_of m e) in H1.
  pose proof (E_of_ge m e) as [HE1 HE2].
  unfold emax, prec in H2.
  repeat split; try lia.
  intros He.
  assert (dig m = 53) as Hd.
  { unfold E_of, fexp, emin, prec, emax in H1. lia. }
  pose proof (dig_bounds m) as [Hl _]. rewrite Hd in Hl. exact Hl.
Qed.

Lemma binary_round_aux_below m e mb eb :
  bounded prec emax mb eb = true ->
  e <= E_of m e -> E_of m e <= eb ->
  (E_of m e = eb -> Zpos m / 2 ^ (eb - e) < Zpos mb) ->
  leb (binary_round_aux prec emax false (Zpos m) e loc_Exact)
      (S754_finite false mb eb) = true.
Proof.
  intros Hb He HE Hm.
  destruct (bounded_facts mb eb Hb) as (Hc & Hmax & Hdig & Hmin & Hnorm).
  pose proof (dig_bounds mb) as [_ Hmb].
  assert (Zpos mb < 2 ^ 53) as Hmb53.
  { apply Z.lt_le_trans with (1 := Hmb). apply Z.pow_le_mono_r; lia. }
  destruct (binary_round_aux_shape false m e He) as (Hm1 & m2 & Hm2 & ->).
  pose proof (E_of_ge m e) as [HE1 _].
  destruct (Z.eqb_spec m2 (2 ^ 53)) as [Heq | Hne].
  - assert (E_of m e < eb) as Hlt.
    { destruct (Z.eq_dec (E_of m e) eb) as [Heb | ]; [ | lia].
      specialize (Hm Heb). rewrite Heb in Hm2. lia. }
    unfold finish. change (2 ^ 52) with (Zpos (2 ^ 52)).
    replace (E_of m e + 1 <=? emax - prec) with true
      by (symmetry; apply Z.leb_le; unfold emax, prec; lia).
    apply leb_finite_pos.
    destruct (Z.eq_dec (E_of m e + 1) eb) as [Heb | ]; [right | left; lia].
    split; [exact Heb | ]. apply Hnorm. lia.
  - unfold finish. destruct m2 as [ | p | p ]; [reflexivity | | lia].
    replace (E_of m e <=? emax - prec) with true
      by (symmetry; apply Z.leb_le; unfold emax, prec; lia).
    apply leb_finite_pos.
    destruct (Z.eq_dec (E_of m e) eb) as [Heb | ]; [right | left; lia].
    split; [exact Heb | ]. specialize (Hm Heb). rewrite Heb in Hm2. lia.
Qed.

Lemma dig_unique m n : 2 ^ (n - 1) <= Zpos m < 2 ^ n -> dig m = n.
Proof.
  intros [Hl Hu]. pose proof (dig_bounds m) as [Hl' Hu']. pose proof (dig_pos m).
  assert (0 < n).
  { destruct (Z_lt_le_dec 0 n); auto.
    assert (2 ^ n <= 2 ^ 0) by (apply Z.pow_le_mono_r; lia). cbn in *. lia. }
  assert (2 ^ (dig m - 1) < 2 ^ n) as H1 by lia.
  assert (2 ^ (n - 1) < 2 ^ dig m) as H2 by lia.
  apply Z.pow_lt_mono_r_iff in H1; [ | lia | lia].
  apply Z.pow_lt_mono_r_iff in H2; lia.
Qed.

Lemma dig_shift m m' k :
  0 <= k -> Zpos m' = Zpos m * 2 ^ k -> dig m' = dig m + k.
Proof.
  intros Hk H. apply dig_unique. rewrite H.
  pose proof (dig_bounds m) as [Hl Hu]. pose proof (dig_pos m).
  assert (0 < 2 ^ k) by (apply Z.pow_pos_nonneg; lia).
  replace (dig m + k - 1) with (dig m - 1 + k) by lia.
  rewrite !Z.pow_add_r by lia. split; nia.
Qed.

(** Before rounding, [binary_round] aligns the mantissa so that the
    rounding exponent is not below the exponent it starts from; the
    value is unchanged. *)
Lemma binary_round_aligned s d ez :
  exists mz ez',
    binary_round prec emax s d ez
    = binary_round_aux prec emax s (Zpos mz) ez' loc_Exact /\
    ez' <= E_of mz ez' /\ E_of mz ez' = E_of d ez /\
    ez' <= ez /\ Zpos mz = Zpos d * 2 ^ (ez - ez').
Proof.
  unfold binary_round. fold (dig d). fold (E_of d ez).
  destruct (Z_le_gt_dec (E_of d ez) ez) as [Hle | Hgt].
  - destruct (shl_align_value d ez (E_of d ez) Hle) as [Hv He].
    destruct (shl_align d ez (E_of d ez)) as [mz ez']. cbn [fst snd] in Hv, He.
    subst ez'. exists mz, (E_of d ez).
    assert (E_of mz (E_of d ez) = E_of d ez) as Hsame.
    { unfold E_of at 1. rewrite (dig_shift d mz (ez - E_of d ez)) by (lia || exact Hv).
      unfold E_of. f_equal. lia. }
    rewrite Hsame. repeat split; try lia; exact Hv.
  - rewrite shl_align_same by lia. exists d, ez.
    rewrite Z.sub_diag, Z.pow_0_r. repeat split; lia.
Qed.

(** No overflow while the rounding exponent stays below the largest. *)
Lemma binary_round_finite s d ez :
  E_of d ez < emax - prec ->
  match binary_round prec emax s d ez with
  | S754_infinity _ | S754_nan => False
  | _ => True
  end.
Proof.
  intros HE.
  destruct (binary_round_aligned s d ez) as (mz & ez' & -> & He & Hsame & _).
  destruct (binary_round_aux_shape s mz ez' He) as (Hm1 & m2 & Hm2 & ->).
  rewrite Hsame.
  destruct (m2 =? 2 ^ 53).
  - unfold finish. change (2 ^ 52) with (Zpos (2 ^ 52)).
    replace (E_of d ez + 1 <=? emax - prec) with true; [exact I | ].
    symmetry. apply Z.leb_le. lia.
  - unfold finish. destruct m2 as [ | p | p ]; [exact I | | lia].
    replace (E_of d ez <=? emax - prec) with true; [exact I | ].
    symmetry. apply Z.leb_le. lia.
Qed.

(** Rounding a positive value that lies strictly below the float
    [mb * 2^eb] gives a float that is at most [mb * 2^eb]. *)
Lemma binary_round_below d ez mb eb :
  bounded prec emax mb eb = true ->
  ez <= eb -> Zpos d < Zpos mb * 2 ^ (eb - ez) ->
  leb (binary_round prec emax false d ez) (S754_finite false mb eb) = true.
Proof.
  intros Hb Hez Hd.
  destruct (bounded_facts mb eb Hb) as (Hc & Hmax & Hdig & Hmin & Hnorm).
  pose proof (dig_bounds mb) as [_ Hmb].
  assert (0 < 2 ^ (eb - ez)) as Hpw by (apply Z.pow_pos_nonneg; lia).
  assert (dig d <= dig mb + (eb - ez)) as Hdd.
  { pose proof (dig_pos mb). apply dig_le; [lia | ].
    rewrite Z.pow_add_r by lia. nia. }
  assert (E_of d ez <= eb) as HE.
  { rewrite <- Hc. unfold E_of, fexp, emin, prec, emax. lia. }
  destruct (binary_round_aligned false d ez)
    as (mz & ez' & -> & He & Hsame & Hle & Hv).
  apply binary_round_aux_below; rewrite ?Hsame; auto; try lia.
  intros Heq.
  assert (0 < 2 ^ (ez - ez')) as Hpw' by (apply Z.pow_pos_nonneg; lia).
  apply Z.div_lt_upper_bound; [apply Z.pow_pos_nonneg; lia | ].
  replace (eb - ez') with ((eb - ez) + (ez - ez')) by lia.
  rewrite Z.pow_add_r by lia. rewrite Hv. nia.
Qed.

(** *** Subtracting a non-negative value *)

Lemma sub_below b t :
  valid b = true -> ltb pos_zero b = true -> nonneg t = true ->
  ltb pos_zero (sub b t) = true ->
  leb (sub b t) b = true.
Proof.
  intros Hv Hb Ht Hpos.
  destruct b as [sb | [ | ] | | [ | ] mb eb]; try discriminate.
  - (* plus infinity *)
    destruct (nonneg_cases t Ht) as [[s ->] | [-> | (m & e & ->)]];
      try reflexivity; discriminate.
  - (* positive finite *)
    destruct (nonneg_cases t Ht) as [[s ->] | [-> | (mt & et & ->)]].
    + change (sub (S754_finite false mb eb) (S754_zero s)) with (S754_finite false mb eb).
      apply leb_refl. reflexivity.
    + discriminate.
    + unfold sub, SFsub in *. cbn [cond_Zopp] in *.
      set (ez := Z.min eb et) in *.
      destruct (shl_align_value mb eb ez ltac:(lia)) as [Hvb _].
      pose proof (shl_align_fst_pos mt et ez) as Hvt.
      destruct (Zpos (fst (shl_align mb eb ez)) - Zpos (fst (shl_align mt et ez)))
        as [ | d | d ] eqn:Hd; cbn [binary_normalize] in *.
      * discriminate.
      * apply binary_round_below; [exact Hv | lia | lia].
      * pose proof (binary_round_sign true d ez) as Hs.
        destruct (binary_round prec emax true d ez) as [ [ | ] | [ | ] | | [ | ] m e];
          discriminate.
Qed.

End B64Facts.

(* ------------------------------------------------------------------ *)
(** * Facts about the strings *)

Lemma eqb_nocase_lower s : forall t,
  eqb_nocase s t = String.eqb (lower s) (lower t).
Proof.
  induction s as [ | c s IH]; intros [ | d t]; cbn; try reflexivity.
  unfold same_letter. now rewrite IH.
Qed.

Lemma lower_is_diesel s :
  String.eqb (lower s) "diesel" = eqb_nocase s "diesel".
Proof. rewrite eqb_nocase_lower. reflexivity. Qed.

(* ------------------------------------------------------------------ *)
(** * Facts about the calculators in binary64 *)

Section CalculatorFacts.

Import B64 B64Facts.

Local Open Scope num_scope.

Lemma zero_is_pos_zero : zero = pos_zero.
Proof. reflexivity. Qed.

Lemma of_Z_0 : of_Z 0 = pos_zero.
Proof. reflexivity. Qed.

(** The emission factors as the floats the program holds, and their
    decimal expansions. *)
Example factors_as_floats :
  FERT_EF_N2O_N = S754_finite false 5764607523034235 (-59) /\
  N2O_TO_N2O_RATIO = S754_finite false 7077085128725065 (-52) /\
  ELECTRICITY_EF_KG_PER_KWH = S754_finite false 6449154666394550 (-53) /\
  DIESEL_EF_KG_PER_L = S754_finite false 6034823500676465 (-51) /\
  PETROL_EF_KG_PER_L = S754_finite false 5111585577065513 (-51) /\
  RICE_YIELD_EF_KG_PER_KG = S754_finite false 8106479329266893 (-53) /\
  STEEL_EF_T_PER_TONNE = S754_finite false 5742089524897382 (-51) /\
  LIVESTOCK_EF_KG_PER_HEAD_PER_YEAR = S754_finite false 8026434882764800 (-43).
Proof. repeat split; vm_compute; reflexivity. Qed.

Example factors_in_decimal :
  Format.nice_number FERT_EF_N2O_N 24 = "0.010000000000000000208167"%string /\
  Format.nice_number N2O_TO_N2O_RATIO 24 = "1.571428571428571396850771"%string /\
  Format.nice_number ELECTRICITY_EF_KG_PER_KWH 24 = "0.715999999999999969801934"%string /\
  Format.nice_number DIESEL_EF_KG_PER_L 24 = "2.680000000000000159872116"%string /\
  Format.nice_number PETROL_EF_KG_PER_L 24 = "2.270000000000000017763568"%string /\
  Format.nice_number RICE_YIELD_EF_KG_PER_KG 24 = "0.900000000000000022204460"%string /\
  Format.nice_number STEEL_EF_T_PER_TONNE 24 = "2.549999999999999822364316"%string /\
  Format.nice_number LIVESTOCK_EF_KG_PER_HEAD_PER_YEAR 1 = "912.5"%string /\
  Format.nice_number fertilizer_emission_factor_kg_per_kgN 15 = "4.164285714285715"%string.
Proof. repeat split; vm_compute; reflexivity. Qed.

(** The sum runs from left to right. *)
Lemma py_sum_snoc (xs : list f64) (x : f64) :
  py_sum (xs ++ [x]) = py_sum xs +! x.
Proof. unfold py_sum. rewrite fold_left_app. reflexivity. Qed.

(** Division by a literal never raises. *)
Lemma kg_to_tonnes_ok (kg : f64) : kg_to_tonnes kg = Ok (ndiv kg (lit 10000 1)).
Proof. reflexivity. Qed.

Lemma compute_rice_emissions_ok (area_ha yield_tonnes : f64) :
  compute_rice_emissions area_ha yield_tonnes
  = Ok (ndiv (area_ha *! of_Z 7870 +! yield_tonnes *! of_Z 1000 *! lit 9 1)
             (of_Z 2)).
Proof. reflexivity. Qed.

Lemma potential_credits_cases (baseline_t total_t : f64) :
  potential_credits baseline_t total_t
  = if ltb pos_zero baseline_t
    then (if ltb pos_zero (baseline_t -! total_t)
          then baseline_t -! total_t else pos_zero)
    else pos_zero.
Proof. reflexivity. Qed.

Lemma potential_credits_nonneg (baseline_t total_t : f64) :
  fle zero (potential_credits baseline_t total_t).
Proof.
  rewrite potential_credits_cases. unfold fle. rewrite zero_is_pos_zero.
  destruct (ltb pos_zero baseline_t); [ | reflexivity].
  destruct (ltb pos_zero (baseline_t -! total_t)) eqn:H; [ | reflexivity].
  now apply ltb_leb.
Qed.

Lemma potential_credits_below (baseline_t total_t : f64) :
  valid baseline_t = true -> fle zero baseline_t -> fle zero total_t ->
  fle (potential_credits baseline_t total_t) baseline_t.
Proof.
  unfold fle. rewrite zero_is_pos_zero. intros Hv Hb Ht.
  rewrite potential_credits_cases.
  destruct (ltb pos_zero baseline_t) eqn:Hpos; [ | exact Hb].
  destruct (ltb pos_zero (baseline_t -! total_t)) eqn:Hd; [ | exact Hb].
  apply sub_below; assumption.
Qed.

Ltac report_fields :=
  cbn [sources em_values_kg total_em_kg total_em_t potential_credits_t df_breakdown].

(** The report of the alloy sector, which no input can make fail. *)
Lemma main_alloy_ok (baseline_tco2e : f64) (i : alloy_inputs f64) :
  exists r, main_alloy baseline_tco2e i = Ok r /\
    sources r =
      [ "Steel production"; "Electricity (grid)"; "Diesel"; "Petrol" ]%string /\
    em_values_kg r =
      [ compute_steel_emissions (steel_prod_t i);
        compute_electricity_emissions (elec_kwh_alloy i);
        compute_fuel_emissions (diesel_l_alloy i) "Diesel";
        compute_fuel_emissions (petrol_l_alloy i) "Petrol" ] /\
    totals_derived r /\
    potential_credits_t r = potential_credits baseline_tco2e (total_em_t r) /\
    df_breakdown r = make_breakdown (sources r) (em_values_kg r).
Proof.
  unfold main_alloy. rewrite kg_to_tonnes_ok. cbn [bind].
  eexists. split; [reflexivity | ].
  unfold totals_derived. report_fields.
  split; [reflexivity | ]. split; [reflexivity | ].
  split; [ | split; reflexivity].
  split; [reflexivity | ]. split; [apply kg_to_tonnes_ok | reflexivity].
Qed.

(** The report of the agriculture sector: the only failure is a cattle
    count that does not fit a float. *)
Lemma main_agriculture_cases (baseline_tco2e : f64) (i : agri_inputs f64) :
  (exists r livestock_em,
     main_agriculture baseline_tco2e i = Ok r /\
     compute_livestock_emissions (livestock_count i) = Ok livestock_em /\
     sources r =
       [ "Synthetic nitrogen fertilizer"; "Diesel"; "Petrol";
         "Electricity (grid)"; "Rice paddies";
         "Livestock (enteric methane)" ]%string /\
     em_values_kg r =
       [ compute_fertilizer_emissions (fert_n_kg i);
         compute_fuel_emissions (diesel_l i) "Diesel";
         compute_fuel_emissions (petrol_l i) "Petrol";
         compute_electricity_emissions (elec_kwh i);
         (if String.eqb (crop_type i) "Rice"
          then ndiv (area_ha i *! of_Z 7870 +! rice_yield_t i *! of_Z 1000 *! lit 9 1)
                    (of_Z 2)
          else zero);
         livestock_em ] /\
     totals_derived r /\
     potential_credits_t r = potential_credits baseline_tco2e (total_em_t r) /\
     df_breakdown r = make_breakdown (sources r) (em_values_kg r)) \/
  (main_agriculture baseline_tco2e i = Raise OverflowError /\
   compute_livestock_emissions (num := f64) (livestock_count i) = Raise OverflowError /\
   float_of_int (livestock_count i) = Raise OverflowError).
Proof.
  unfold main_agriculture.
  assert (forall e, compute_livestock_emissions (num := f64) (livestock_count i) = Raise e ->
                    e = OverflowError /\ float_of_int (livestock_count i) = Raise OverflowError) as Hr.
  { unfold compute_livestock_emissions. cbn [py_float b64_arith].
    unfold float_of_int. intros err.
    destruct (Z2F (livestock_count i)); cbn [bind]; intros Herr; inversion Herr; auto. }
  destruct (compute_livestock_emissions (livestock_count i)) as [v | e] eqn:Hl.
  - left.
    destruct (String.eqb (crop_type i) "Rice");
      rewrite ?compute_rice_emissions_ok; cbn [bind];
      rewrite kg_to_tonnes_ok; cbn [bind];
      eexists; exists v; (split; [reflexivity | ]);
      unfold totals_derived; report_fields;
      (split; [reflexivity | ]); (split; [reflexivity | ]);
      (split; [reflexivity | ]); (split; [ | split; reflexivity]);
      (split; [reflexivity | ]); (split; [apply kg_to_tonnes_ok | reflexivity]).
  - right. destruct (Hr e eq_refl) as [-> H].
    destruct (String.eqb (crop_type i) "Rice");
      rewrite ?compute_rice_emissions_ok; cbn [bind]; auto.
Qed.

Lemma submitted_credits baseline_tco2e r :
  submitted baseline_tco2e r ->
  potential_credits_t r = potential_credits baseline_tco2e (total_em_t r).
Proof.
  intros [[i H] | [i H]].
  - destruct (main_agriculture_cases baseline_tco2e i)
      as [(r' & v & Hr & _ & _ & _ & _ & Hc & _) | (Hr & _)]; congruence.
  - destruct (main_alloy_ok baseline_tco2e i) as (r' & Hr & _ & _ & _ & Hc & _). congruence.
Qed.

Lemma submitted_breakdown baseline_tco2e r :
  submitted baseline_tco2e r ->
  df_breakdown r = make_breakdown (sources r) (em_values_kg r).
Proof.
  intros [[i H] | [i H]].
  - destruct (main_agriculture_cases baseline_tco2e i)
      as [(r' & v & Hr & _ & _ & _ & _ & _ & Hd) | (Hr & _)]; congruence.
  - destruct (main_alloy_ok baseline_tco2e i) as (r' & Hr & _ & _ & _ & _ & Hd). congruence.
Qed.

Lemma submitted_totals baseline_tco2e r :
  submitted baseline_tco2e r -> totals_derived r.
Proof.
  intros [[i H] | [i H]].
  - destruct (main_agriculture_cases baseline_tco2e i)
      as [(r' & v & Hr & _ & _ & _ & Ht & _) | (Hr & _)]; congruence.
  - destruct (main_alloy_ok baseline_tco2e i) as (r' & Hr & _ & _ & Ht & _). congruence.
Qed.

End CalculatorFacts.

(* ------------------------------------------------------------------ *)
(** * The potential-credit value *)

Section Credits.

Import B64 B64Facts.

Local Open Scope num_scope.

(** C1. For every baseline and every total, the potential-credit value
    that a submission produces is [max(0.0, baseline - total)] when the
    baseline is greater than zero, and [0.0] when the baseline is zero
    (the default of the form, so also when none is supplied) or is not
    greater than zero for any other reason; it is never negative.  The
    value [max(0.0, d)] is [d] when [d > 0.0] and [0.0] otherwise. *)
Theorem potential_credits_after_submission (baseline_t total_t : f64) :
  (forall r, submitted baseline_t r ->
             potential_credits_t r = potential_credits baseline_t (total_em_t r)) /\
  (flt zero baseline_t ->
     potential_credits baseline_t total_t = py_max zero (baseline_t -! total_t)) /\
  (feq baseline_t zero -> potential_credits baseline_t total_t = zero) /\
  (~ flt zero baseline_t -> potential_credits baseline_t total_t = zero) /\
  (forall d : f64, py_max zero d = if ltb zero d then d else zero) /\
  fle zero (potential_credits baseline_t total_t).
Proof.
  split; [intros r; apply submitted_credits | ].
  split.
  { unfold flt. intros H. rewrite potential_credits_cases.
    rewrite zero_is_pos_zero in H. rewrite H. reflexivity. }
  split.
  { unfold feq. intros H. rewrite potential_credits_cases.
    destruct baseline_t as [ [ | ] | [ | ] | | [ | ] m e]; try discriminate H;
      reflexivity. }
  split.
  { unfold flt. intros H. rewrite potential_credits_cases.
    rewrite zero_is_pos_zero in H.
    destruct (ltb pos_zero baseline_t); [now elim H | reflexivity]. }
  split; [reflexivity | apply potential_credits_nonneg].
Qed.

(** The values that the specification lists for the credit calculation:
    a baseline of 10 with a total of 4 gives 6; no baseline gives 0; a
    baseline of 4 with a total of 10 gives 0. *)
Lemma potential_credits_after_submission_witness :
  flt zero (lit 100 1) /\
  potential_credits (num := f64) (lit 100 1) (lit 40 1) = lit 60 1.
Proof.
  split; [reflexivity | ].
  destruct (potential_credits_after_submission (lit 100 1) (lit 40 1))
    as (_ & H & _).
  rewrite H; reflexivity.
Defined.

Example potential_credits_no_baseline :
  potential_credits (num := f64) zero (lit 40 1) = zero.
Proof. reflexivity. Qed.

Example potential_credits_never_negative :
  potential_credits (num := f64) (lit 40 1) (lit 100 1) = zero.
Proof. reflexivity. Qed.

(** C9. Whenever the total is non-negative, the potential-credit value
    never exceeds the baseline: for every well-formed float baseline with
    [baseline >= 0] and every total with [total >= 0], the credits are at
    most the baseline; so are the credits of every report a submission
    produces, when its total is non-negative. *)
Theorem credits_at_most_baseline (baseline_t total_t : f64) :
  valid baseline_t = true -> fle zero baseline_t -> fle zero total_t ->
  fle (potential_credits baseline_t total_t) baseline_t /\
  (forall r, submitted baseline_t r -> total_em_t r = total_t ->
             fle (potential_credits_t r) baseline_t).
Proof.
  intros Hv Hb Ht. split.
  - now apply potential_credits_below.
  - intros r Hr <-. rewrite (submitted_credits _ _ Hr).
    now apply potential_credits_below.
Qed.

Lemma credits_at_most_baseline_witness :
  fle (potential_credits (num := f64) (lit 300 1) (lit 26216 3)) (lit 300 1).
Proof.
  refine (proj1 (credits_at_most_baseline (lit 300 1) (lit 26216 3) _ _ _));
    vm_compute; reflexivity.
Defined.

End Credits.

(* ------------------------------------------------------------------ *)
(** * Aggregation *)

Section Aggregation.

Import B64 B64Facts.

Local Open Scope num_scope.

(** C2. For every sector scenario, the report's total kilograms is the
    sum of the per-source emission values, and its total tonnes is that
    total divided by 1000.0 by [kg_to_tonnes].  The alloy sector always
    produces a report; the agriculture sector produces one unless the
    cattle count is too large to convert to a float.  The sum starts
    from 0 and adds the values one by one, from left to right. *)
Theorem report_totals (baseline_tco2e : f64) :
  (forall i, exists r, main_alloy baseline_tco2e i = Ok r /\ totals_derived r) /\
  (forall i,
     (exists r, main_agriculture baseline_tco2e i = Ok r /\ totals_derived r) \/
     (main_agriculture baseline_tco2e i = Raise OverflowError /\
      float_of_int (livestock_count i) = Raise OverflowError)) /\
  (forall r, submitted baseline_tco2e r -> totals_derived r) /\
  py_sum (num := f64) [] = of_Z 0 /\
  (forall (xs : list f64) (x : f64), py_sum (xs ++ [x]) = py_sum xs +! x).
Proof.
  split; [ | split; [ | split; [ | split; [reflexivity | apply py_sum_snoc] ] ] ].
  - intros i. destruct (main_alloy_ok baseline_tco2e i) as (r & Hr & _ & _ & Ht & _).
    eauto.
  - intros i.
    destruct (main_agriculture_cases baseline_tco2e i)
      as [(r & v & Hr & _ & _ & _ & Ht & _) | (Hr & _ & Hf)]; eauto.
  - apply submitted_totals.
Qed.

Lemma report_totals_witness :
  exists r, main_alloy (lit 300 1) scenario_alloy = Ok r /\
            total_em_kg r = lit 262160 1 /\ totals_derived r.
Proof.
  eexists. split; [reflexivity | ]. split; [reflexivity | ].
  apply (proj1 (proj2 (proj2 (report_totals (lit 300 1))))).
  right. exists scenario_alloy. reflexivity.
Defined.

End Aggregation.

(* ------------------------------------------------------------------ *)
(** * The calculators *)

Section Fuel.

Context {num : Type} {A : Arith num}.

Local Open Scope num_scope.

(** The factor selection, in any arithmetic. *)
Lemma compute_fuel_emissions_factor (litres : num) (fuel_type : string) :
  compute_fuel_emissions litres fuel_type
  = litres *! (if eqb_nocase fuel_type "diesel" then lit 268 2 else lit 227 2).
Proof.
  unfold compute_fuel_emissions. rewrite lower_is_diesel. reflexivity.
Qed.

End Fuel.

(** C3. For every litres value and every fuel-type string,
    [compute_fuel_emissions] returns [litres * 2.68] when the fuel type
    matches ["diesel"] whatever the case of its letters, and
    [litres * 2.27] for every other string, among them ["petrol"],
    ["Petrol"], the empty string and unrecognized strings.  The test of
    the code, [fuel_type.lower() == "diesel"], is this case-insensitive
    match, and the two factors are different floats. *)
Theorem fuel_emissions_by_type (litres : f64) (fuel_type : string) :
  String.eqb (lower fuel_type) "diesel" = eqb_nocase fuel_type "diesel" /\
  (eqb_nocase fuel_type "diesel" = true ->
     compute_fuel_emissions litres fuel_type = (litres *! lit 268 2)%num) /\
  (eqb_nocase fuel_type "diesel" = false ->
     compute_fuel_emissions litres fuel_type = (litres *! lit 227 2)%num) /\
  lit 268 2 <> (lit 227 2 : f64) /\
  compute_fuel_emissions litres "Diesel" = (litres *! lit 268 2)%num /\
  compute_fuel_emissions litres "DIESEL" = (litres *! lit 268 2)%num /\
  compute_fuel_emissions litres "petrol" = (litres *! lit 227 2)%num /\
  compute_fuel_emissions litres "Petrol" = (litres *! lit 227 2)%num /\
  compute_fuel_emissions litres "" = (litres *! lit 227 2)%num /\
  compute_fuel_emissions litres "kerosene" = (litres *! lit 227 2)%num /\
  compute_fuel_emissions litres "diesel " = (litres *! lit 227 2)%num.
Proof.
  split; [apply lower_is_diesel | ].
  split; [intros H; rewrite compute_fuel_emissions_factor, H; reflexivity | ].
  split; [intros H; rewrite compute_fuel_emissions_factor, H; reflexivity | ].
  split; [vm_compute; discriminate | ].
  repeat split; apply compute_fuel_emissions_factor.
Qed.

Lemma fuel_emissions_by_type_witness :
  eqb_nocase "dIeSeL" "diesel" = true /\
  compute_fuel_emissions (num := f64) (lit 500 1) "dIeSeL" = lit 1340 1 /\
  eqb_nocase "gas" "diesel" = false /\
  compute_fuel_emissions (num := f64) (lit 500 1) "gas" = lit 1135 1.
Proof.
  destruct (fuel_emissions_by_type (lit 500 1) "dIeSeL") as (_ & Hd & _).
  destruct (fuel_emissions_by_type (lit 500 1) "gas") as (_ & _ & Hp & _).
  split; [reflexivity | ]. split; [rewrite Hd; reflexivity | ].
  split; [reflexivity | rewrite Hp; reflexivity].
Defined.

Section Rice.

Import B64 B64Facts.

Local Open Scope num_scope.

(** C5. For all area and yield values, non-negative ones included,
    [compute_rice_emissions] returns
    [(area_ha * 7870 + yield_tonnes * 1000 * 0.9) / 2]; in the report of
    the agriculture sector the source ["Rice paddies"], the fifth one,
    has this value when the crop type is ["Rice"] and exactly [0.0] for
    any other crop type. *)
Theorem rice_paddies_contribution (area yield_t : f64) :
  compute_rice_emissions area yield_t
  = Ok (ndiv (area *! of_Z 7870 +! yield_t *! of_Z 1000 *! lit 9 1) (of_Z 2)) /\
  (forall baseline_tco2e i r,
     main_agriculture baseline_tco2e i = Ok r ->
     nth_error (sources r) 4 = Some "Rice paddies"%string /\
     (crop_type i = "Rice"%string ->
        exists rice_em,
          compute_rice_emissions (area_ha i) (rice_yield_t i) = Ok rice_em /\
          nth_error (em_values_kg r) 4 = Some rice_em) /\
     (crop_type i <> "Rice"%string ->
        nth_error (em_values_kg r) 4 = Some zero)).
Proof.
  split; [reflexivity | ].
  intros baseline_tco2e i r Hr.
  destruct (main_agriculture_cases baseline_tco2e i)
    as [(r' & v & Hr' & _ & Hs & Hv & _) | (Hr' & _)]; [ | congruence].
  assert (r' = r) by congruence. subst r'.
  rewrite Hs, Hv. cbn [nth_error].
  split; [reflexivity | ]. split.
  - intros ->. eexists. split; reflexivity.
  - intros Hne. apply String.eqb_neq in Hne. rewrite Hne. reflexivity.
Qed.

Lemma rice_paddies_contribution_witness :
  exists r,
    main_agriculture (num := f64) zero scenario_rice = Ok r /\
    nth_error (em_values_kg r) 4 = Some (lit 94450 1) /\
    exists r',
      main_agriculture (num := f64) zero scenario_agri = Ok r' /\
      nth_error (em_values_kg r') 4 = Some zero.
Proof.
  eexists. split; [reflexivity | ]. split; [reflexivity | ].
  eexists. split; [reflexivity | ].
  refine (proj2 (proj2 (proj2 (rice_paddies_contribution zero zero) zero scenario_agri _ eq_refl)) _).
  discriminate.
Defined.

End Rice.

Section Fertilizer.

Local Open Scope num_scope.

(** C4, as stated, fails in binary64: at [n_kg = 3.0] the staged
    computation gives 12.492857142857142 and the product with the
    precomposed factor gives 12.492857142857144, one unit in the last
    place apart. *)
Lemma fertilizer_composite_counterexample :
  fle zero (lit 30 1) /\
  compute_fertilizer_emissions (num := f64) (lit 30 1)
  = S754_finite false 7032853346670533 (-49) /\
  lit 30 1 *! fertilizer_emission_factor_kg_per_kgN (num := f64)
  = S754_finite false 7032853346670534 (-49) /\
  Format.nice_number (compute_fertilizer_emissions (lit 30 1)) 15
  = "12.492857142857142"%string /\
  Format.nice_number (lit 30 1 *! fertilizer_emission_factor_kg_per_kgN) 15
  = "12.492857142857144"%string /\
  compute_fertilizer_emissions (num := f64) (lit 30 1)
  <> lit 30 1 *! fertilizer_emission_factor_kg_per_kgN.
Proof.
  repeat split; vm_compute; try reflexivity. discriminate.
Qed.

(** C4, amended.  For every [n_kg], [compute_fertilizer_emissions]
    returns [n_kg * 0.01 * (44/28) * 265], evaluated from left to right
    in binary64.  In exact arithmetic this value equals
    [n_kg * fertilizer_emission_factor_kg_per_kgN()] for every input; in
    binary64 the two agree up to rounding only, for instance exactly at
    [n_kg = 100.0] and at [n_kg = 0.0].  The factor is 4.16429 to five
    decimals. *)
Theorem fertilizer_staged_formula :
  (forall n_kg : f64,
     compute_fertilizer_emissions n_kg
     = n_kg *! lit 1 2 *! ndiv (of_Z 44) (of_Z 28) *! of_Z 265) /\
  (forall n_kg : Qc,
     compute_fertilizer_emissions n_kg
     = n_kg *! lit 1 2 *! ndiv (of_Z 44) (of_Z 28) *! of_Z 265 /\
     compute_fertilizer_emissions n_kg
     = n_kg *! fertilizer_emission_factor_kg_per_kgN) /\
  compute_fertilizer_emissions (num := f64) (lit 1000 1)
  = lit 1000 1 *! fertilizer_emission_factor_kg_per_kgN /\
  compute_fertilizer_emissions (num := f64) zero
  = zero *! fertilizer_emission_factor_kg_per_kgN /\
  Format.nice_number fertilizer_emission_factor_kg_per_kgN 5 = "4.16429"%string.
Proof.
  split; [reflexivity | ].
  split; [ | split; [ | split]; vm_compute; reflexivity].
  intros n_kg. split; [reflexivity | ].
  unfold compute_fertilizer_emissions, fertilizer_emission_factor_kg_per_kgN.
  cbn [nmul exact_arith]. ring.
Qed.

End Fertilizer.

Section Scenarios.

Local Open Scope num_scope.

(** C6, as stated, fails in binary64 on its last figure: the credits of
    the scenario are [30.0 - 26.216], which is 3.7839999999999989, two
    units in the last place below the float [3.784]. *)
Lemma alloy_scenario_credits_counterexample :
  exists r,
    main_alloy (lit 300 1) scenario_alloy = Ok r /\
    potential_credits_t r = S754_finite false 8520810494984976 (-51) /\
    lit 3784 3 = S754_finite false 8520810494984978 (-51) /\
    Format.nice_number (potential_credits_t r) 16 = "3.7839999999999989"%string /\
    Format.nice_number (lit 3784 3) 16 = "3.7839999999999998"%string /\
    potential_credits_t r <> lit 3784 3.
Proof.
  eexists. split; [vm_compute; reflexivity | ].
  repeat split; vm_compute; try reflexivity. discriminate.
Qed.

(** C6, amended.  For the alloy input of the scenario (10 t of steel,
    1000 kWh, no diesel, no petrol, a baseline of 30 t) the per-source
    values are 25500 kg for steel and 716 kg for electricity, the total is
    26216 kg, which is 26.216 t, and the potential credits are
    [max(0.0, 30.0 - 26.216)]: the float 3.7839999999999989, shown as
    3.784 at the three decimals of the report, and exactly 3.784 in exact
    arithmetic. *)
Theorem alloy_scenario_values :
  (exists r,
     main_alloy (num := f64) (lit 300 1) scenario_alloy = Ok r /\
     em_values_kg r = [lit 255000 1; lit 7160 1; zero; zero] /\
     total_em_kg r = lit 262160 1 /\
     total_em_t r = lit 26216 3 /\
     potential_credits_t r = py_max zero (lit 300 1 -! lit 26216 3) /\
     potential_credits_t r = S754_finite false 8520810494984976 (-51) /\
     Format.nice_number (potential_credits_t r) 3 = "3.784"%string /\
     Format.nice_number (potential_credits_t r) 16 = "3.7839999999999989"%string) /\
  (exists r,
     main_alloy (num := Qc) (lit 300 1) scenario_alloy = Ok r /\
     em_values_kg r = [lit 255000 1; lit 7160 1; lit 0 1; lit 0 1] /\
     total_em_kg r = lit 262160 1 /\
     total_em_t r = lit 26216 3 /\
     potential_credits_t r = lit 3784 3).
Proof.
  split.
  - eexists. split; [vm_compute; reflexivity | ].
    repeat split; vm_compute; reflexivity.
  - eexists. split; [reflexivity | ].
    repeat split; cbn [em_values_kg total_em_kg total_em_t potential_credits_t];
      repeat f_equal; apply Qc_is_canon; vm_compute; reflexivity.
Qed.

(** The agriculture form of the first scenario (2 ha of a general crop,
    100 kg of nitrogen, 50 L of diesel, 200 kWh, 5 head of cattle, no
    baseline), at the two decimals of the report. *)
Example agriculture_scenario_values :
  exists r,
    main_agriculture (num := f64) zero scenario_agri = Ok r /\
    map (fun x => Format.nice_number x 2) (em_values_kg r)
    = [ "416.43"; "134.00"; "0.00"; "143.20"; "0.00"; "4562.50" ]%string /\
    Format.nice_number (total_em_kg r) 2 = "5256.13"%string /\
    Format.nice_number (total_em_t r) 2 = "5.26"%string /\
    potential_credits_t r = zero.
Proof.
  eexists. split; [vm_compute; reflexivity | ].
  repeat split; vm_compute; reflexivity.
Qed.

End Scenarios.

(* ------------------------------------------------------------------ *)
(** * Signs of the results *)

(** Emission factors and literal divisors are positive finite floats. *)
Ltac factor_pos :=
  match goal with
  | |- B64.is_pos_finite ?c = true => vm_compute; reflexivity
  end.

Section Signs.

Import B64 B64Facts.

Local Open Scope num_scope.

Lemma Z2F_sign_nonneg h : 0 <= h -> nonneg (Z2F h) = true.
Proof.
  intros H. unfold Z2F. destruct h as [ | p | p ]; [reflexivity | | lia].
  apply sign_false_nonneg. apply binary_round_sign.
Qed.

Lemma Z2F_sign_neg h : h < 0 -> sign_is true (Z2F h) = true.
Proof.
  intros H. unfold Z2F. destruct h as [ | p | p ]; try lia.
  apply binary_round_sign.
Qed.

Lemma float_of_int_ok h :
  - 2 ^ 1023 < h < 2 ^ 1023 -> float_of_int h = Ok (Z2F h).
Proof.
  intros H. unfold float_of_int.
  assert (forall s p, Zpos p < 2 ^ 1023 ->
            match binary_round prec emax s p 0 with
            | S754_infinity _ | S754_nan => False
            | _ => True
            end) as Hfin.
  { intros s p Hp. apply binary_round_finite.
    assert (dig p <= 1023) by (apply dig_le; [lia | exact Hp]).
    unfold E_of, fexp, emin, emax, prec. lia. }
  unfold Z2F. destruct h as [ | p | p ]; cbn [binary_normalize].
  - reflexivity.
  - specialize (Hfin false p ltac:(lia)).
    destruct (binary_round prec emax false p 0); tauto.
  - specialize (Hfin true p ltac:(lia)).
    destruct (binary_round prec emax true p 0); tauto.
Qed.

Lemma float_of_int_cases h :
  (float_of_int h = Ok (Z2F h) /\ is_nan (Z2F h) = false) \/
  float_of_int h = Raise OverflowError.
Proof.
  unfold float_of_int.
  assert (is_nan (Z2F h) = false) as Hn.
  { unfold Z2F. destruct h as [ | p | p ]; cbn [binary_normalize]; [reflexivity | | ].
    - pose proof (binary_round_sign false p 0).
      destruct (binary_round prec emax false p 0); [reflexivity .. | discriminate | reflexivity].
    - pose proof (binary_round_sign true p 0).
      destruct (binary_round prec emax true p 0); [reflexivity .. | discriminate | reflexivity]. }
  destruct (Z2F h); auto.
Qed.

(** The largest int that converts and the smallest that does not. *)
Example float_of_int_threshold :
  float_of_int (2 ^ 1024 - 2 ^ 970 - 1)
  = Ok (S754_finite false (2 ^ 53 - 1) 971) /\
  float_of_int (2 ^ 1024 - 2 ^ 970) = Raise OverflowError /\
  float_of_int (2 ^ 53 + 1) = Ok (S754_finite false (2 ^ 52) 1).
Proof. repeat split; vm_compute; reflexivity. Qed.

Lemma compute_livestock_emissions_cases h :
  (compute_livestock_emissions (num := f64) h
   = Ok (Z2F h *! lit 9125 1) /\ float_of_int h = Ok (Z2F h)) \/
  (compute_livestock_emissions (num := f64) h = Raise OverflowError /\
   float_of_int h = Raise OverflowError).
Proof.
  unfold compute_livestock_emissions. cbn [py_float b64_arith].
  destruct (float_of_int_cases h) as [[-> _] | ->]; cbn [bind]; auto.
Qed.

Lemma fuel_factor_pos fuel_type :
  is_pos_finite
    (if String.eqb (lower fuel_type) "diesel"
     then DIESEL_EF_KG_PER_L (num := f64) else PETROL_EF_KG_PER_L) = true.
Proof. destruct (String.eqb _ _); factor_pos. Qed.

Lemma fertilizer_nonneg x :
  fle zero x -> fle zero (compute_fertilizer_emissions x).
Proof.
  unfold fle. rewrite zero_is_pos_zero. intros H.
  unfold compute_fertilizer_emissions.
  repeat apply mul_nonneg; try factor_pos. exact H.
Qed.

Lemma electricity_nonneg x :
  fle zero x -> fle zero (compute_electricity_emissions x).
Proof.
  unfold fle. rewrite zero_is_pos_zero. intros H.
  unfold compute_electricity_emissions.
  apply mul_nonneg; [exact H | factor_pos].
Qed.

Lemma fuel_nonneg x fuel_type :
  fle zero x -> fle zero (compute_fuel_emissions x fuel_type).
Proof.
  unfold fle. rewrite zero_is_pos_zero. intros H.
  unfold compute_fuel_emissions.
  apply mul_nonneg; [exact H | apply fuel_factor_pos].
Qed.

Lemma steel_nonneg x :
  fle zero x -> fle zero (compute_steel_emissions x).
Proof.
  unfold fle. rewrite zero_is_pos_zero. intros H.
  unfold compute_steel_emissions.
  repeat apply mul_nonneg; try factor_pos. exact H.
Qed.

Lemma rice_value_nonneg a y :
  fle zero a -> fle zero y ->
  fle zero (ndiv (a *! of_Z 7870 +! y *! of_Z 1000 *! lit 9 1) (of_Z 2)).
Proof.
  unfold fle. rewrite zero_is_pos_zero. intros Ha Hy.
  apply div_nonneg; [ | factor_pos].
  apply add_nonneg; repeat apply mul_nonneg; try factor_pos; assumption.
Qed.

Lemma livestock_nonneg h v :
  0 <= h -> compute_livestock_emissions h = Ok v -> fle zero v.
Proof.
  intros Hh Hv.
  destruct (compute_livestock_emissions_cases h) as [[H _] | [H _]];
    rewrite H in Hv; inversion Hv.
  unfold fle. rewrite zero_is_pos_zero.
  apply mul_nonneg; [now apply Z2F_sign_nonneg | factor_pos].
Qed.

Lemma py_sum_nonneg (xs : list f64) :
  Forall (fle zero) xs -> fle zero (py_sum xs).
Proof.
  unfold py_sum. rewrite of_Z_0.
  assert (fle zero pos_zero) as H0 by reflexivity.
  revert H0. generalize pos_zero.
  induction xs as [ | x xs IH]; intros acc Hacc Hxs; cbn [fold_left].
  - exact Hacc.
  - inversion Hxs; subst. apply IH; [ | assumption].
    unfold fle in *. rewrite zero_is_pos_zero in *. now apply add_nonneg.
Qed.

Lemma totals_nonneg (r : report f64) :
  totals_derived r -> Forall (fle zero) (em_values_kg r) ->
  fle zero (total_em_kg r) /\ fle zero (total_em_t r).
Proof.
  intros (Hkg & _ & Ht) Hall.
  assert (fle zero (total_em_kg r)) as H by (rewrite Hkg; now apply py_sum_nonneg).
  split; [exact H | ].
  rewrite Ht. unfold fle in *. rewrite zero_is_pos_zero in *.
  apply div_nonneg; [exact H | factor_pos].
Qed.

End Signs.

Section NegativeInputs.

Import B64 B64Facts.

Local Open Scope num_scope.

Lemma negative_sign x : flt x zero -> sign_is true x = true.
Proof.
  unfold flt. destruct x as [ [ | ] | [ | ] | | [ | ] m e]; cbn; congruence.
Qed.

Lemma mul_keeps_negative x c :
  sign_is true x = true -> is_pos_finite c = true ->
  sign_is true (mul x c) = true.
Proof.
  intros Hx Hc. apply (mul_sign x c true false); auto.
  destruct c as [ | | | [ | ] mc ec]; cbn in *; congruence.
Qed.

Lemma sign_true_fle_zero v : sign_is true v = true -> fle v zero.
Proof. intros H. apply sign_true_nonpos. exact H. Qed.

End NegativeInputs.

(* ------------------------------------------------------------------ *)
(** * Non-negative results and totality *)

Section Invariants.

Import B64 B64Facts.

Local Open Scope num_scope.

(** C8, as stated, fails for the livestock calculator: the non-negative
    headcount [2^1024] is an [int] that Python cannot convert to a float,
    so the product raises [OverflowError] and no result is returned. *)
Lemma livestock_overflow_counterexample :
  0 <= 2 ^ 1024 /\
  compute_livestock_emissions (num := f64) (2 ^ 1024) = Raise OverflowError.
Proof.
  split; [apply Z.pow_nonneg; lia | vm_compute; reflexivity].
Qed.

(** C8, amended.  For every non-negative float input the fertilizer,
    electricity, fuel, rice and steel calculators return a non-negative
    result; the livestock calculator returns a non-negative result for
    every non-negative integer headcount that converts to a float, which
    every headcount below [2^1023] does, and raises [OverflowError] for
    the others; consequently the per-source values, the total kilograms
    and the total tonnes of every report built from non-negative inputs
    are non-negative. *)
Theorem calculators_nonneg :
  (forall x : f64, fle zero x ->
     fle zero (compute_fertilizer_emissions x) /\
     fle zero (compute_electricity_emissions x) /\
     (forall fuel_type, fle zero (compute_fuel_emissions x fuel_type)) /\
     fle zero (compute_steel_emissions x)) /\
  (forall area yield_t : f64, fle zero area -> fle zero yield_t ->
     exists v, compute_rice_emissions area yield_t = Ok v /\ fle zero v) /\
  (forall headcount : Z, 0 <= headcount ->
     (forall v, compute_livestock_emissions headcount = Ok v -> fle zero v) /\
     (headcount < 2 ^ 1023 ->
        exists v, compute_livestock_emissions headcount = Ok v /\ fle zero v) /\
     ((exists v : f64, compute_livestock_emissions headcount = Ok v) \/
      compute_livestock_emissions (num := f64) headcount = Raise OverflowError)) /\
  (forall baseline_tco2e i, alloy_nonneg i ->
     exists r, main_alloy baseline_tco2e i = Ok r /\
       Forall (fle zero) (em_values_kg r) /\
       fle zero (total_em_kg r) /\ fle zero (total_em_t r)) /\
  (forall baseline_tco2e i r, agri_nonneg i ->
     main_agriculture baseline_tco2e i = Ok r ->
     Forall (fle zero) (em_values_kg r) /\
     fle zero (total_em_kg r) /\ fle zero (total_em_t r)) /\
  (forall baseline_tco2e i, agri_nonneg i -> livestock_count i < 2 ^ 1023 ->
     exists r : report f64, main_agriculture baseline_tco2e i = Ok r).
Proof.
  assert (forall headcount, 0 <= headcount -> headcount < 2 ^ 1023 ->
            exists v : f64, compute_livestock_emissions headcount = Ok v) as Hlive.
  { intros h H0 H1.
    destruct (compute_livestock_emissions_cases h) as [[H _] | [_ H]]; [eauto | ].
    rewrite float_of_int_ok in H; [discriminate | ].
    split; [ | exact H1].
    apply Z.lt_le_trans with (m := 0); [ | exact H0].
    apply Z.opp_neg_pos. apply Z.pow_pos_nonneg; lia. }
  split.
  { intros x Hx. split; [now apply fertilizer_nonneg | ].
    split; [now apply electricity_nonneg | ].
    split; [intros ft; now apply fuel_nonneg | now apply steel_nonneg]. }
  split.
  { intros a y Ha Hy. rewrite compute_rice_emissions_ok. eexists.
    split; [reflexivity | now apply rice_value_nonneg]. }
  split.
  { intros h Hh. split; [intros v; now apply livestock_nonneg | ].
    split.
    - intros Hlt. destruct (Hlive h Hh Hlt) as [v Hv]. exists v.
      split; [exact Hv | now apply (livestock_nonneg h)].
    - destruct (compute_livestock_emissions_cases h) as [[H _] | [H _]]; eauto. }
  split.
  { intros b i (Hs & He & Hd & Hp).
    destruct (main_alloy_ok b i) as (r & Hr & _ & Hv & Ht & _).
    exists r. split; [exact Hr | ].
    assert (Forall (fle zero) (em_values_kg r)) as Hall.
    { rewrite Hv. repeat constructor;
        auto using steel_nonneg, electricity_nonneg, fuel_nonneg. }
    split; [exact Hall | now apply totals_nonneg]. }
  split.
  { intros b i r (Ha & Hy & Hl & Hf & Hd & Hp & He) Hr.
    destruct (main_agriculture_cases b i)
      as [(r' & v & Hr' & Hlv & _ & Hv & Ht & _) | (Hr' & _)]; [ | congruence].
    assert (r' = r) by congruence. subst r'.
    assert (Forall (fle zero) (em_values_kg r)) as Hall.
    { rewrite Hv. repeat constructor;
        auto using fertilizer_nonneg, electricity_nonneg, fuel_nonneg.
      - destruct (String.eqb (crop_type i) "Rice");
          [now apply rice_value_nonneg | reflexivity].
      - now apply (livestock_nonneg (livestock_count i)). }
    split; [exact Hall | now apply totals_nonneg]. }
  intros b i (_ & _ & Hl & _) Hlt.
  destruct (main_agriculture_cases b i)
    as [(r & v & Hr & _) | (_ & Hlv & _)]; [eauto | ].
  destruct (Hlive _ Hl Hlt) as [v Hv]. congruence.
Qed.

Lemma calculators_nonneg_witness :
  agri_nonneg scenario_agri /\
  exists r,
    main_agriculture zero scenario_agri = Ok r /\
    Forall (fle zero) (em_values_kg r) /\
    fle zero (total_em_kg r) /\ fle zero (total_em_t r).
Proof.
  assert (agri_nonneg scenario_agri) as Hn.
  { unfold agri_nonneg. repeat split; try (vm_compute; reflexivity).
    vm_compute. discriminate. }
  split; [exact Hn | ].
  eexists. split; [vm_compute; reflexivity | ].
  refine (proj1 (proj2 (proj2 (proj2 (proj2 calculators_nonneg))))
            zero scenario_agri _ Hn _).
  vm_compute; reflexivity.
Defined.

(** C10, as stated, fails for the livestock calculator, whose input is
    an [int]: at the finite negative headcount [-(10^400)] it raises
    [OverflowError] instead of returning a scaled negative value. *)
Lemma livestock_not_total_counterexample :
  compute_livestock_emissions (num := f64) (- 10 ^ 400) = Raise OverflowError.
Proof. vm_compute; reflexivity. Qed.

(** C10, amended.  Every calculator that takes floats is total over all
    binary64 values, negative ones included: it returns the value of the
    same closed-form expression and has no error branch (the divisions of
    [compute_rice_emissions] and [kg_to_tonnes] never raise).
    [compute_livestock_emissions] returns [float(headcount) * 912.5] for
    every integer headcount that converts to a float, which every
    headcount strictly between [-2^1023] and [2^1023] does, and raises
    [OverflowError] for the others.  A negative input to the fertilizer,
    electricity, fuel, steel or livestock calculator gives a result that
    carries the negative sign and is at most zero. *)
Theorem calculators_total :
  (forall (x : f64) (fuel_type : string),
     compute_fertilizer_emissions x
     = x *! lit 1 2 *! ndiv (of_Z 44) (of_Z 28) *! of_Z 265 /\
     compute_electricity_emissions x = x *! lit 716 3 /\
     (compute_fuel_emissions x fuel_type = x *! lit 268 2 \/
      compute_fuel_emissions x fuel_type = x *! lit 227 2) /\
     compute_steel_emissions x = x *! lit 255 2 *! of_Z 1000) /\
  (forall area yield_t : f64,
     compute_rice_emissions area yield_t
     = Ok (ndiv (area *! of_Z 7870 +! yield_t *! of_Z 1000 *! lit 9 1) (of_Z 2))) /\
  (forall kg : f64, kg_to_tonnes kg = Ok (ndiv kg (lit 10000 1))) /\
  (forall headcount : Z,
     compute_livestock_emissions headcount = Ok (Z2F headcount *! lit 9125 1) \/
     compute_livestock_emissions (num := f64) headcount = Raise OverflowError) /\
  (forall headcount : Z, - 2 ^ 1023 < headcount < 2 ^ 1023 ->
     compute_livestock_emissions headcount = Ok (Z2F headcount *! lit 9125 1)) /\
  (forall (x : f64) (fuel_type : string), flt x zero ->
     (sign_is true (compute_fertilizer_emissions x) = true /\
      fle (compute_fertilizer_emissions x) zero) /\
     (sign_is true (compute_electricity_emissions x) = true /\
      fle (compute_electricity_emissions x) zero) /\
     (sign_is true (compute_fuel_emissions x fuel_type) = true /\
      fle (compute_fuel_emissions x fuel_type) zero) /\
     (sign_is true (compute_steel_emissions x) = true /\
      fle (compute_steel_emissions x) zero)) /\
  (forall (headcount : Z) (v : f64), headcount < 0 ->
     compute_livestock_emissions headcount = Ok v ->
     sign_is true v = true /\ fle v zero).
Proof.
  split.
  { intros x ft. split; [reflexivity | ]. split; [reflexivity | ].
    split; [ | reflexivity].
    unfold compute_fuel_emissions. destruct (String.eqb _ _); auto. }
  split; [intros; apply compute_rice_emissions_ok | ].
  split; [intros; apply kg_to_tonnes_ok | ].
  split.
  { intros h. destruct (compute_livestock_emissions_cases h) as [[H _] | [H _]]; auto. }
  split.
  { intros h Hh. destruct (compute_livestock_emissions_cases h) as [[H _] | [_ H]]; auto.
    rewrite float_of_int_ok in H by exact Hh. discriminate. }
  split.
  { intros x ft Hx. apply negative_sign in Hx.
    assert (forall v, sign_is true v = true -> sign_is true v = true /\ fle v zero) as Hs
      by (intros v Hv; split; [exact Hv | now apply sign_true_fle_zero]).
    split; [ | split; [ | split] ]; apply Hs.
    - unfold compute_fertilizer_emissions.
      repeat apply mul_keeps_negative; try factor_pos. exact Hx.
    - unfold compute_electricity_emissions.
      apply mul_keeps_negative; [exact Hx | factor_pos].
    - unfold compute_fuel_emissions.
      apply mul_keeps_negative; [exact Hx | apply fuel_factor_pos].
    - unfold compute_steel_emissions.
      repeat apply mul_keeps_negative; try factor_pos. exact Hx. }
  intros h v Hh Hv.
  destruct (compute_livestock_emissions_cases h) as [[H _] | [H _]];
    rewrite H in Hv; inversion Hv.
  assert (sign_is true (Z2F h *! lit 9125 1) = true) as Hs.
  { apply mul_keeps_negative; [now apply Z2F_sign_neg | factor_pos]. }
  split; [exact Hs | now apply sign_true_fle_zero].
Qed.

Lemma calculators_total_witness :
  flt (lit (-25) 1) zero /\
  compute_electricity_emissions (num := f64) (lit (-25) 1) = lit (-179) 2 /\
  fle (compute_electricity_emissions (num := f64) (lit (-25) 1)) zero /\
  compute_livestock_emissions (num := f64) (-4) = Ok (lit (-3650) 0).
Proof.
  assert (flt (lit (-25) 1) zero) as Hneg by (vm_compute; reflexivity).
  pose proof calculators_total as (_ & _ & _ & _ & Hlive & Hsign & _).
  destruct (Hsign (lit (-25) 1) "Diesel"%string Hneg) as (_ & (_ & He) & _).
  split; [exact Hneg | ]. split; [vm_compute; reflexivity | ].
  split; [exact He | ].
  rewrite Hlive; [vm_compute; reflexivity | ].
  split; [vm_compute; reflexivity | vm_compute; reflexivity].
Defined.

End Invariants.

(* ------------------------------------------------------------------ *)
(** * The dominant source *)

Section Dominant.

Import B64 B64Facts.

Local Open Scope num_scope.

Lemma fillna_not_nan (x : f64) : is_nan (fillna x) = false.
Proof. destruct x; reflexivity. Qed.

(** The scan keeps the first greatest value of what it has seen. *)
Lemma argmax_from_spec (xs : list f64) :
  forall (pre : list f64) (bi : nat) (b : f64),
    Forall (fun w => is_nan w = false) (pre ++ xs) ->
    nth_error pre bi = Some b ->
    (forall j w, nth_error pre j = Some w -> leb w b = true) ->
    (forall j w, (j < bi)%nat -> nth_error pre j = Some w -> ltb w b = true) ->
    exists v,
      nth_error (pre ++ xs) (argmax_from bi b (List.length pre) xs) = Some v /\
      (forall j w, nth_error (pre ++ xs) j = Some w -> leb w v = true) /\
      (forall j w, (j < argmax_from bi b (List.length pre) xs)%nat ->
                   nth_error (pre ++ xs) j = Some w -> ltb w v = true).
Proof.
  induction xs as [ | x xs IH]; intros pre bi b Hnan Hb Hle Hlt.
  - cbn [argmax_from]. rewrite app_nil_r. exists b. auto.
  - assert (bi < List.length pre)%nat as Hbi
      by (apply nth_error_Some; congruence).
    assert (is_nan x = false) as Hx.
    { rewrite Forall_forall in Hnan. apply Hnan. apply in_or_app. right. now left. }
    assert (is_nan b = false) as Hbn.
    { rewrite Forall_forall in Hnan. apply Hnan. apply in_or_app. left.
      eapply nth_error_In; eauto. }
    cbn [argmax_from]. cbn [gtb b64_arith].
    replace (S (List.length pre)) with (List.length (pre ++ [x]))
      by (rewrite length_app; cbn; lia).
    replace (pre ++ x :: xs) with ((pre ++ [x]) ++ xs) in *
      by (rewrite <- app_assoc; reflexivity).
    destruct (ltb b x) eqn:Hcmp.
    + apply IH.
      * exact Hnan.
      * rewrite nth_error_app2 by lia. rewrite Nat.sub_diag. reflexivity.
      * intros j w Hj.
        destruct (Nat.lt_ge_cases j (List.length pre)) as [Hl | Hg].
        -- rewrite nth_error_app1 in Hj by exact Hl.
           apply ltb_leb. apply leb_ltb_trans with (b := b); eauto.
        -- rewrite nth_error_app2 in Hj by exact Hg.
           destruct (j - List.length pre)%nat as [ | n] eqn:Hn; cbn in Hj.
           ++ inversion Hj; subst. now apply leb_refl.
           ++ destruct n; discriminate.
      * intros j w Hl Hj. rewrite nth_error_app1 in Hj by exact Hl.
        apply leb_ltb_trans with (b := b); eauto.
    + apply IH.
      * exact Hnan.
      * rewrite nth_error_app1 by exact Hbi. exact Hb.
      * intros j w Hj.
        destruct (Nat.lt_ge_cases j (List.length pre)) as [Hl | Hg].
        -- rewrite nth_error_app1 in Hj by exact Hl. eauto.
        -- rewrite nth_error_app2 in Hj by exact Hg.
           destruct (j - List.length pre)%nat as [ | n] eqn:Hn; cbn in Hj.
           ++ inversion Hj; subst. now apply ltb_false_leb.
           ++ destruct n; discriminate.
      * intros j w Hl Hj. rewrite nth_error_app1 in Hj by lia. eauto.
Qed.

Lemma idxmax_cases (col : list f64) :
  (forallb isna col = true /\ idxmax col = Raise ValueError) \/
  (forallb isna col = false /\ exists k, idxmax col = Ok k /\ first_max col k).
Proof.
  unfold idxmax. destruct (forallb isna col) eqn:Hall; [left; auto | right].
  split; [reflexivity | ].
  destruct col as [ | x xs]; [discriminate | ].
  cbn [map]. eexists. split; [reflexivity | ].
  destruct (argmax_from_spec (map fillna xs) [fillna x] 0 (fillna x))
    as (v & Hv & Hle & Hlt).
  - change ([fillna x] ++ map fillna xs) with (map fillna (x :: xs)).
    apply Forall_forall. intros w Hw. apply in_map_iff in Hw as (w' & <- & _).
    apply fillna_not_nan.
  - reflexivity.
  - intros [ | [ | j]] w Hj; cbn in Hj; try discriminate.
    inversion Hj; subst. apply leb_refl. apply fillna_not_nan.
  - intros j w Hj. lia.
  - change ([fillna x] ++ map fillna xs) with (map fillna (x :: xs)) in *.
    change (List.length [fillna x]) with 1%nat in *.
    set (k := argmax_from 0 (fillna x) 1 (map fillna xs)) in *.
    rewrite nth_error_map in Hv.
    destruct (nth_error (x :: xs) k) as [vk | ] eqn:Hk; [ | discriminate].
    cbn in Hv. inversion Hv; subst v.
    exists vk. split; [exact Hk | ]. split.
    + intros j w Hj. apply (Hle j). rewrite nth_error_map, Hj. reflexivity.
    + intros j w Hjk Hj. apply (Hlt j); [exact Hjk | ].
      rewrite nth_error_map, Hj. reflexivity.
Qed.

Lemma dominant_source_column (df : list (row f64)) :
  map Emissions
      (map (fun r => {| Source := Source r; Emissions := round2 (Emissions r) |}) df)
  = displayed_emissions df.
Proof. unfold displayed_emissions. rewrite map_map. reflexivity. Qed.

(** C7, as stated, fails: with 0.1 t of steel and 356.15 kWh the
    electricity source emits 255.0034 kg, strictly more than the 255 kg
    of steel production, yet both show as 255.0 once rounded and the
    report names steel production, the first of the two, as dominant. *)
Lemma dominant_source_counterexample :
  exists r,
    main_alloy zero scenario_near_tie = Ok r /\
    sources r = [ "Steel production"; "Electricity (grid)"; "Diesel"; "Petrol" ]%string /\
    em_values_kg r
    = [ lit 2550 1; S754_finite false 8972134509517261 (-45); zero; zero ] /\
    flt (lit 2550 1) (S754_finite false 8972134509517261 (-45)) /\
    Format.nice_number (S754_finite false 8972134509517261 (-45)) 4 = "255.0034"%string /\
    dominant_source (df_breakdown r) = Ok ("Steel production"%string, lit 2550 1).
Proof.
  eexists. split; [vm_compute; reflexivity | ].
  repeat split; vm_compute; reflexivity.
Qed.

(** C7, amended.  The dominant source that the interpretation section
    reports is the source whose emission value, rounded to two decimals
    as the table of the report displays it, is the greatest of the
    displayed values; it is found by a scan that keeps the first
    greatest value, so when two or more sources have equal greatest
    displayed values the one occurring first is selected (a missing
    value counts as minus infinity).  A source is reported exactly when
    some displayed value is not missing; otherwise the lookup fails and
    the section falls back to its generic text.  In a report built by
    [main] the table holds the per-source values rounded to two
    decimals, in the order of the sources. *)
Theorem dominant_source_first_rounded_max (df : list (row f64)) :
  (forall name v, dominant_source df = Ok (name, v) ->
     exists k r,
       nth_error df k = Some r /\ name = Source r /\
       v = round2 (Emissions r) /\
       first_max (displayed_emissions df) k) /\
  (forallb isna (displayed_emissions df) = false ->
     exists name v, dominant_source df = Ok (name, v)) /\
  (forallb isna (displayed_emissions df) = true ->
     dominant_source df = Raise ValueError) /\
  (forall baseline_tco2e r, submitted baseline_tco2e r ->
     map Source (df_breakdown r) = sources r /\
     map Emissions (df_breakdown r) = map round2 (em_values_kg r)).
Proof.
  assert (forall k, first_max (displayed_emissions df) k ->
            exists r, nth_error df k = Some r /\
              dominant_source df = Ok (Source r, round2 (Emissions r)) \/
              idxmax (displayed_emissions df) <> Ok k) as Hpick.
  { intros k (v & Hv & _). unfold displayed_emissions in Hv.
    rewrite nth_error_map in Hv.
    destruct (nth_error df k) as [r | ] eqn:Hk; [ | discriminate].
    exists r.
    destruct (idxmax (displayed_emissions df)) as [k' | e] eqn:Hi;
      [ | right; discriminate].
    destruct (Nat.eq_dec k' k) as [-> | Hne]; [left | right; congruence].
    split; [reflexivity | ].
    unfold dominant_source. rewrite dominant_source_column, Hi. cbn [bind].
    rewrite nth_error_map, Hk. reflexivity. }
  destruct (idxmax_cases (displayed_emissions df))
    as [[Hall Hi] | [Hall (k & Hi & Hmax)]].
  - assert (dominant_source df = Raise ValueError) as Hd.
    { unfold dominant_source. rewrite dominant_source_column, Hi. reflexivity. }
    split; [intros name v H; congruence | ].
    split; [intros H; congruence | ].
    split; [intros _; exact Hd | ].
    intros b r Hr. rewrite (submitted_breakdown b r Hr). unfold make_breakdown.
    destruct Hr as [[i H] | [i H]].
    + destruct (main_agriculture_cases b i)
        as [(r' & v & Hr & _ & Hs & Hv & _) | (Hr & _)]; [ | congruence].
      assert (r' = r) by congruence. subst r'. rewrite Hs, Hv. split; reflexivity.
    + destruct (main_alloy_ok b i) as (r' & Hr & Hs & Hv & _).
      assert (r' = r) by congruence. subst r'. rewrite Hs, Hv. split; reflexivity.
  - destruct (Hpick k Hmax) as (r & [[Hk Hd] | Hne]); [ | congruence].
    split.
    { intros name v H. rewrite Hd in H. inversion H; subst.
      exists k, r. auto. }
    split; [intros _; eauto | ].
    split; [intros H; congruence | ].
    intros b r0 Hr. rewrite (submitted_breakdown b r0 Hr). unfold make_breakdown.
    destruct Hr as [[i H] | [i H]].
    + destruct (main_agriculture_cases b i)
        as [(r' & v & Hr & _ & Hs & Hv & _) | (Hr & _)]; [ | congruence].
      assert (r' = r0) by congruence. subst r'. rewrite Hs, Hv. split; reflexivity.
    + destruct (main_alloy_ok b i) as (r' & Hr & Hs & Hv & _).
      assert (r' = r0) by congruence. subst r'. rewrite Hs, Hv. split; reflexivity.
Qed.

Lemma dominant_source_first_rounded_max_witness :
  exists r,
    main_alloy (lit 300 1) scenario_alloy = Ok r /\
    dominant_source (df_breakdown r) = Ok ("Steel production"%string, lit 255000 1) /\
    exists k row,
      nth_error (df_breakdown r) k = Some row /\
      "Steel production"%string = Source row /\
      lit 255000 1 = round2 (Emissions row) /\
      first_max (displayed_emissions (df_breakdown r)) k.
Proof.
  eexists. split; [vm_compute; reflexivity | ].
  split; [vm_compute; reflexivity | ].
  refine (proj1 (dominant_source_first_rounded_max _) _ _ _).
  vm_compute; reflexivity.
Defined.

End Dominant.

(* ------------------------------------------------------------------ *)
(** * The interpretation paragraph of section B *)

Section Interpretation.

Import B64 B64Facts.

Local Open Scope num_scope.

Lemma positive_not_zero (t : f64) :
  ltb pos_zero t = true -> eqb t pos_zero = false.
Proof. destruct t as [ [ | ] | [ | ] | | [ | ] m e]; cbn; congruence. Qed.

Lemma share_pct_cases (dominant_value total_em_kg : f64) :
  share_pct dominant_value total_em_kg
  = Ok (if ltb pos_zero total_em_kg
        then ndiv dominant_value total_em_kg *! of_Z 100
        else zero).
Proof.
  unfold share_pct, py_truediv. cbn [gtb is_zero b64_arith]. rewrite of_Z_0.
  destruct (ltb pos_zero total_em_kg) eqn:H; [ | reflexivity].
  rewrite (positive_not_zero _ H). reflexivity.
Qed.

Lemma div_nonneg_positive d t :
  nonneg d = true -> d <> S754_infinity false -> ltb pos_zero t = true ->
  nonneg (div d t) = true.
Proof.
  intros Hd Hinf Ht.
  destruct t as [ [ | ] | [ | ] | | [ | ] mt et]; try discriminate.
  - destruct (nonneg_cases d Hd) as [[s ->] | [-> | (m & e & ->)]];
      [destruct s; reflexivity | congruence | reflexivity].
  - apply div_nonneg; [exact Hd | reflexivity].
Qed.

(** X1. The share of the dominant source in section B.3 never raises:
    for every pair of floats, NaN and infinities included, [share_pct]
    returns a value.  When the total is greater than zero the division
    is carried out (its divisor is not zero, so there is no
    [ZeroDivisionError]) and the share is
    [dominant_value / total_em_kg * 100]; in every other case (a total
    that is zero, negative or NaN) the share is [0.0].  A non-negative
    finite dominant value gives a non-negative share. *)
Theorem share_pct_never_raises (dominant_value total_em_kg : f64) :
  exists share,
    share_pct dominant_value total_em_kg = Ok share /\
    (flt zero total_em_kg ->
       py_truediv dominant_value total_em_kg
       = Ok (ndiv dominant_value total_em_kg) /\
       share = ndiv dominant_value total_em_kg *! of_Z 100) /\
    (~ flt zero total_em_kg -> share = zero) /\
    (fle zero dominant_value -> dominant_value <> S754_infinity false ->
       fle zero share).
Proof.
  rewrite share_pct_cases. eexists. split; [reflexivity | ].
  unfold flt, fle. rewrite zero_is_pos_zero.
  destruct (ltb pos_zero total_em_kg) eqn:Ht.
  - split.
    { intros _. split; [ | reflexivity].
      unfold py_truediv. cbn [is_zero b64_arith].
      rewrite (positive_not_zero _ Ht). reflexivity. }
    split; [intros H; now elim H | ].
    intros Hd Hinf. apply mul_nonneg; [ | factor_pos].
    now apply div_nonneg_positive.
  - split; [discriminate | ]. split; [reflexivity | reflexivity].
Qed.

Lemma share_pct_never_raises_witness :
  flt zero (lit 262160 1) /\
  share_pct (num := f64) (lit 255000 1) (lit 262160 1)
  = Ok (ndiv (lit 255000 1) (lit 262160 1) *! of_Z 100).
Proof.
  assert (flt zero (lit 262160 1)) as Ht by (vm_compute; reflexivity).
  split; [exact Ht | ].
  destruct (share_pct_never_raises (lit 255000 1) (lit 262160 1))
    as (share & Hs & Hpos & _).
  destruct (Hpos Ht) as [_ ->]. exact Hs.
Defined.

(** numpy's rounding keeps a non-negative value non-negative. *)
Lemma round_to_integral_nonneg x :
  nonneg x = true -> nonneg (round_to_integral x) = true.
Proof.
  intros Hx.
  destruct (nonneg_cases x Hx) as [[s ->] | [-> | (m & e & ->)]];
    try reflexivity.
  unfold round_to_integral. destruct (0 <=? e); [reflexivity | ].
  pose proof (shr_nonneg (shr_record_of_loc (Zpos m) loc_Exact) e (- e)) as Hs.
  rewrite shr_record_of_loc_m in Hs. specialize (Hs ltac:(lia)).
  destruct (shr (shr_record_of_loc (Zpos m) loc_Exact) e (- e)) as [mrs e'].
  cbn [fst] in Hs. cbn [cond_Zopp].
  pose proof (round_nearest_even_nonneg _ (loc_of_shr_record mrs) Hs) as Hz.
  destruct (round_nearest_even (shr_m mrs) (loc_of_shr_record mrs)) as [ | p | p ];
    cbn [binary_normalize]; [reflexivity | | lia].
  apply sign_false_nonneg. apply binary_round_sign.
Qed.

Lemma round2_nonneg (x : f64) : fle zero x -> fle zero (round2 x).
Proof.
  unfold fle. rewrite zero_is_pos_zero. intros Hx. unfold round2.
  apply div_nonneg; [ | factor_pos].
  apply round_to_integral_nonneg.
  apply mul_nonneg; [exact Hx | factor_pos].
Qed.

Lemma nonneg_not_nan (x : f64) : fle zero x -> isna x = false.
Proof.
  unfold fle. rewrite zero_is_pos_zero. destruct x; cbn; congruence.
Qed.

(** When some displayed value is not missing, the row at [idxmax] is
    reported. *)
Lemma dominant_source_ok (df : list (row f64)) :
  forallb isna (displayed_emissions df) = false ->
  exists k r,
    nth_error df k = Some r /\
    first_max (displayed_emissions df) k /\
    dominant_source df = Ok (Source r, round2 (Emissions r)).
Proof.
  intros Hall.
  destruct (idxmax_cases (displayed_emissions df))
    as [[Hall' _] | [_ (k & Hi & Hmax)]]; [congruence | ].
  destruct Hmax as (v & Hv & Hrest).
  pose proof Hv as Hv'. unfold displayed_emissions in Hv'.
  rewrite nth_error_map in Hv'.
  destruct (nth_error df k) as [r | ] eqn:Hk; [ | discriminate].
  exists k, r. split; [exact Hk | ].
  split; [exists v; auto | ].
  unfold dominant_source. rewrite dominant_source_column, Hi. cbn [bind].
  rewrite nth_error_map, Hk. reflexivity.
Qed.

Lemma make_breakdown_rows (names : list string) (values : list f64) (r : row f64) :
  In r (make_breakdown names values) ->
  In (Source r) names /\ exists x, In x values /\ Emissions r = round2 x.
Proof.
  unfold make_breakdown. intros H. apply in_map_iff in H as ([n x] & <- & Hin).
  cbn [Source Emissions fst snd]. split.
  - eapply in_combine_l; eauto.
  - exists x. split; [eapply in_combine_r; eauto | reflexivity].
Qed.

Lemma submitted_nonneg_values baseline_tco2e r :
  submitted_nonneg baseline_tco2e r ->
  submitted baseline_tco2e r /\
  Forall (fle zero) (em_values_kg r) /\
  exists n ns x xs, sources r = n :: ns /\ em_values_kg r = x :: xs.
Proof.
  intros [(i & (Ha & Hy & Hl & Hf & Hd & Hp & He) & Hr) | (i & (Hs & He & Hd & Hp) & Hr)].
  - split; [left; eauto | ].
    destruct (main_agriculture_cases baseline_tco2e i)
      as [(r' & v & Hr' & Hlv & Hsrc & Hv & _) | (Hr' & _)]; [ | congruence].
    assert (r' = r) by congruence. subst r'. rewrite Hsrc, Hv.
    split; [ | eauto 6].
    repeat constructor;
      auto using fertilizer_nonneg, electricity_nonneg, fuel_nonneg.
    + destruct (String.eqb (crop_type i) "Rice");
        [now apply rice_value_nonneg | reflexivity].
    + now apply (livestock_nonneg (livestock_count i)).
  - split; [right; eauto | ].
    destruct (main_alloy_ok baseline_tco2e i) as (r' & Hr' & Hsrc & Hv & _).
    assert (r' = r) by congruence. subst r'. rewrite Hsrc, Hv.
    split; [ | eauto 6].
    repeat constructor;
      auto using steel_nonneg, electricity_nonneg, fuel_nonneg.
Qed.

(** X2. Every report that a submission with non-negative quantities
    produces gets the specific interpretation text, never the generic
    one: the [try] block of section B.3 runs to its end, the source it
    names is one of the sources of the report, the value it prints is
    non-negative, and the share it prints is the value that [share_pct]
    returns for it. *)
Theorem dominant_source_always_named (baseline_tco2e : f64) (r : report f64) :
  submitted_nonneg baseline_tco2e r ->
  exists name dominant_value share,
    dominant_source (df_breakdown r) = Ok (name, dominant_value) /\
    report_interpretation r = Dominant name dominant_value share /\
    In name (sources r) /\
    fle zero dominant_value /\
    share_pct dominant_value (total_em_kg r) = Ok share.
Proof.
  intros H. destruct (submitted_nonneg_values _ _ H)
    as (Hsub & Hall & n & ns & x & xs & Hsrc & Hv).
  pose proof (submitted_breakdown _ _ Hsub) as Hdf.
  assert (forallb isna (displayed_emissions (df_breakdown r)) = false) as Hna.
  { rewrite Hdf, Hsrc, Hv. cbn [make_breakdown combine map displayed_emissions
                                  Emissions snd forallb].
    rewrite Hv in Hall. inversion Hall; subst.
    rewrite (nonneg_not_nan (round2 (round2 x))); [reflexivity | ].
    now repeat apply round2_nonneg. }
  destruct (dominant_source_ok _ Hna) as (k & r0 & Hk & _ & Hd).
  apply nth_error_In in Hk. rewrite Hdf in Hk.
  destruct (make_breakdown_rows _ _ _ Hk) as (Hname & y & Hy & Hem).
  assert (fle zero (round2 (Emissions r0))) as Hpos.
  { rewrite Hem. repeat apply round2_nonneg.
    rewrite Forall_forall in Hall. now apply Hall. }
  pose proof (share_pct_cases (round2 (Emissions r0)) (total_em_kg r)) as Hshare.
  eexists (Source r0), (round2 (Emissions r0)), _.
  split; [exact Hd | ]. split; [ | split; [exact Hname | split; [exact Hpos | exact Hshare] ] ].
  unfold report_interpretation, section_B_interpretation.
  rewrite Hd. cbn [bind fst snd]. rewrite Hshare. reflexivity.
Qed.

Lemma dominant_source_always_named_witness :
  exists r name dominant_value share,
    main_agriculture zero scenario_agri = Ok r /\
    dominant_source (df_breakdown r) = Ok (name, dominant_value) /\
    report_interpretation r = Dominant name dominant_value share /\
    In name (sources r) /\ fle zero dominant_value /\
    share_pct dominant_value (total_em_kg r) = Ok share.
Proof.
  assert (agri_nonneg scenario_agri) as Hn.
  { unfold agri_nonneg. repeat split; try (vm_compute; reflexivity).
    vm_compute. discriminate. }
  destruct (main_agriculture_cases zero scenario_agri)
    as [(r & v & Hr & _) | (Hr & _)]; [ | vm_compute in Hr; discriminate].
  destruct (dominant_source_always_named zero r) as (name & v' & share & H).
  { left. exists scenario_agri. auto. }
  exists r, name, v', share. auto.
Defined.

(** *** When the generic text is used *)

Lemma not_nan_sign (x : f64) : is_nan x = false <-> exists s, sign_is s x = true.
Proof.
  destruct x as [s | s | | s m e]; cbn; split;
    try (intros _; exists s; apply eqb_reflx); try reflexivity; try discriminate.
  intros [s H]. discriminate.
Qed.

Lemma round_to_integral_sign s x :
  sign_is s x = true -> sign_is s (round_to_integral x) = true.
Proof.
  destruct x as [s' | s' | | s' m e]; cbn [round_to_integral]; auto.
  intros Hs. destruct (0 <=? e); [exact Hs | ].
  cbn in Hs. apply eqb_prop in Hs. subst s'.
  pose proof (shr_nonneg (shr_record_of_loc (Zpos m) loc_Exact) e (- e)) as H0.
  rewrite shr_record_of_loc_m in H0. specialize (H0 ltac:(lia)).
  destruct (shr (shr_record_of_loc (Zpos m) loc_Exact) e (- e)) as [mrs e'].
  cbn [fst] in H0.
  pose proof (round_nearest_even_nonneg _ (loc_of_shr_record mrs) H0) as Hz.
  destruct (round_nearest_even (shr_m mrs) (loc_of_shr_record mrs)) as [ | p | p ];
    [ | | lia].
  - destruct s; cbn; reflexivity.
  - destruct s; cbn [cond_Zopp Z.opp binary_normalize]; apply binary_round_sign.
Qed.

Lemma div_sign s x c :
  sign_is s x = true -> is_pos_finite c = true -> sign_is s (div x c) = true.
Proof.
  intros Hx Hc.
  destruct c as [ | | | [ | ] mc ec]; try discriminate.
  destruct x as [s' | s' | | s' m e]; cbn in Hx; try discriminate;
    apply eqb_prop in Hx; subst s'.
  - cbn. rewrite xorb_false_r. apply eqb_reflx.
  - cbn. rewrite xorb_false_r. apply eqb_reflx.
  - unfold div, SFdiv, SFdiv_core_binary.
    match goal with
    | |- context [Z.div_eucl ?a ?b] =>
        pose proof (Z.div_pos a b) as Hq;
        unfold Z.div in Hq; destruct (Z.div_eucl a b) as [q r]
    end.
    rewrite xorb_false_r. apply binary_round_aux_sign. simpl in Hq. apply Hq; [ | lia].
    match goal with
    | |- 0 <= match ?s with _ => _ end => destruct s; try lia
    end.
    apply Z.shiftl_nonneg. lia.
Qed.

(** Rounding to two decimals keeps a number a number and a missing
    value missing. *)
Lemma isna_round2 (x : f64) : isna (round2 x) = isna x.
Proof.
  cbn [isna b64_arith].
  destruct (is_nan x) eqn:Hx.
  - destruct x; try discriminate. vm_compute. reflexivity.
  - apply not_nan_sign in Hx as [s Hs]. apply not_nan_sign. exists s.
    unfold round2. cbn [ndiv nmul rint b64_arith].
    apply div_sign; [ | vm_compute; reflexivity].
    apply round_to_integral_sign.
    rewrite <- (xorb_false_r s).
    apply mul_sign; [exact Hs | vm_compute; reflexivity | vm_compute; reflexivity].
Qed.

Lemma forallb_isna_displayed (df : list (row f64)) :
  forallb isna (displayed_emissions df) = true <->
  (forall r, In r df -> isna (Emissions r) = true).
Proof.
  unfold displayed_emissions. rewrite forallb_forall. split.
  - intros H r Hr. rewrite <- isna_round2. apply H.
    apply in_map_iff. exists r. auto.
  - intros H x Hx. apply in_map_iff in Hx as (r & <- & Hr).
    rewrite isna_round2. auto.
Qed.

(** X3. Section B.3 falls back to the generic interpretation text
    exactly when the breakdown table holds no number: every emission
    value is missing (NaN), which includes the table without rows.  As
    soon as one row holds a number, a dominant source is named, whatever
    the total is. *)
Theorem generic_text_only_without_numbers
    (total_em_kg : f64) (df_breakdown : list (row f64)) :
  section_B_interpretation total_em_kg df_breakdown = Generic <->
  (forall r, In r df_breakdown -> isna (Emissions r) = true).
Proof.
  rewrite <- forallb_isna_displayed.
  unfold section_B_interpretation.
  destruct (forallb isna (displayed_emissions df_breakdown)) eqn:Hall.
  - split; [reflexivity | intros _].
    unfold dominant_source. rewrite dominant_source_column.
    destruct (idxmax_cases (displayed_emissions df_breakdown))
      as [[_ ->] | [Hf _]]; [reflexivity | congruence].
  - destruct (dominant_source_ok _ Hall) as (k & r & _ & _ & ->).
    cbn [bind fst snd]. rewrite share_pct_cases. cbn [bind].
    split; discriminate.
Qed.

Lemma generic_text_only_without_numbers_witness :
  section_B_interpretation zero
    [ {| Source := "Diesel"; Emissions := S754_nan |};
      {| Source := "Petrol"; Emissions := S754_nan |} ] = Generic.
Proof.
  apply generic_text_only_without_numbers.
  intros r [<- | [<- | []]]; reflexivity.
Defined.

End Interpretation.

(* ------------------------------------------------------------------ *)
(** * Forms that leave quantities out *)

Section Forms.

Import B64 B64Facts.

Local Open Scope num_scope.

Lemma potential_credits_zero_total (baseline_tco2e : f64) :
  potential_credits baseline_tco2e zero
  = if ltb pos_zero baseline_tco2e then baseline_tco2e else zero.
Proof.
  rewrite potential_credits_cases.
  destruct baseline_tco2e as [ [ | ] | [ | ] | | [ | ] m e]; reflexivity.
Qed.

Lemma zero_emissions :
  compute_fertilizer_emissions zero = zero /\
  compute_electricity_emissions zero = zero /\
  compute_fuel_emissions zero "Diesel" = zero /\
  compute_fuel_emissions zero "Petrol" = zero /\
  compute_steel_emissions zero = zero /\
  compute_rice_emissions zero zero = Ok zero /\
  compute_livestock_emissions 0 = Ok zero /\
  round2 zero = zero.
Proof. repeat split; vm_compute; reflexivity. Qed.

(** X4. Submitting the form as it opens, with every quantity at its
    default of zero, produces a report in either sector, for every
    baseline and every crop type: all per-source values and both totals
    are [0.0], the credits are the whole baseline when the baseline is
    greater than zero and [0.0] otherwise, and the interpretation names
    the first source of the sector (["Steel production"], or
    ["Synthetic nitrogen fertilizer"]) as the largest contributor, with
    a value of [0.0] and a share of [0.0]. *)
Theorem all_zero_form (baseline_tco2e : f64) :
  (forall i, alloy_all_zero i ->
     exists r,
       main_alloy baseline_tco2e i = Ok r /\
       em_values_kg r = [zero; zero; zero; zero] /\
       total_em_kg r = zero /\ total_em_t r = zero /\
       potential_credits_t r
       = (if ltb zero baseline_tco2e then baseline_tco2e else zero) /\
       report_interpretation r = Dominant "Steel production" zero zero) /\
  (forall i, agri_all_zero i ->
     exists r,
       main_agriculture baseline_tco2e i = Ok r /\
       em_values_kg r = [zero; zero; zero; zero; zero; zero] /\
       total_em_kg r = zero /\ total_em_t r = zero /\
       potential_credits_t r
       = (if ltb zero baseline_tco2e then baseline_tco2e else zero) /\
       report_interpretation r
       = Dominant "Synthetic nitrogen fertilizer" zero zero).
Proof.
  destruct zero_emissions as (Hf & He & Hd & Hp & Hs & Hr & Hl & Hround).
  split.
  - intros [s e d p] (H1 & H2 & H3 & H4). cbn in H1, H2, H3, H4. subst.
    destruct (main_alloy_ok baseline_tco2e
                {| steel_prod_t := zero; elec_kwh_alloy := zero;
                   diesel_l_alloy := zero; petrol_l_alloy := zero |})
      as (r & Hrep & Hsrc & Hv & (Hkg & _ & Ht) & Hc & Hdf).
    cbn [steel_prod_t elec_kwh_alloy diesel_l_alloy petrol_l_alloy] in Hv.
    rewrite Hs, He, Hd, Hp in Hv.
    assert (total_em_kg r = zero) as Hkg0 by (rewrite Hkg, Hv; vm_compute; reflexivity).
    assert (total_em_t r = zero) as Ht0 by (rewrite Ht, Hkg0; vm_compute; reflexivity).
    exists r. split; [exact Hrep | ]. split; [exact Hv | ].
    split; [exact Hkg0 | ]. split; [exact Ht0 | ].
    split; [rewrite Hc, Ht0; apply potential_credits_zero_total | ].
    unfold report_interpretation. rewrite Hdf, Hsrc, Hv, Hkg0.
    vm_compute. reflexivity.
  - intros [a c y l f d p e] (H1 & H2 & H3 & H4 & H5 & H6 & H7).
    cbn in H1, H2, H3, H4, H5, H6, H7. subst.
    destruct (main_agriculture_cases baseline_tco2e
                {| area_ha := zero; crop_type := c; rice_yield_t := zero;
                   livestock_count := 0; fert_n_kg := zero; diesel_l := zero;
                   petrol_l := zero; elec_kwh := zero |})
      as [(r & v & Hrep & Hlv & Hsrc & Hv & (Hkg & _ & Ht) & Hc & Hdf) | (_ & Hlv & _)];
      [ | cbn [livestock_count] in Hlv; rewrite Hl in Hlv; discriminate].
    cbn [area_ha crop_type rice_yield_t livestock_count fert_n_kg diesel_l
         petrol_l elec_kwh] in Hv, Hlv.
    rewrite Hl in Hlv. inversion Hlv; subst v.
    rewrite Hf, He, Hd, Hp in Hv.
    assert (em_values_kg r = [zero; zero; zero; zero; zero; zero]) as Hv0.
    { rewrite Hv. destruct (String.eqb c "Rice"); vm_compute; reflexivity. }
    assert (total_em_kg r = zero) as Hkg0 by (rewrite Hkg, Hv0; vm_compute; reflexivity).
    assert (total_em_t r = zero) as Ht0 by (rewrite Ht, Hkg0; vm_compute; reflexivity).
    exists r. split; [exact Hrep | ]. split; [exact Hv0 | ].
    split; [exact Hkg0 | ]. split; [exact Ht0 | ].
    split; [rewrite Hc, Ht0; apply potential_credits_zero_total | ].
    unfold report_interpretation. rewrite Hdf, Hsrc, Hv0, Hkg0.
    vm_compute. reflexivity.
Qed.

Lemma all_zero_form_witness :
  exists r,
    main_alloy (lit 300 1)
      {| steel_prod_t := zero; elec_kwh_alloy := zero;
         diesel_l_alloy := zero; petrol_l_alloy := zero |} = Ok r /\
    potential_credits_t r = lit 300 1 /\
    report_interpretation r = Dominant "Steel production" zero zero.
Proof.
  destruct (proj1 (all_zero_form (lit 300 1))
              {| steel_prod_t := zero; elec_kwh_alloy := zero;
                 diesel_l_alloy := zero; petrol_l_alloy := zero |})
    as (r & Hr & _ & _ & _ & Hc & Hi).
  { repeat split. }
  exists r. split; [exact Hr | ]. split; [ | exact Hi].
  rewrite Hc. reflexivity.
Defined.



End Forms.

(* ------------------------------------------------------------------ *)
(** * When credits are earned *)

Section CreditsSign.

Import B64 B64Facts.

Local Open Scope num_scope.

Lemma ltb_finite_pos m1 e1 m2 e2 :
  ltb (S754_finite false m1 e1) (S754_finite false m2 e2) = true <->
  e1 < e2 \/ (e1 = e2 /\ Zpos m1 < Zpos m2).
Proof.
  unfold ltb, SFltb. cbn. split; intros H; cmp_cases.
Qed.

(** For well-formed floats the order of the values is the order of the
    pairs of exponent and mantissa. *)
Lemma aligned_lt mt et mb eb :
  bounded prec emax mt et = true -> bounded prec emax mb eb = true ->
  (et < eb \/ (et = eb /\ Zpos mt < Zpos mb)) <->
  Zpos mt * 2 ^ (et - Z.min eb et) < Zpos mb * 2 ^ (eb - Z.min eb et).
Proof.
  intros Ht Hb.
  destruct (bounded_facts mt et Ht) as (_ & _ & Hdt & Hmint & Hnt).
  destruct (bounded_facts mb eb Hb) as (_ & _ & Hdb & Hminb & Hnb).
  assert (forall m, dig m <= 53 -> Zpos m < 2 ^ 53) as Hlt53.
  { intros m Hd. pose proof (dig_bounds m) as [_ Hu].
    apply Z.lt_le_trans with (1 := Hu). apply Z.pow_le_mono_r; lia. }
  pose proof (Hlt53 mt Hdt) as Hmt. pose proof (Hlt53 mb Hdb) as Hmb.
  assert (forall k, 0 < k -> 2 <= 2 ^ k) as Hpow.
  { intros k Hk. change 2 with (2 ^ 1) at 1. apply Z.pow_le_mono_r; lia. }
  destruct (Z.lt_trichotomy et eb) as [Hlt | [Heq | Hgt]].
  - rewrite Z.min_r by lia. rewrite Z.sub_diag, Z.pow_0_r.
    specialize (Hnb ltac:(lia)). specialize (Hpow (eb - et) ltac:(lia)).
    split; [intros _; nia | intros _; left; exact Hlt].
  - subst et. rewrite Z.min_id, Z.sub_diag, Z.pow_0_r. lia.
  - rewrite Z.min_l by lia. rewrite Z.sub_diag, Z.pow_0_r.
    specialize (Hnt ltac:(lia)). specialize (Hpow (et - eb) ltac:(lia)).
    split; [intros [H | [H _]]; lia | intros H; nia].
Qed.

(** A positive value whose exponent is in range never rounds to zero. *)
Lemma binary_round_positive d ez :
  -1074 <= ez -> ltb pos_zero (binary_round prec emax false d ez) = true.
Proof.
  intros Hez.
  assert (forall m e, e <= E_of m e -> 1 <= Zpos m / 2 ^ (E_of m e - e) ->
            ltb pos_zero (binary_round_aux prec emax false (Zpos m) e loc_Exact) = true)
    as Haux.
  { intros m e He Hm1.
    destruct (binary_round_aux_shape false m e He) as (Hb & m2 & Hm2 & ->).
    destruct (m2 =? 2 ^ 53).
    - unfold finish. change (2 ^ 52) with (Zpos (2 ^ 52)).
      destruct (_ <=? _); reflexivity.
    - unfold finish. destruct m2 as [ | p | p ]; [lia | | lia].
      destruct (_ <=? _); reflexivity. }
  unfold binary_round. fold (dig d). fold (E_of d ez).
  destruct (Z_le_gt_dec (E_of d ez) ez) as [Hle | Hgt].
  - destruct (shl_align_value d ez (E_of d ez) Hle) as [Hv He].
    destruct (shl_align d ez (E_of d ez)) as [mz ez']. cbn [fst snd] in Hv, He.
    subst ez'.
    assert (E_of mz (E_of d ez) = E_of d ez) as Hsame.
    { unfold E_of at 1. rewrite (dig_shift d mz (ez - E_of d ez)) by (lia || exact Hv).
      unfold E_of. f_equal. lia. }
    apply Haux; rewrite Hsame; [lia | ].
    rewrite Z.sub_diag, Z.pow_0_r, Z.div_1_r. lia.
  - rewrite shl_align_same by lia.
    apply Haux; [lia | ].
    assert (E_of d ez = dig d + ez - 53) as HE.
    { unfold E_of, fexp, emin, prec, emax in *. lia. }
    rewrite HE. replace (dig d + ez - 53 - ez) with (dig d - 53) by lia.
    pose proof (dig_bounds d) as [Hl _].
    apply Z.div_le_lower_bound; [apply Z.pow_pos_nonneg; lia | ].
    rewrite Z.mul_1_r. apply Z.le_trans with (2 := Hl).
    apply Z.pow_le_mono_r; lia.
Qed.

Lemma sub_positive_iff mb eb mt et :
  bounded prec emax mb eb = true -> bounded prec emax mt et = true ->
  ltb pos_zero (sub (S754_finite false mb eb) (S754_finite false mt et)) = true <->
  ltb (S754_finite false mt et) (S754_finite false mb eb) = true.
Proof.
  intros Hb Ht. rewrite ltb_finite_pos, (aligned_lt mt et mb eb Ht Hb).
  destruct (bounded_facts mt et Ht) as (_ & _ & _ & Hmint & _).
  destruct (bounded_facts mb eb Hb) as (_ & _ & _ & Hminb & _).
  unfold sub, SFsub. cbn [cond_Zopp].
  set (ez := Z.min eb et).
  destruct (shl_align_value mb eb ez ltac:(lia)) as [Hvb _].
  destruct (shl_align_value mt et ez ltac:(lia)) as [Hvt _].
  rewrite <- Hvb, <- Hvt.
  destruct (Zpos (fst (shl_align mb eb ez)) - Zpos (fst (shl_align mt et ez)))
    as [ | d | d ] eqn:Hd; cbn [binary_normalize].
  - split; [discriminate | lia].
  - split; [lia | intros _; apply binary_round_positive; lia].
  - split; [ | lia].
    pose proof (binary_round_sign true d ez) as Hs.
    destruct (binary_round prec emax true d ez) as [ [ | ] | [ | ] | | [ | ] m e];
      discriminate.
Qed.

(** X6. With a baseline greater than zero and a non-negative total, the
    potential credits are greater than zero exactly when the total is
    below the baseline: whenever [total < baseline] the float
    subtraction [baseline - total] does not round to zero, so a report
    below its baseline always earns some credits, and a report at or
    above its baseline earns none.  Proved for all well-formed floats,
    infinities included. *)
Theorem credits_earned_iff_below_baseline (baseline_t total_t : f64) :
  valid baseline_t = true -> valid total_t = true ->
  flt zero baseline_t -> fle zero total_t ->
  flt zero (potential_credits baseline_t total_t) <-> flt total_t baseline_t.
Proof.
  unfold flt, fle. rewrite zero_is_pos_zero. intros Hvb Hvt Hb Ht.
  rewrite potential_credits_cases, Hb.
  assert (ltb pos_zero (if ltb pos_zero (baseline_t -! total_t)
                        then baseline_t -! total_t else pos_zero) = true
          <-> ltb pos_zero (baseline_t -! total_t) = true) as ->.
  { destruct (ltb pos_zero (baseline_t -! total_t)) eqn:H; [tauto | ].
    split; discriminate. }
  destruct baseline_t as [sb | [ | ] | | [ | ] mb eb]; try discriminate.
  - destruct (nonneg_cases total_t Ht) as [[s ->] | [-> | (m & e & ->)]];
      cbn; tauto.
  - destruct (nonneg_cases total_t Ht) as [[s ->] | [-> | (mt & et & ->)]].
    + cbn. tauto.
    + cbn. split; discriminate.
    + now apply sub_positive_iff.
Qed.

Lemma credits_earned_iff_below_baseline_witness :
  flt zero (potential_credits (lit 300 1) (lit 26216 3)).
Proof.
  apply credits_earned_iff_below_baseline; vm_compute; reflexivity.
Defined.

End CreditsSign.

(* ------------------------------------------------------------------ *)
(** * The dictionary of inputs *)

Section InputsDict.

Lemma dict_get_in {V : Type} (d : list (string * V)) (key : string) :
  (exists v, dict_get d key = Ok v /\ In (key, v) d) \/
  (dict_get d key = Raise KeyError /\ ~ In key (map fst d)).
Proof.
  induction d as [ | [k v] d IH]; cbn [dict_get map fst].
  - right. split; [reflexivity | intros []].
  - destruct (String.eqb_spec k key) as [-> | Hne].
    + left. exists v. split; [reflexivity | now left].
    + destruct IH as [(w & Hw & Hin) | (Hr & Hnot)].
      * left. exists w. split; [exact Hw | now right].
      * right. split; [exact Hr | ]. intros [H | H]; [congruence | auto].
Qed.

Lemma dict_get_all_cases {V : Type} (d : list (string * V)) (keys : list string) :
  (exists vs, dict_get_all d keys = Ok vs /\
              List.length vs = List.length keys /\
              forall key, In key keys -> In key (map fst d)) \/
  (dict_get_all d keys = Raise KeyError /\
   exists key, In key keys /\ ~ In key (map fst d)).
Proof.
  induction keys as [ | key keys IH]; cbn [dict_get_all].
  - left. exists []. split; [reflexivity | ]. split; [reflexivity | intros k []].
  - destruct (dict_get_in d key) as [(v & Hv & Hin) | (Hr & Hnot)].
    + rewrite Hv. cbn [bind].
      destruct IH as [(vs & Hvs & Hlen & Hall) | (Hr & key' & Hk & Hnot)].
      * left. rewrite Hvs. cbn [bind]. exists (v :: vs).
        split; [reflexivity | ]. split; [cbn; now rewrite Hlen | ].
        intros k [<- | Hk]; [ | auto].
        apply in_map_iff. exists (key, v). auto.
      * right. rewrite Hr. cbn [bind]. split; [reflexivity | ].
        exists key'. split; [now right | exact Hnot].
    + right. rewrite Hr. cbn [bind]. split; [reflexivity | ].
      exists key. split; [now left | exact Hnot].
Qed.

(** X7. The lookups with which the two section A functions start
    succeed exactly when the dictionary they are given holds every key
    they read (eight keys for agriculture, four for the alloy sector),
    whatever the values are; when a key is missing the function raises
    [KeyError] and nothing else. *)
Theorem section_A_lookups (V : Type) (inputs_dict : list (string * V)) :
  ((exists vs, section_A_agri_lookups inputs_dict = Ok vs) <->
   (forall key, In key section_A_agri_keys -> In key (map fst inputs_dict))) /\
  ((forall vs, section_A_agri_lookups inputs_dict <> Ok vs) ->
   section_A_agri_lookups inputs_dict = Raise KeyError) /\
  ((exists vs, section_A_alloy_lookups inputs_dict = Ok vs) <->
   (forall key, In key section_A_alloy_keys -> In key (map fst inputs_dict))) /\
  ((forall vs, section_A_alloy_lookups inputs_dict <> Ok vs) ->
   section_A_alloy_lookups inputs_dict = Raise KeyError).
Proof.
  unfold section_A_agri_lookups, section_A_alloy_lookups.
  assert (forall keys,
            ((exists vs, dict_get_all inputs_dict keys = Ok vs) <->
             (forall key, In key keys -> In key (map fst inputs_dict))) /\
            ((forall vs, dict_get_all inputs_dict keys <> Ok vs) ->
             dict_get_all inputs_dict keys = Raise KeyError)) as H.
  { intros keys.
    destruct (dict_get_all_cases inputs_dict keys)
      as [(vs & Hvs & _ & Hall) | (Hr & key & Hk & Hnot)].
    - split; [split; [intros _; exact Hall | intros _; eauto] | ].
      intros Hno. elim (Hno vs Hvs).
    - split; [ | intros _; exact Hr].
      split.
      + intros [vs Hvs]. congruence.
      + intros Hall. elim Hnot. auto. }
  destruct (H section_A_agri_keys) as [H1 H2].
  destruct (H section_A_alloy_keys) as [H3 H4]. auto.
Qed.

Lemma section_A_lookups_witness :
  exists vs, section_A_agri_lookups (inputs_dict_agri scenario_agri) = Ok vs.
Proof.
  apply (proj1 (section_A_lookups pyval (inputs_dict_agri scenario_agri))).
  intros key H. exact H.
Defined.


End InputsDict.

(* ------------------------------------------------------------------ *)
(** * Printed numbers *)

Section NiceNumber.

Import B64 Format.

Lemma digits_value_app (s1 s2 : string) : forall acc,
  digits_value acc (s1 ++ s2) =
  match digits_value acc s1 with
  | Some a => digits_value a s2
  | None => None
  end.
Proof.
  induction s1 as [ | c s1 IH]; intros acc; cbn; [reflexivity | ].
  destruct (is_digit c); [apply IH | reflexivity].
Qed.

Lemma digit_reads (d : Z) :
  0 <= d < 10 ->
  is_digit (digit d) = true /\
  Z.of_nat (nat_of_ascii (digit d) - 48) = d.
Proof.
  intros Hd. unfold digit, is_digit.
  assert (d = 0 \/ d = 1 \/ d = 2 \/ d = 3 \/ d = 4 \/ d = 5 \/ d = 6 \/
          d = 7 \/ d = 8 \/ d = 9) as H by lia.
  repeat (destruct H as [-> | H]; [split; reflexivity | ]).
  subst d. split; reflexivity.
Qed.

Lemma length_append (s1 s2 : string) :
  String.length (s1 ++ s2) = (String.length s1 + String.length s2)%nat.
Proof.
  induction s1 as [ | c s1 IH]; cbn; [reflexivity | now rewrite IH].
Qed.

Lemma last_digits_length (n : nat) : forall z, String.length (last_digits n z) = n.
Proof.
  induction n as [ | n IH]; intros z; cbn [last_digits]; [reflexivity | ].
  rewrite length_append, IH. cbn. lia.
Qed.

Lemma last_digits_reads (n : nat) : forall z acc,
  digits_value acc (last_digits n z) =
  Some (acc * 10 ^ Z.of_nat n + z mod 10 ^ Z.of_nat n).
Proof.
  induction n as [ | n IH]; intros z acc.
  - cbn [last_digits digits_value]. f_equal.
    change (10 ^ Z.of_nat 0) with 1. rewrite Z.mod_1_r. lia.
  - cbn [last_digits]. rewrite digits_value_app, IH.
    destruct (digit_reads (z mod 10)) as [Hd Hv].
    { apply Z.mod_pos_bound. lia. }
    cbn [digits_value]. rewrite Hd, Hv. f_equal.
    rewrite Nat2Z.inj_succ, Z.pow_succ_r by lia.
    assert (0 < 10 ^ Z.of_nat n) as Hp by (apply Z.pow_pos_nonneg; lia).
    rewrite (Z.rem_mul_r z 10 (10 ^ Z.of_nat n)) by lia. lia.
Qed.

Ltac read_digit :=
  match goal with
  | |- context [is_digit ?c] =>
      let b := eval vm_compute in (is_digit c) in
      change (is_digit c) with b; cbv iota
  end;
  match goal with
  | |- context [Z.of_nat ?n] =>
      let v := eval vm_compute in (Z.of_nat n) in
      change (Z.of_nat n) with v
  end.

Lemma string_of_uint_acc (d : Decimal.uint) : forall acc,
  digits_value (Zpos acc) (NilEmpty.string_of_uint d) =
  Some (Zpos (Pos.of_uint_acc d acc)).
Proof.
  induction d as [ | d IH | d IH | d IH | d IH | d IH | d IH | d IH | d IH
                   | d IH | d IH]; intros acc;
    cbn [NilEmpty.string_of_uint digits_value Pos.of_uint_acc];
    [reflexivity | .. ];
    read_digit; rewrite <- IH; f_equal; lia.
Qed.

Lemma string_of_uint_reads (d : Decimal.uint) :
  digits_value 0 (NilEmpty.string_of_uint d) = Some (Z.of_N (Pos.of_uint d)).
Proof.
  induction d as [ | d IH | d IH | d IH | d IH | d IH | d IH | d IH | d IH
                   | d IH | d IH];
    cbn [NilEmpty.string_of_uint digits_value Pos.of_uint];
    [reflexivity | .. ]; read_digit;
    [exact IH | .. ]; apply (string_of_uint_acc d).
Qed.

Lemma integer_part_reads (k : Z) :
  0 <= k ->
  digits_value 0 (NilZero.string_of_uint (N.to_uint (Z.to_N k))) = Some k /\
  NilZero.string_of_uint (N.to_uint (Z.to_N k)) <> EmptyString.
Proof.
  intros Hk.
  pose proof (DecimalN.Unsigned.of_to (Z.to_N k)) as Hof.
  unfold N.of_uint in Hof.
  pose proof (string_of_uint_reads (N.to_uint (Z.to_N k))) as Hr.
  rewrite Hof, Z2N.id in Hr by exact Hk.
  unfold NilZero.string_of_uint.
  destruct (N.to_uint (Z.to_N k)) eqn:Hd; cbn [NilEmpty.string_of_uint] in *;
    split; (exact Hr || discriminate).
Qed.

Lemma div_half_even_spec (p q : Z) :
  0 <= p -> 0 < q ->
  0 <= div_half_even p q /\
  2 * Z.abs (div_half_even p q * q - p) <= q /\
  (2 * Z.abs (div_half_even p q * q - p) = q -> Z.even (div_half_even p q) = true).
Proof.
  intros Hp Hq. unfold div_half_even.
  pose proof (Z.div_mod p q ltac:(lia)) as Hdm.
  pose proof (Z.mod_pos_bound p q Hq) as Hr.
  pose proof (Z.div_pos p q Hp Hq) as Hf.
  set (f := p / q) in *. set (r := p mod q) in *.
  destruct (Z.compare_spec (2 * r) q) as [He | Hl | Hg].
  - destruct (Z.even f) eqn:Hev.
    + repeat split; [lia | nia | auto].
    + repeat split; [lia | nia | ].
      intros _. rewrite Z.even_add, Hev. reflexivity.
  - repeat split; [lia | nia | nia].
  - repeat split; [lia | nia | nia].
Qed.

Lemma scaled_magnitude_spec (m : positive) (e : Z) (ndigits : nat) :
  let n := scaled_magnitude m e ndigits in
  0 <= n /\
  (0 <= e -> n = Zpos m * 2 ^ e * 10 ^ Z.of_nat ndigits) /\
  (e < 0 ->
   2 * Z.abs (n * 2 ^ (- e) - Zpos m * 10 ^ Z.of_nat ndigits) <= 2 ^ (- e) /\
   (2 * Z.abs (n * 2 ^ (- e) - Zpos m * 10 ^ Z.of_nat ndigits) = 2 ^ (- e) ->
    Z.even n = true)).
Proof.
  cbv zeta. unfold scaled_magnitude.
  assert (0 < 10 ^ Z.of_nat ndigits) as Hten by (apply Z.pow_pos_nonneg; lia).
  destruct (Z.leb_spec 0 e) as [He | He].
  - assert (0 < 2 ^ e) as Htwo by (apply Z.pow_pos_nonneg; lia).
    repeat split; [nia | intros _; ring | lia | lia ].
  - assert (0 < 2 ^ (- e)) as Htwo by (apply Z.pow_pos_nonneg; lia).
    destruct (div_half_even_spec (Zpos m * 10 ^ Z.of_nat ndigits) (2 ^ (- e)))
      as (H0 & H1 & H2); [nia | lia | ].
    repeat split; [exact H0 | lia | exact H1 | exact H2].
Qed.

(** X9. For every float that is a number, [nice_number] prints the
    sign (["-"] for negative values and for minus zero), a non-empty
    run of decimal digits, a point unless [ndigits] is zero, and exactly
    [ndigits] decimal digits.  Read back as an integer [n], the digits
    are the magnitude of the float scaled by [10^ndigits] and rounded to
    the nearest integer, ties to even: for [x = +-m * 2^e], [n] is
    [m * 2^e * 10^ndigits] when [0 <= e], and otherwise lies within
    half a unit of [m * 10^ndigits / 2^-e], being even when exactly half
    a unit away. *)
Theorem nice_number_correctly_rounded (x : f64) (ndigits : nat) :
  x <> S754_nan -> (forall s, x <> S754_infinity s) ->
  let n := printed_magnitude x ndigits in
  (exists int_part frac_part : string,
     nice_number x ndigits =
       (printed_sign x ++ int_part
        ++ (match ndigits with O => "" | _ => "." end) ++ frac_part)%string /\
     int_part <> EmptyString /\
     digits_value 0 int_part = Some (n / 10 ^ Z.of_nat ndigits) /\
     String.length frac_part = ndigits /\
     digits_value 0 frac_part = Some (n mod 10 ^ Z.of_nat ndigits)) /\
  0 <= n /\
  (forall s m e, x = S754_finite s m e ->
     (0 <= e -> n = Zpos m * 2 ^ e * 10 ^ Z.of_nat ndigits) /\
     (e < 0 ->
      2 * Z.abs (n * 2 ^ (- e) - Zpos m * 10 ^ Z.of_nat ndigits) <= 2 ^ (- e) /\
      (2 * Z.abs (n * 2 ^ (- e) - Zpos m * 10 ^ Z.of_nat ndigits) = 2 ^ (- e) ->
       Z.even n = true))).
Proof.
  intros Hnan Hinf. cbv zeta.
  assert (0 < 10 ^ Z.of_nat ndigits) as Hten by (apply Z.pow_pos_nonneg; lia).
  assert (0 <= printed_magnitude x ndigits) as Hn.
  { destruct x as [s | s | | s m e]; cbn; try lia.
    apply (scaled_magnitude_spec m e ndigits). }
  split; [ | split; [exact Hn | ] ].
  - exists (NilZero.string_of_uint
              (N.to_uint (Z.to_N (printed_magnitude x ndigits / 10 ^ Z.of_nat ndigits)))),
           (last_digits ndigits (printed_magnitude x ndigits)).
    destruct (integer_part_reads (printed_magnitude x ndigits / 10 ^ Z.of_nat ndigits))
      as [Hread Hne]; [apply Z.div_pos; lia | ].
    split; [ | split; [exact Hne | split; [exact Hread | split ] ] ].
    + destruct x as [s | s | | s m e];
        [ | exfalso; exact (Hinf s eq_refl) | exfalso; exact (Hnan eq_refl) | ];
        destruct s; reflexivity.
    + apply last_digits_length.
    + rewrite last_digits_reads. reflexivity.
  - intros s m e ->. cbn [printed_magnitude].
    destruct (scaled_magnitude_spec m e ndigits) as (_ & H1 & H2). split; assumption.
Qed.

Lemma nice_number_correctly_rounded_witness :
  nice_number (literal 125 3) 2 = "0.12"%string /\
  exists int_part frac_part : string,
    nice_number (literal 125 3) 2 =
      (printed_sign (literal 125 3) ++ int_part ++ "." ++ frac_part)%string /\
    int_part <> EmptyString /\
    digits_value 0 int_part = Some (printed_magnitude (literal 125 3) 2 / 10 ^ 2) /\
    String.length frac_part = 2%nat /\
    digits_value 0 frac_part = Some (printed_magnitude (literal 125 3) 2 mod 10 ^ 2).
Proof.
  split; [vm_compute; reflexivity | ].
  refine (proj1 (nice_number_correctly_rounded (literal 125 3) 2 _ _)).
  - vm_compute. discriminate.
  - intros s. vm_compute. discriminate.
Defined.

End NiceNumber.

(* ------------------------------------------------------------------ *)
(** * What the rounding of binary64 computes *)

Section RoundExact.

Import B64 B64Facts Format.

Lemma new_location_loc_of n r :
  0 < n -> 0 <= r < n -> new_location n r = loc_of r n.
Proof.
  intros Hn Hr. unfold new_location, loc_of.
  destruct (Z.even n) eqn:Hev; [reflexivity | ].
  unfold new_location_odd. destruct (r =? 0); [reflexivity | ].
  pose proof (Zmod_even n) as Hm. rewrite Hev in Hm.
  pose proof (Z.div_mod n 2 ltac:(lia)) as Hd.
  destruct (Z.compare_spec (2 * r + 1) n), (Z.compare_spec (2 * r) n);
    try reflexivity; lia.
Qed.

Lemma shr_inv_init P D :
  0 <= P -> 0 < D ->
  shr_inv P D (shr_record_of_loc (P / D) (loc_of (P mod D) D)).
Proof.
  intros HP HD. pose proof (Z.mod_pos_bound P D HD) as Hr.
  unfold shr_inv, loc_of.
  destruct (Z.eqb_spec (P mod D) 0) as [H0 | H0];
    [ | destruct (Z.compare_spec (2 * (P mod D)) D) as [He | Hl | Hg] ];
    cbn [shr_record_of_loc shr_m shr_r shr_s];
    (split; [reflexivity | ]);
    destruct (Z.leb_spec D (2 * (P mod D))), (Z.eqb_spec (2 * (P mod D)) D);
    cbn [negb orb]; first [split; reflexivity | exfalso; lia].
Qed.

Lemma shr_1_fields mrs :
  0 <= shr_m mrs ->
  shr_1 mrs = {| shr_m := shr_m mrs / 2; shr_r := Z.odd (shr_m mrs);
                 shr_s := shr_r mrs || shr_s mrs |}.
Proof.
  destruct mrs as [m r s]. cbn [shr_m shr_r shr_s].
  destruct m as [ | [p | p | ] | p ]; cbn [shr_1]; intros H; try lia;
    f_equal; try reflexivity.
  - apply Z.div_unique with (r := 1); lia.
  - apply Z.div_unique with (r := 0); lia.
Qed.

Lemma shr_inv_step P D mrs :
  0 <= P -> 0 < D -> shr_inv P D mrs -> shr_inv P (D * 2) (shr_1 mrs).
Proof.
  intros HP HD (Hm & Hr & Hs).
  pose proof (Z.mod_pos_bound P D HD) as Hrem.
  assert (0 <= P / D) as Hq by (apply Z.div_pos; lia).
  rewrite shr_1_fields by (rewrite Hm; exact Hq).
  rewrite Hm, Hr, Hs. unfold shr_inv. cbn [shr_m shr_r shr_s].
  pose proof (Z.rem_mul_r P D 2 ltac:(lia) ltac:(lia)) as Hrem'.
  pose proof (Zmod_odd (P / D)) as Hodd.
  rewrite Hrem'. clear Hrem'.
  split; [apply Z.div_div; lia | ].
  destruct (Z.odd (P / D)); rewrite Hodd; clear Hodd.
  - split.
    + symmetry. apply Z.leb_le. lia.
    + destruct (Z.leb_spec D (2 * (P mod D))), (Z.eqb_spec (P mod D) 0),
        (Z.eqb_spec (2 * (P mod D)) D),
        (Z.eqb_spec (P mod D + D * 1) 0),
        (Z.eqb_spec (2 * (P mod D + D * 1)) (D * 2)); cbn; try reflexivity; lia.
  - split.
    + symmetry. apply Z.leb_gt. lia.
    + destruct (Z.leb_spec D (2 * (P mod D))), (Z.eqb_spec (P mod D) 0),
        (Z.eqb_spec (2 * (P mod D)) D),
        (Z.eqb_spec (P mod D + D * 0) 0),
        (Z.eqb_spec (2 * (P mod D + D * 0)) (D * 2)); cbn; try reflexivity; lia.
Qed.

Lemma shr_inv_iter P (HP : 0 <= P) p : forall D mrs,
  0 < D -> shr_inv P D mrs ->
  shr_inv P (D * 2 ^ Zpos p) (iter_pos shr_1 p mrs).
Proof.
  induction p as [p IH | p IH | ]; intros D mrs HD H; cbn [iter_pos].
  - pose proof (Z.pow_pos_nonneg 2 (Zpos p) ltac:(lia) ltac:(lia)) as Hp.
    replace (D * 2 ^ Zpos p~1) with (D * 2 * 2 ^ Zpos p * 2 ^ Zpos p).
    + apply IH; [nia | ]. apply IH; [lia | ]. now apply shr_inv_step.
    + replace (Zpos p~1) with (1 + Zpos p + Zpos p) by lia.
      rewrite !Z.pow_add_r by lia. change (2 ^ 1) with 2. ring.
  - pose proof (Z.pow_pos_nonneg 2 (Zpos p) ltac:(lia) ltac:(lia)) as Hp.
    replace (D * 2 ^ Zpos p~0) with (D * 2 ^ Zpos p * 2 ^ Zpos p).
    + apply IH; [nia | ]. now apply IH.
    + replace (Zpos p~0) with (Zpos p + Zpos p) by lia.
      rewrite !Z.pow_add_r by lia. ring.
  - change (2 ^ 1) with 2. now apply shr_inv_step.
Qed.

Lemma shr_inv_round P D mrs :
  0 <= P -> 0 < D -> shr_inv P D mrs ->
  round_nearest_even (shr_m mrs) (loc_of_shr_record mrs) = div_half_even P D.
Proof.
  intros HP HD (Hm & Hr & Hs).
  pose proof (Z.mod_pos_bound P D HD) as Hrem.
  destruct mrs as [m r s]. cbn [shr_m shr_r shr_s] in *. subst m r s.
  unfold div_half_even, loc_of_shr_record, round_nearest_even.
  destruct (Z.compare_spec (2 * (P mod D)) D) as [He | Hl | Hg];
    destruct (Z.leb_spec D (2 * (P mod D))), (Z.eqb_spec (P mod D) 0),
      (Z.eqb_spec (2 * (P mod D)) D); cbn; try reflexivity; lia.
Qed.

Lemma Zdigits2_bound m : 0 <= m -> m < 2 ^ Zdigits2 m.
Proof.
  destruct m as [ | p | p ]; cbn [Zdigits2]; intros H; [cbn; lia | | lia].
  apply (dig_bounds p).
Qed.

Lemma Zdigits2_nonneg m : 0 <= Zdigits2 m.
Proof. destruct m; cbn; lia. Qed.

Lemma Ez_ge m e : -1074 <= Ez m e /\ Zdigits2 m + e - 53 <= Ez m e.
Proof. unfold Ez, fexp, emin, prec, emax. lia. Qed.

Lemma div_half_even_floor p q :
  0 <= p -> 0 < q -> p / q <= div_half_even p q <= p / q + 1.
Proof.
  intros Hp Hq. unfold div_half_even.
  destruct (2 * (p mod q) ?= q); try destruct (Z.even (p / q)); lia.
Qed.

(** What [binary_round_aux] computes from a mantissa that is the integer
    part of [P / Qd] with the location of the remainder: the quotient of
    [P] by [Qd] at the rounding exponent, rounded to nearest, ties to
    even. *)
Lemma binary_round_aux_exact s P Qd e :
  0 <= P -> 0 < Qd -> e <= Ez (P / Qd) e ->
  binary_round_aux prec emax s (P / Qd) e (loc_of (P mod Qd) Qd)
  = fin s (div_half_even P (Qd * 2 ^ (Ez (P / Qd) e - e))) (Ez (P / Qd) e).
Proof.
  intros HP HQ He.
  pose proof (Ez_ge (P / Qd) e) as [HE1 HE2].
  assert (0 <= P / Qd) as Hm by (apply Z.div_pos; lia).
  pose proof (Zdigits2_bound _ Hm) as Hdig.
  pose proof (Zdigits2_nonneg (P / Qd)) as Hdn.
  set (E := Ez (P / Qd) e) in *.
  assert (0 < 2 ^ (E - e)) as Hpw by (apply Z.pow_pos_nonneg; lia).
  assert (shr_inv P (Qd * 2 ^ (E - e))
            (fst (shr_fexp prec emax (P / Qd) e (loc_of (P mod Qd) Qd))) /\
          snd (shr_fexp prec emax (P / Qd) e (loc_of (P mod Qd) Qd)) = E)
    as [Hinv Hexp].
  { unfold shr_fexp. fold (Ez (P / Qd) e). fold E. unfold shr.
    destruct (E - e) as [ | p | p ] eqn:En; cbn [fst snd].
    - rewrite Z.pow_0_r, Z.mul_1_r. split; [now apply shr_inv_init | lia].
    - split; [ | lia]. apply shr_inv_iter; auto. now apply shr_inv_init.
    - lia. }
  unfold binary_round_aux.
  destruct (shr_fexp prec emax (P / Qd) e (loc_of (P mod Qd) Qd)) as [mrs' e'].
  cbn [fst snd] in Hinv, Hexp. subst e'.
  rewrite (shr_inv_round P (Qd * 2 ^ (E - e)) mrs') by (auto; nia).
  pose proof (div_half_even_floor P (Qd * 2 ^ (E - e)) HP ltac:(nia)) as Hfl.
  assert (P / (Qd * 2 ^ (E - e)) < 2 ^ 53) as Hlt.
  { rewrite <- Z.div_div by lia.
    apply Z.div_lt_upper_bound; [lia | ].
    rewrite <- Z.pow_add_r by lia.
    apply Z.lt_le_trans with (1 := Hdig).
    apply Z.pow_le_mono_r; lia. }
  assert (0 <= P / (Qd * 2 ^ (E - e))) by (apply Z.div_pos; nia).
  rewrite shr_fexp_second by lia.
  unfold fin. destruct (_ =? 2 ^ 53); reflexivity.
Qed.

End RoundExact.

(* ------------------------------------------------------------------ *)
(** * Rounding keeps the order of the values *)

Section RoundMono.

Import B64 B64Facts Format.

Lemma pow2_pos e : (0 < pow2 e)%Q.
Proof. apply Qpower_0_lt. reflexivity. Qed.

Lemma pow2_add a b : (pow2 (a + b) == pow2 a * pow2 b)%Q.
Proof. apply Qpower_plus. discriminate. Qed.

Lemma pow2_Z k : 0 <= k -> (inject_Z (2 ^ k) == pow2 k)%Q.
Proof. intros H. apply Zpower_Qpower. exact H. Qed.

Lemma pow2_lt_inv a b : (pow2 a < pow2 b)%Q -> a < b.
Proof. intros H. apply (Qpower_lt_compat_l_inv 2); [exact H | reflexivity]. Qed.

Lemma pow2_le a b : a <= b -> (pow2 a <= pow2 b)%Q.
Proof. intros H. apply Qpower_le_compat_l; [exact H | discriminate]. Qed.

Lemma floor_bounds P D :
  0 < D ->
  (inject_Z (P / D) * inject_Z D <= inject_Z P /\
   inject_Z P < (inject_Z (P / D) + 1) * inject_Z D)%Q.
Proof.
  intros HD.
  pose proof (Z.mul_div_le P D HD) as H1.
  pose proof (Z.mul_succ_div_gt P D HD) as H2.
  split.
  - rewrite <- inject_Z_mult, <- Zle_Qle. lia.
  - change 1%Q with (inject_Z 1).
    rewrite <- inject_Z_plus, <- inject_Z_mult, <- Zlt_Qlt. lia.
Qed.

Lemma digits_lower m :
  1 <= m -> (pow2 (Zdigits2 m - 1) <= inject_Z m)%Q.
Proof.
  intros H. destruct m as [ | p | p ]; try lia. cbn [Zdigits2].
  pose proof (dig_bounds p) as [Hl _]. pose proof (dig_pos p). unfold dig in *.
  rewrite <- pow2_Z by lia. rewrite <- Zle_Qle. exact Hl.
Qed.

Lemma digits_upper m :
  0 <= m -> (inject_Z m + 1 <= pow2 (Zdigits2 m))%Q.
Proof.
  intros H. pose proof (Zdigits2_bound m H) as Hu.
  pose proof (Zdigits2_nonneg m).
  rewrite <- pow2_Z by lia. change 1%Q with (inject_Z 1).
  rewrite <- inject_Z_plus, <- Zle_Qle. lia.
Qed.

Lemma value_chain (u v a1 a2 p1 p2 q1 q2 : Q) :
  (0 < a1 -> 0 < a2 -> 0 < q1 -> 0 < q2 ->
   u * q1 <= p1 -> p2 < v * q2 -> p1 * a1 * q2 <= p2 * a2 * q1 ->
   u * a1 < v * a2)%Q.
Proof.
  intros Ha1 Ha2 Hq1 Hq2 A1 A2 Hv.
  assert (0 < a1 * q2)%Q as P1 by (apply Qmult_lt_0_compat; assumption).
  assert (0 < a2 * q1)%Q as P2 by (apply Qmult_lt_0_compat; assumption).
  assert (0 < q1 * q2)%Q as P3 by (apply Qmult_lt_0_compat; assumption).
  assert (u * q1 * (a1 * q2) <= p1 * (a1 * q2))%Q as B1
    by (apply Qmult_le_compat_r; [exact A1 | apply Qlt_le_weak; exact P1]).
  assert (p2 * (a2 * q1) < v * q2 * (a2 * q1))%Q as B2
    by (apply Qmult_lt_compat_r; assumption).
  apply (Qmult_lt_r _ _ (q1 * q2) P3).
  apply Qle_lt_trans with (p1 * (a1 * q2))%Q.
  - setoid_replace (u * a1 * (q1 * q2))%Q with (u * q1 * (a1 * q2))%Q by ring. exact B1.
  - apply Qle_lt_trans with (p2 * (a2 * q1))%Q.
    + setoid_replace (p1 * (a1 * q2))%Q with (p1 * a1 * q2)%Q by ring.
      setoid_replace (p2 * (a2 * q1))%Q with (p2 * a2 * q1)%Q by ring. exact Hv.
    + setoid_replace (v * a2 * (q1 * q2))%Q with (v * q2 * (a2 * q1))%Q by ring. exact B2.
Qed.

(** The rounding exponent grows with the value. *)
Lemma Ez_mono P1 Q1 e1 P2 Q2 e2 :
  0 <= P1 -> 0 < Q1 -> 0 <= P2 -> 0 < Q2 ->
  e1 <= Ez (P1 / Q1) e1 ->
  vle P1 Q1 e1 P2 Q2 e2 ->
  Ez (P1 / Q1) e1 <= Ez (P2 / Q2) e2.
Proof.
  intros HP1 HQ1 HP2 HQ2 He1 Hv.
  assert (0 <= P1 / Q1) as Hm1 by (apply Z.div_pos; lia).
  assert (0 <= P2 / Q2) as Hm2 by (apply Z.div_pos; lia).
  destruct (Z.eq_dec (P1 / Q1) 0) as [H0 | H0].
  - rewrite H0 in *. unfold Ez, fexp, emin, prec, emax in *. cbn [Zdigits2] in *. lia.
  - assert (Zdigits2 (P1 / Q1) - 1 + e1 < Zdigits2 (P2 / Q2) + e2) as Hd;
      [ | unfold Ez, fexp, emin, prec, emax; lia].
    apply pow2_lt_inv. rewrite !pow2_add.
    pose proof (digits_lower (P1 / Q1) ltac:(lia)) as Hl.
    pose proof (digits_upper (P2 / Q2) Hm2) as Hu.
    destruct (floor_bounds P1 Q1 HQ1) as [Hf1 _].
    destruct (floor_bounds P2 Q2 HQ2) as [_ Hf2].
    unfold vle in Hv.
    assert (0 < inject_Z Q1)%Q as HQ1' by (change 0%Q with (inject_Z 0); rewrite <- Zlt_Qlt; lia).
    assert (0 < inject_Z Q2)%Q as HQ2' by (change 0%Q with (inject_Z 0); rewrite <- Zlt_Qlt; lia).
    apply (value_chain _ _ _ _ (inject_Z P1) (inject_Z P2) (inject_Z Q1) (inject_Z Q2));
      auto using pow2_pos.
    + apply Qle_trans with (2 := Hf1).
      apply Qmult_le_compat_r; [exact Hl | apply Qlt_le_weak; exact HQ1'].
    + apply Qlt_le_trans with (1 := Hf2).
      apply Qmult_le_compat_r; [exact Hu | apply Qlt_le_weak; exact HQ2'].
Qed.

(** At the same rounding exponent the scaled quotients are in the order
    of the values. *)
Lemma same_E_cross P1 Q1 e1 P2 Q2 e2 E :
  0 < Q1 -> 0 < Q2 -> e1 <= E -> e2 <= E ->
  vle P1 Q1 e1 P2 Q2 e2 ->
  P1 * (Q2 * 2 ^ (E - e2)) <= P2 * (Q1 * 2 ^ (E - e1)).
Proof.
  intros HQ1 HQ2 He1 He2 Hv. unfold vle in Hv.
  rewrite Zle_Qle, !inject_Z_mult, !pow2_Z by lia.
  pose proof (pow2_pos (E - e1 - e2)) as Hc.
  assert (pow2 (E - e2) == pow2 e1 * pow2 (E - e1 - e2))%Q as ->.
  { rewrite <- pow2_add. f_equiv. lia. }
  assert (pow2 (E - e1) == pow2 e2 * pow2 (E - e1 - e2))%Q as ->.
  { rewrite <- pow2_add. f_equiv. lia. }
  nra.
Qed.

Lemma div_half_even_mono P1 D1 P2 D2 :
  0 <= P1 -> 0 < D1 -> 0 <= P2 -> 0 < D2 ->
  P1 * D2 <= P2 * D1 ->
  div_half_even P1 D1 <= div_half_even P2 D2.
Proof.
  intros HP1 HD1 HP2 HD2 H.
  destruct (div_half_even_spec P1 D1 HP1 HD1) as (Hn1 & Hs1 & Ht1).
  destruct (div_half_even_spec P2 D2 HP2 HD2) as (Hn2 & Hs2 & Ht2).
  set (n1 := div_half_even P1 D1) in *. set (n2 := div_half_even P2 D2) in *.
  destruct (Z_le_gt_dec n1 n2) as [ | Hgt]; [assumption | exfalso].
  assert (2 * (n1 * D1 - P1) <= D1) as A1 by lia.
  assert (2 * (P2 - n2 * D2) <= D2) as A2 by lia.
  assert (2 * (n1 * D1 - P1) * D2 <= D1 * D2) as B1 by nia.
  assert (2 * (P2 - n2 * D2) * D1 <= D2 * D1) as B2 by nia.
  assert ((n1 - n2 - 1) * (D1 * D2) + (P2 * D1 - P1 * D2) <= 0) as B3 by nia.
  assert (0 <= (n1 - n2 - 1) * (D1 * D2)) as B4 by nia.
  assert ((n1 - n2 - 1) * (D1 * D2) = 0) as B5 by lia.
  assert (P2 * D1 = P1 * D2) as B6 by lia.
  assert (n1 = n2 + 1) as B7 by nia.
  assert (2 * (n1 * D1 - P1) = D1) as C1 by nia.
  assert (2 * (P2 - n2 * D2) = D2) as C2 by nia.
  specialize (Ht1 ltac:(lia)). specialize (Ht2 ltac:(lia)).
  rewrite B7, Z.even_add, Ht2 in Ht1. discriminate.
Qed.

(** Above the least exponent the rounded mantissa has all its bits. *)
Lemma normal_big P Qd e :
  0 <= P -> 0 < Qd -> e <= Ez (P / Qd) e -> -1074 < Ez (P / Qd) e ->
  2 ^ 52 <= div_half_even P (Qd * 2 ^ (Ez (P / Qd) e - e)).
Proof.
  intros HP HQ He HE.
  assert (0 <= P / Qd) as Hm by (apply Z.div_pos; lia).
  set (E := Ez (P / Qd) e) in *.
  assert (0 < 2 ^ (E - e)) as Hpw by (apply Z.pow_pos_nonneg; lia).
  pose proof (div_half_even_floor P (Qd * 2 ^ (E - e)) HP ltac:(nia)) as [Hfl _].
  apply Z.le_trans with (2 := Hfl).
  rewrite <- Z.div_div by lia.
  destruct (P / Qd) as [ | p | p ] eqn:Hp; [ | | lia].
  - exfalso. unfold E, Ez, fexp, emin, prec, emax in *. cbn [Zdigits2] in *. lia.
  - assert (E = dig p + e - 53) as HEq.
    { unfold E, Ez, fexp, emin, prec, emax in *. cbn [Zdigits2] in *.
      unfold dig. lia. }
    pose proof (dig_bounds p) as [Hl _].
    replace (E - e) with (dig p - 53) in * by lia.
    apply Z.div_le_lower_bound; [lia | ].
    rewrite <- Z.pow_add_r by lia.
    replace (dig p - 53 + 52) with (dig p - 1) by lia. exact Hl.
Qed.

Lemma finish_mono m1 e1 m2 e2 :
  0 <= m1 -> 0 <= m2 ->
  m1 = 0 \/ (e1 < e2 /\ 0 < m2) \/ (e1 = e2 /\ m1 <= m2) ->
  leb (finish false m1 e1) (finish false m2 e2) = true.
Proof.
  intros H1 H2 H. unfold finish.
  destruct m1 as [ | p1 | p1 ]; [ | | lia].
  - destruct m2 as [ | p2 | p2 ]; [reflexivity | | lia].
    destruct (_ <=? _); reflexivity.
  - destruct m2 as [ | p2 | p2 ]; [lia | | lia].
    destruct (Z.leb_spec e1 (emax - prec)), (Z.leb_spec e2 (emax - prec));
      try reflexivity.
    + apply leb_finite_pos. lia.
    + exfalso. lia.
Qed.

Lemma fin_mono n1 E1 n2 E2 :
  0 <= n1 <= 2 ^ 53 -> 0 <= n2 <= 2 ^ 53 ->
  (E1 < E2 /\ 2 ^ 52 <= n2) \/ (E1 = E2 /\ n1 <= n2) ->
  leb (fin false n1 E1) (fin false n2 E2) = true.
Proof.
  intros H1 H2 H. unfold fin.
  destruct (Z.eqb_spec n1 (2 ^ 53)), (Z.eqb_spec n2 (2 ^ 53));
    apply finish_mono; lia.
Qed.

Lemma div_half_even_bounds P Qd e :
  0 <= P -> 0 < Qd -> e <= Ez (P / Qd) e ->
  0 <= div_half_even P (Qd * 2 ^ (Ez (P / Qd) e - e)) <= 2 ^ 53.
Proof.
  intros HP HQ He.
  pose proof (Ez_ge (P / Qd) e) as [_ HEg].
  assert (0 <= P / Qd) as Hm by (apply Z.div_pos; lia).
  pose proof (Zdigits2_bound _ Hm) as Hdig.
  pose proof (Zdigits2_nonneg (P / Qd)) as Hdn.
  assert (0 < 2 ^ (Ez (P / Qd) e - e)) as Hpw by (apply Z.pow_pos_nonneg; lia).
  pose proof (div_half_even_floor P (Qd * 2 ^ (Ez (P / Qd) e - e)) HP ltac:(nia)) as Hfl.
  assert (P / (Qd * 2 ^ (Ez (P / Qd) e - e)) < 2 ^ 53) as Hlt.
  { rewrite <- Z.div_div by lia.
    apply Z.div_lt_upper_bound; [lia | ].
    rewrite <- Z.pow_add_r by lia.
    apply Z.lt_le_trans with (1 := Hdig).
    apply Z.pow_le_mono_r; lia. }
  assert (0 <= P / (Qd * 2 ^ (Ez (P / Qd) e - e))) by (apply Z.div_pos; nia).
  lia.
Qed.

(** Rounding keeps the order of the values. *)
Lemma binary_round_aux_mono P1 Q1 e1 P2 Q2 e2 :
  0 <= P1 -> 0 < Q1 -> 0 <= P2 -> 0 < Q2 ->
  e1 <= Ez (P1 / Q1) e1 -> e2 <= Ez (P2 / Q2) e2 ->
  vle P1 Q1 e1 P2 Q2 e2 ->
  leb (binary_round_aux prec emax false (P1 / Q1) e1 (loc_of (P1 mod Q1) Q1))
      (binary_round_aux prec emax false (P2 / Q2) e2 (loc_of (P2 mod Q2) Q2))
  = true.
Proof.
  intros HP1 HQ1 HP2 HQ2 He1 He2 Hv.
  rewrite !binary_round_aux_exact by assumption.
  pose proof (Ez_mono _ _ _ _ _ _ HP1 HQ1 HP2 HQ2 He1 Hv) as HE.
  set (E1 := Ez (P1 / Q1) e1) in *. set (E2 := Ez (P2 / Q2) e2) in *.
  assert (0 < 2 ^ (E1 - e1)) as Hp1 by (apply Z.pow_pos_nonneg; lia).
  assert (0 < 2 ^ (E2 - e2)) as Hp2 by (apply Z.pow_pos_nonneg; lia).
  apply fin_mono; try (apply div_half_even_bounds; assumption).
  destruct (Z.eq_dec E1 E2) as [Heq | Hne].
  - right. split; [exact Heq | ].
    apply div_half_even_mono; try nia.
    fold E1 E2. rewrite Heq. apply same_E_cross; try lia. exact Hv.
  - left. split; [lia | ].
    apply normal_big; try assumption. fold E2.
    pose proof (Ez_ge (P1 / Q1) e1) as [HE1 _]. fold E1 in HE1. lia.
Qed.

End RoundMono.

(* ------------------------------------------------------------------ *)
(** * The order of rounded results *)

Section Operations.

Import B64 B64Facts Format.

Lemma Ez_pos m e : Ez (Zpos m) e = E_of m e.
Proof. reflexivity. Qed.

Lemma vle_exact m1 e1 m2 e2 :
  vle m1 1 e1 m2 1 e2 <->
  (inject_Z m1 * pow2 e1 <= inject_Z m2 * pow2 e2)%Q.
Proof.
  unfold vle. change (inject_Z 1) with 1%Q. rewrite !Qmult_1_r. tauto.
Qed.

Lemma binary_round_aux_mono_exact m1 e1 m2 e2 :
  e1 <= E_of m1 e1 -> e2 <= E_of m2 e2 ->
  (inject_Z (Zpos m1) * pow2 e1 <= inject_Z (Zpos m2) * pow2 e2)%Q ->
  leb (binary_round_aux prec emax false (Zpos m1) e1 loc_Exact)
      (binary_round_aux prec emax false (Zpos m2) e2 loc_Exact) = true.
Proof.
  intros He1 He2 Hv.
  pose proof (binary_round_aux_mono (Zpos m1) 1 e1 (Zpos m2) 1 e2) as H.
  rewrite !Z.div_1_r, !Z.mod_1_r in H.
  apply H; try lia; try assumption. now apply vle_exact.
Qed.

Lemma scale_value m e z :
  z <= e -> (inject_Z (m * 2 ^ (e - z)) * pow2 z == inject_Z m * pow2 e)%Q.
Proof.
  intros H. rewrite inject_Z_mult, pow2_Z by lia.
  rewrite <- Qmult_assoc, <- pow2_add. f_equiv. f_equiv. lia.
Qed.

Lemma binary_round_mono d1 e1 d2 e2 :
  (inject_Z (Zpos d1) * pow2 e1 <= inject_Z (Zpos d2) * pow2 e2)%Q ->
  leb (binary_round prec emax false d1 e1) (binary_round prec emax false d2 e2)
  = true.
Proof.
  intros Hv.
  destruct (binary_round_aligned false d1 e1) as (m1 & z1 & -> & Hz1 & _ & Hl1 & Hv1).
  destruct (binary_round_aligned false d2 e2) as (m2 & z2 & -> & Hz2 & _ & Hl2 & Hv2).
  apply binary_round_aux_mono_exact; auto.
  rewrite Hv1, Hv2, !scale_value by lia. exact Hv.
Qed.

(** *** The results are well-formed *)

Lemma fin_valid s n E :
  0 <= n <= 2 ^ 53 -> -1074 <= E -> (-1074 < E -> 2 ^ 52 <= n) ->
  valid (fin s n E) = true.
Proof.
  intros Hn HE Hbig. unfold fin, finish.
  destruct (Z.eqb_spec n (2 ^ 53)) as [-> | Hne].
  - change (2 ^ 52) with (Zpos (2 ^ 52)). cbv iota.
    destruct (Z.leb_spec (E + 1) (emax - prec)) as [Hle | ]; [ | reflexivity].
    unfold valid, valid_binary, bounded, canonical_mantissa.
    apply andb_true_intro. split; [ | apply Z.leb_le; exact Hle].
    apply Z.eqb_eq. change (Zpos (digits2_pos (2 ^ 52))) with 53.
    unfold fexp, emin, prec, emax. lia.
  - destruct n as [ | p | p ]; [reflexivity | | lia].
    destruct (Z.leb_spec E (emax - prec)) as [Hle | ]; [ | reflexivity].
    unfold valid, valid_binary, bounded, canonical_mantissa.
    apply andb_true_intro. split; [ | apply Z.leb_le; exact Hle].
    apply Z.eqb_eq. fold (dig p).
    assert (dig p <= 53) as Hd by (apply dig_le; lia).
    destruct (Z.eq_dec E (-1074)) as [-> | HnE].
    + unfold fexp, emin, prec, emax. lia.
    + assert (dig p = 53) as ->.
      { apply dig_unique. split; [apply Hbig; lia | lia]. }
      unfold fexp, emin, prec, emax. lia.
Qed.

Lemma binary_round_aux_valid s P Qd e :
  0 <= P -> 0 < Qd -> e <= Ez (P / Qd) e ->
  valid (binary_round_aux prec emax s (P / Qd) e (loc_of (P mod Qd) Qd)) = true.
Proof.
  intros HP HQ He. rewrite binary_round_aux_exact by assumption.
  apply fin_valid.
  - now apply div_half_even_bounds.
  - apply Ez_ge.
  - intros HE. now apply normal_big.
Qed.

Lemma binary_round_aux_valid_exact s m e :
  e <= E_of m e ->
  valid (binary_round_aux prec emax s (Zpos m) e loc_Exact) = true.
Proof.
  intros He. pose proof (binary_round_aux_valid s (Zpos m) 1 e) as H.
  rewrite !Z.div_1_r, !Z.mod_1_r in H. apply H; try lia. exact He.
Qed.

Lemma binary_round_valid s d e : valid (binary_round prec emax s d e) = true.
Proof.
  destruct (binary_round_aligned s d e) as (m & z & -> & Hz & _).
  now apply binary_round_aux_valid_exact.
Qed.

(** A well-formed float is its own rounding. *)
Lemma binary_round_id m e :
  bounded prec emax m e = true ->
  binary_round prec emax false m e = S754_finite false m e.
Proof.
  intros Hb. destruct (bounded_facts m e Hb) as (Hc & Hmax & Hdig & Hmin & _).
  unfold binary_round. fold (dig m). fold (E_of m e). rewrite Hc.
  rewrite shl_align_same by lia.
  pose proof (binary_round_aux_exact false (Zpos m) 1 e) as H.
  rewrite !Z.div_1_r, !Z.mod_1_r, Ez_pos, Hc in H.
  change (loc_of 0 1) with loc_Exact in H.
  rewrite H by lia. clear H.
  rewrite Z.sub_diag, Z.pow_0_r, Z.mul_1_l.
  unfold div_half_even. rewrite Z.div_1_r, Z.mod_1_r. cbn [Z.mul Z.compare].
  unfold fin, finish.
  pose proof (dig_bounds m) as [_ Hu].
  assert (Zpos m < 2 ^ 53) as Hlt.
  { apply Z.lt_le_trans with (1 := Hu). apply Z.pow_le_mono_r; lia. }
  destruct (Z.eqb_spec (Zpos m) (2 ^ 53)); [lia | ].
  replace (e <=? emax - prec) with true; [reflexivity | ].
  symmetry. apply Z.leb_le. unfold emax, prec. lia.
Qed.

(** *** The order of well-formed floats is the order of their values *)

Lemma leb_value mx ex my ey :
  bounded prec emax mx ex = true -> bounded prec emax my ey = true ->
  leb (S754_finite false mx ex) (S754_finite false my ey) = true <->
  (inject_Z (Zpos mx) * pow2 ex <= inject_Z (Zpos my) * pow2 ey)%Q.
Proof.
  intros Hx Hy.
  rewrite <- (binary_round_id mx ex Hx) at 1.
  rewrite <- (binary_round_id my ey Hy) at 1.
  split; [ | apply binary_round_mono].
  rewrite !binary_round_id by assumption.
  intros Hle.
  destruct (Qlt_le_dec (inject_Z (Zpos my) * pow2 ey) (inject_Z (Zpos mx) * pow2 ex))
    as [Hlt | ]; [exfalso | assumption].
  assert (leb (S754_finite false my ey) (S754_finite false mx ex) = true) as Hge.
  { rewrite <- (binary_round_id mx ex Hx), <- (binary_round_id my ey Hy).
    apply binary_round_mono. apply Qlt_le_weak. exact Hlt. }
  assert (ex = ey /\ mx = my) as [-> ->].
  { revert Hle Hge. unfold leb, SFleb. cbn. intros. cmp_cases. }
  revert Hlt. apply Qlt_irrefl.
Qed.

End Operations.

(* ------------------------------------------------------------------ *)
(** * The float operations keep the order *)

Section FloatOrder.

Import B64 B64Facts Format.

Lemma leb_zero_nonneg s z : nonneg z = true -> leb (S754_zero s) z = true.
Proof. destruct z as [ [ | ] | [ | ] | | [ | ] m e]; cbn; congruence. Qed.

Lemma nonneg_leb_inf z : nonneg z = true -> leb z (S754_infinity false) = true.
Proof. destruct z as [ [ | ] | [ | ] | | [ | ] m e]; cbn; congruence. Qed.

Lemma nonneg_trans x y : nonneg x = true -> leb x y = true -> nonneg y = true.
Proof. unfold nonneg. apply leb_trans. Qed.

Lemma value_pos m e : (0 < inject_Z (Zpos m) * pow2 e)%Q.
Proof.
  apply Qmult_lt_0_compat; [ | apply pow2_pos].
  change 0%Q with (inject_Z 0). rewrite <- Zlt_Qlt. lia.
Qed.

(** *** Multiplication by a constant *)

Lemma normal_pos_cases c :
  is_normal_pos c = true ->
  exists mc ec, c = S754_finite false mc ec /\
    bounded prec emax mc ec = true /\ dig mc = 53.
Proof.
  destruct c as [ | | | [ | ] mc ec]; try discriminate. cbn.
  intros H. apply andb_prop in H as [Hb He]. apply Z.ltb_lt in He.
  exists mc, ec. split; [reflexivity | ]. split; [exact Hb | ].
  destruct (bounded_facts mc ec Hb) as (_ & _ & Hd & _ & Hn).
  apply dig_unique. specialize (Hn He). pose proof (dig_bounds mc) as [_ Hu].
  split; [exact Hn | ].
  apply Z.lt_le_trans with (1 := Hu). apply Z.pow_le_mono_r; lia.
Qed.

Lemma mul_exponent_ok mx ex mc ec :
  dig mc = 53 -> ex + ec <= E_of (mx * mc) (ex + ec).
Proof.
  intros Hd.
  assert (53 <= dig (mx * mc)) as H.
  { pose proof (dig_bounds mc) as [Hl _]. pose proof (dig_bounds (mx * mc)) as [_ Hu].
    rewrite Hd in Hl. rewrite Pos2Z.inj_mul in Hu.
    assert (2 ^ 52 < 2 ^ dig (mx * mc)) as Hlt by nia.
    apply Z.pow_lt_mono_r_iff in Hlt; [lia | lia | ].
    pose proof (dig_pos (mx * mc)). lia. }
  unfold E_of, fexp, emin, prec, emax. lia.
Qed.

Lemma mul_valid x c :
  valid x = true -> is_normal_pos c = true -> valid (mul x c) = true.
Proof.
  intros Hx Hc. destruct (normal_pos_cases c Hc) as (mc & ec & -> & Hb & Hd).
  destruct x as [s | s | | s mx ex]; try reflexivity.
  unfold mul, SFmul. apply binary_round_aux_valid_exact.
  now apply mul_exponent_ok.
Qed.

Lemma mul_mono x y c :
  valid x = true -> valid y = true -> nonneg x = true -> leb x y = true ->
  is_normal_pos c = true ->
  leb (mul x c) (mul y c) = true.
Proof.
  intros Hvx Hvy Hx Hxy Hc.
  pose proof (nonneg_trans _ _ Hx Hxy) as Hy.
  assert (nonneg (mul y c) = true) as Hyc.
  { apply mul_nonneg; [exact Hy | ]. destruct c as [ | | | [ | ] ? ?]; try discriminate.
    reflexivity. }
  destruct (normal_pos_cases c Hc) as (mc & ec & -> & Hb & Hd).
  destruct (nonneg_cases x Hx) as [[sx ->] | [-> | (mx & ex & ->)]].
  - change (mul (S754_zero sx) (S754_finite false mc ec))
      with (S754_zero (xorb sx false)).
    apply leb_zero_nonneg. exact Hyc.
  - destruct (nonneg_cases y Hy) as [[sy ->] | [-> | (my & ey & ->)]];
      try discriminate. reflexivity.
  - destruct (nonneg_cases y Hy) as [[sy ->] | [-> | (my & ey & ->)]].
    + discriminate.
    + change (mul (S754_infinity false) (S754_finite false mc ec))
        with (S754_infinity false).
      apply nonneg_leb_inf. apply mul_nonneg; [exact Hx | reflexivity].
    + unfold mul, SFmul. cbn [xorb].
      apply binary_round_aux_mono_exact; try (now apply mul_exponent_ok).
      apply (leb_value mx ex my ey Hvx Hvy) in Hxy.
      rewrite !Pos2Z.inj_mul, !inject_Z_mult, !pow2_add.
      pose proof (value_pos mc ec) as Hpos.
      setoid_replace (inject_Z (Zpos mx) * inject_Z (Zpos mc) * (pow2 ex * pow2 ec))%Q
        with ((inject_Z (Zpos mx) * pow2 ex) * (inject_Z (Zpos mc) * pow2 ec))%Q by ring.
      setoid_replace (inject_Z (Zpos my) * inject_Z (Zpos mc) * (pow2 ey * pow2 ec))%Q
        with ((inject_Z (Zpos my) * pow2 ey) * (inject_Z (Zpos mc) * pow2 ec))%Q by ring.
      apply Qmult_le_compat_r; [exact Hxy | apply Qlt_le_weak; exact Hpos].
Qed.

(** *** Addition *)

Lemma add_comm x y : add x y = add y x.
Proof.
  destruct x as [ [ | ] | [ | ] | | sx mx ex];
    destruct y as [ [ | ] | [ | ] | | sy my ey]; try reflexivity.
  unfold add, SFadd. rewrite Z.min_comm, Z.add_comm. reflexivity.
Qed.

Lemma add_finite ma ea mb eb :
  exists d ez,
    add (S754_finite false ma ea) (S754_finite false mb eb)
    = binary_round prec emax false d ez /\
    (inject_Z (Zpos d) * pow2 ez
     == inject_Z (Zpos ma) * pow2 ea + inject_Z (Zpos mb) * pow2 eb)%Q.
Proof.
  unfold add, SFadd. cbn [cond_Zopp].
  set (ez := Z.min ea eb).
  destruct (shl_align_value ma ea ez ltac:(lia)) as [Ha _].
  destruct (shl_align_value mb eb ez ltac:(lia)) as [Hb _].
  exists (fst (shl_align ma ea ez) + fst (shl_align mb eb ez))%positive, ez.
  split; [reflexivity | ].
  rewrite Pos2Z.inj_add, inject_Z_plus, Ha, Hb, Qmult_plus_distr_l.
  rewrite !scale_value by lia. reflexivity.
Qed.

Lemma add_valid x y :
  valid x = true -> valid y = true -> valid (add x y) = true.
Proof.
  intros Hx Hy.
  destruct x as [ [ | ] | [ | ] | | sx mx ex];
    destruct y as [ [ | ] | [ | ] | | sy my ey]; try reflexivity; try assumption.
  unfold add, SFadd.
  match goal with
  | |- context [binary_normalize _ _ ?z] => destruct z
  end; cbn [binary_normalize]; [reflexivity | | ]; apply binary_round_valid.
Qed.

Lemma add_zero_l s y :
  nonneg y = true -> exists y', add (S754_zero s) y = y' /\
    leb y y' = true /\ leb y' y = true.
Proof.
  intros Hy. eexists. split; [reflexivity | ].
  destruct (nonneg_cases y Hy) as [[sy ->] | [-> | (my & ey & ->)]].
  - destruct s, sy; split; reflexivity.
  - split; reflexivity.
  - cbn [add SFadd]. split; apply leb_refl; reflexivity.
Qed.

Lemma add_mono_l a a' b :
  valid a = true -> valid a' = true -> valid b = true ->
  nonneg a = true -> nonneg b = true -> leb a a' = true ->
  leb (add a b) (add a' b) = true.
Proof.
  intros Hva Hva' Hvb Ha Hb Haa'.
  pose proof (nonneg_trans _ _ Ha Haa') as Ha'.
  pose proof (add_nonneg a' b Ha' Hb) as Hsum'.
  destruct (nonneg_cases b Hb) as [[sb ->] | [-> | (mb & eb & ->)]].
  - (* adding a zero *)
    rewrite (add_comm a), (add_comm a').
    destruct (add_zero_l sb a Ha) as (x & -> & _ & Hx).
    destruct (add_zero_l sb a' Ha') as (x' & -> & Hx' & _).
    eapply leb_trans; [exact Hx | ]. eapply leb_trans; [exact Haa' | exact Hx'].
  - (* adding infinity *)
    destruct (nonneg_cases a Ha) as [[sa ->] | [-> | (ma & ea & ->)]];
      destruct (nonneg_cases a' Ha') as [[sa' ->] | [-> | (ma' & ea' & ->)]];
      reflexivity.
  - destruct (nonneg_cases a Ha) as [[sa ->] | [-> | (ma & ea & ->)]];
      destruct (nonneg_cases a' Ha') as [[sa' ->] | [-> | (ma' & ea' & ->)]];
      try discriminate; try reflexivity.
    + cbn [add SFadd]. apply leb_refl. reflexivity.
    + change (add (S754_zero sa) (S754_finite false mb eb))
        with (S754_finite false mb eb).
      rewrite <- (binary_round_id mb eb Hvb) at 1.
      destruct (add_finite ma' ea' mb eb) as (d & ez & -> & Hd).
      apply binary_round_mono. rewrite Hd.
      pose proof (value_pos ma' ea'). lra.
    + change (add (S754_infinity false) (S754_finite false mb eb))
        with (S754_infinity false).
      apply nonneg_leb_inf. now apply add_nonneg.
    + destruct (add_finite ma ea mb eb) as (d & ez & -> & Hd).
      destruct (add_finite ma' ea' mb eb) as (d' & ez' & -> & Hd').
      apply binary_round_mono. rewrite Hd, Hd'.
      apply (leb_value ma ea ma' ea' Hva Hva') in Haa'. lra.
Qed.

Lemma add_mono a a' b b' :
  valid a = true -> valid a' = true -> valid b = true -> valid b' = true ->
  nonneg a = true -> nonneg b = true ->
  leb a a' = true -> leb b b' = true ->
  leb (add a b) (add a' b') = true.
Proof.
  intros Hva Hva' Hvb Hvb' Ha Hb Haa' Hbb'.
  pose proof (nonneg_trans _ _ Ha Haa') as Ha'.
  apply leb_trans with (add a' b).
  - apply add_mono_l; assumption.
  - rewrite (add_comm a' b), (add_comm a' b').
    apply add_mono_l; assumption.
Qed.

(** *** The conversion of an int *)

Lemma Z2F_valid z : valid (Z2F z) = true.
Proof.
  unfold Z2F. destruct z; cbn [binary_normalize]; [reflexivity | | ];
    apply binary_round_valid.
Qed.

Lemma Z2F_mono a b : 0 <= a <= b -> leb (Z2F a) (Z2F b) = true.
Proof.
  intros H. unfold Z2F.
  destruct a as [ | pa | pa ]; [ | | lia]; destruct b as [ | pb | pb ]; try lia;
    cbn [binary_normalize]; try reflexivity.
  - apply leb_zero_nonneg. apply sign_false_nonneg. apply binary_round_sign.
  - apply binary_round_mono.
    apply Qmult_le_compat_r; [ | apply Qlt_le_weak; apply pow2_pos].
    rewrite <- Zle_Qle. lia.
Qed.

(** *** Division by a positive float *)

Lemma div_core_spec mx ex mc ec :
  let e' := Z.min (fexp prec emax (dig mx + ex - (dig mc + ec))) (ex - ec) in
  let P := Zpos mx * 2 ^ (ex - ec - e') in
  SFdiv_core_binary prec emax (Zpos mx) ex (Zpos mc) ec
  = (P / Zpos mc, e', loc_of (P mod Zpos mc) (Zpos mc)) /\
  e' <= Ez (P / Zpos mc) e' /\ e' <= ex - ec /\ 0 < P.
Proof.
  intros e' P.
  assert (e' <= ex - ec) as Hle by (unfold e'; lia).
  assert (0 < 2 ^ (ex - ec - e')) as Hpw by (apply Z.pow_pos_nonneg; lia).
  assert (0 < P) as HP by (unfold P; nia).
  split; [ | split; [ | split; [exact Hle | exact HP] ] ].
  - unfold SFdiv_core_binary. cbn [Zdigits2]. fold (dig mx). fold (dig mc).
    fold e'.
    assert (match ex - ec - e' with
            | 0 => Zpos mx
            | Zpos _ => Z.shiftl (Zpos mx) (ex - ec - e')
            | Zneg _ => 0
            end = P) as ->.
    { unfold P. destruct (ex - ec - e') as [ | p | p ] eqn:Hs.
      - rewrite Z.pow_0_r. lia.
      - rewrite Z.shiftl_mul_pow2 by lia. reflexivity.
      - lia. }
    pose proof (Z.mod_pos_bound P (Zpos mc) ltac:(lia)) as Hr.
    unfold Z.div, Z.modulo in *.
    destruct (Z.div_eucl P (Zpos mc)) as [q r].
    rewrite new_location_loc_of by lia. reflexivity.
  - pose proof (Ez_ge (P / Zpos mc) e') as [HE1 HE2].
    destruct (Z_le_gt_dec e' (-1074)) as [ | Hgt]; [lia | ].
    assert (e' <= dig mx + ex - (dig mc + ec) - 53) as He'.
    { unfold e', fexp, emin, prec, emax in *. lia. }
    assert (2 ^ 52 <= P / Zpos mc) as Hq.
    { apply Z.div_le_lower_bound; [lia | ].
      pose proof (dig_bounds mx) as [Hl _]. pose proof (dig_bounds mc) as [_ Hu].
      pose proof (dig_pos mx). pose proof (dig_pos mc).
      assert (2 ^ (dig mc + 52) <= 2 ^ (dig mx - 1 + (ex - ec - e'))) as Hp
        by (apply Z.pow_le_mono_r; lia).
      rewrite !Z.pow_add_r in Hp by lia. unfold P. nia. }
    assert (53 <= Zdigits2 (P / Zpos mc)) as Hd.
    { pose proof (Zdigits2_bound (P / Zpos mc) ltac:(lia)) as Hb.
      pose proof (Zdigits2_nonneg (P / Zpos mc)).
      assert (2 ^ 52 < 2 ^ Zdigits2 (P / Zpos mc)) as Hlt by lia.
      apply Z.pow_lt_mono_r_iff in Hlt; lia. }
    lia.
Qed.

Lemma div_finite s mx ex mc ec :
  let e' := Z.min (fexp prec emax (dig mx + ex - (dig mc + ec))) (ex - ec) in
  let P := Zpos mx * 2 ^ (ex - ec - e') in
  div (S754_finite s mx ex) (S754_finite false mc ec)
  = binary_round_aux prec emax s (P / Zpos mc) e'
      (loc_of (P mod Zpos mc) (Zpos mc)).
Proof.
  intros e' P. destruct (div_core_spec mx ex mc ec) as (Hcore & _).
  fold e' P in Hcore. unfold div, SFdiv. rewrite Hcore.
  rewrite xorb_false_r. reflexivity.
Qed.

Lemma div_valid x c :
  valid x = true -> is_pos_finite c = true -> valid (div x c) = true.
Proof.
  intros Hx Hc. destruct c as [ | | | [ | ] mc ec]; try discriminate.
  destruct x as [s | s | | s mx ex]; try reflexivity.
  rewrite div_finite.
  destruct (div_core_spec mx ex mc ec) as (_ & He & _ & HP).
  apply binary_round_aux_valid; lia.
Qed.

Lemma div_mono x y c :
  valid x = true -> valid y = true -> nonneg x = true -> leb x y = true ->
  is_pos_finite c = true ->
  leb (div x c) (div y c) = true.
Proof.
  intros Hvx Hvy Hx Hxy Hc.
  pose proof (nonneg_trans _ _ Hx Hxy) as Hy.
  pose proof (div_nonneg y c Hy Hc) as Hyc.
  pose proof (div_nonneg x c Hx Hc) as Hxc.
  destruct c as [ | | | [ | ] mc ec]; try discriminate.
  destruct (nonneg_cases x Hx) as [[sx ->] | [-> | (mx & ex & ->)]].
  - change (div (S754_zero sx) (S754_finite false mc ec))
      with (S754_zero (xorb sx false)).
    apply leb_zero_nonneg. exact Hyc.
  - destruct (nonneg_cases y Hy) as [[sy ->] | [-> | (my & ey & ->)]];
      try discriminate. reflexivity.
  - destruct (nonneg_cases y Hy) as [[sy ->] | [-> | (my & ey & ->)]].
    + discriminate.
    + change (div (S754_infinity false) (S754_finite false mc ec))
        with (S754_infinity false).
      apply nonneg_leb_inf. exact Hxc.
    + rewrite !div_finite.
      destruct (div_core_spec mx ex mc ec) as (_ & He1 & Hl1 & HP1).
      destruct (div_core_spec my ey mc ec) as (_ & He2 & Hl2 & HP2).
      apply binary_round_aux_mono; try lia; try assumption.
      unfold vle. rewrite !scale_value by assumption.
      apply (leb_value mx ex my ey Hvx Hvy) in Hxy.
      replace (ex - ec) with (ex + - ec) by lia.
      replace (ey - ec) with (ey + - ec) by lia.
      rewrite !pow2_add.
      assert (0 < pow2 (- ec) * inject_Z (Zpos mc))%Q as Hpos.
      { apply Qmult_lt_0_compat; [apply pow2_pos | ].
        change 0%Q with (inject_Z 0). rewrite <- Zlt_Qlt. lia. }
      setoid_replace (inject_Z (Zpos mx) * (pow2 ex * pow2 (- ec)) * inject_Z (Zpos mc))%Q
        with ((inject_Z (Zpos mx) * pow2 ex) * (pow2 (- ec) * inject_Z (Zpos mc)))%Q by ring.
      setoid_replace (inject_Z (Zpos my) * (pow2 ey * pow2 (- ec)) * inject_Z (Zpos mc))%Q
        with ((inject_Z (Zpos my) * pow2 ey) * (pow2 (- ec) * inject_Z (Zpos mc)))%Q by ring.
      apply Qmult_le_compat_r; [exact Hxy | apply Qlt_le_weak; exact Hpos].
Qed.

(** *** Subtraction from the baseline *)

Lemma ltb_leb_trans a b c :
  ltb a b = true -> leb b c = true -> ltb a c = true.
Proof.
  destruct a as [ [ | ] | [ | ] | | [ | ] ma ea];
    destruct b as [ [ | ] | [ | ] | | [ | ] mb eb];
    destruct c as [ [ | ] | [ | ] | | [ | ] mc ec];
    unfold ltb, leb, SFltb, SFleb; cbn; try congruence; cmp_cases.
Qed.

Lemma sub_finite mb eb mt et :
  exists d ez,
    sub (S754_finite false mb eb) (S754_finite false mt et)
    = binary_normalize prec emax d ez false /\
    (inject_Z d * pow2 ez
     == inject_Z (Zpos mb) * pow2 eb - inject_Z (Zpos mt) * pow2 et)%Q.
Proof.
  unfold sub, SFsub. cbn [cond_Zopp].
  set (ez := Z.min eb et).
  destruct (shl_align_value mb eb ez ltac:(lia)) as [Hb _].
  destruct (shl_align_value mt et ez ltac:(lia)) as [Ht _].
  eexists _, ez. split; [reflexivity | ].
  unfold Z.sub. rewrite inject_Z_plus, inject_Z_opp, Hb, Ht.
  rewrite Qmult_plus_distr_l.
  setoid_replace (- inject_Z (Zpos mt * 2 ^ (et - ez)) * pow2 ez)%Q
    with (- (inject_Z (Zpos mt * 2 ^ (et - ez)) * pow2 ez))%Q by ring.
  rewrite !scale_value by lia. reflexivity.
Qed.

Lemma normalize_positive d ez :
  ltb pos_zero (binary_normalize prec emax d ez false) = true -> 0 < d.
Proof.
  destruct d as [ | p | p ]; cbn [binary_normalize]; [discriminate | lia | ].
  intros H. pose proof (binary_round_sign true p ez) as Hs.
  destruct (binary_round prec emax true p ez) as [ [ | ] | [ | ] | | [ | ] m e];
    discriminate.
Qed.

Lemma sub_antitone b t t' :
  valid b = true -> valid t = true -> valid t' = true ->
  ltb pos_zero b = true -> nonneg t = true -> leb t t' = true ->
  ltb pos_zero (sub b t') = true ->
  leb (sub b t') (sub b t) = true.
Proof.
  intros Hvb Hvt Hvt' Hb Ht Htt' Hpos.
  pose proof (nonneg_trans _ _ Ht Htt') as Ht'.
  destruct b as [sb | [ | ] | | [ | ] mb eb]; try discriminate.
  - (* an infinite baseline *)
    destruct (nonneg_cases t' Ht') as [[s' ->] | [-> | (mt' & et' & ->)]];
      try discriminate;
      destruct (nonneg_cases t Ht) as [[s ->] | [-> | (mt & et & ->)]];
      try discriminate; reflexivity.
  - destruct (nonneg_cases t' Ht') as [[s' ->] | [-> | (mt' & et' & ->)]].
    + destruct (nonneg_cases t Ht) as [[s ->] | [-> | (mt & et & ->)]];
        try discriminate.
      change (sub (S754_finite false mb eb) (S754_zero s'))
        with (S754_finite false mb eb).
      change (sub (S754_finite false mb eb) (S754_zero s))
        with (S754_finite false mb eb).
      apply leb_refl. reflexivity.
    + discriminate.
    + destruct (nonneg_cases t Ht) as [[s ->] | [-> | (mt & et & ->)]].
      * change (sub (S754_finite false mb eb) (S754_zero s))
          with (S754_finite false mb eb).
        apply sub_below; auto.
      * discriminate.
      * destruct (sub_finite mb eb mt' et') as (d' & ez' & Hs' & Hd').
        destruct (sub_finite mb eb mt et) as (d & ez & Hs & Hd).
        rewrite Hs' in *. rewrite Hs.
        pose proof (normalize_positive d' ez' Hpos) as Hd'pos.
        apply (leb_value mt et mt' et' Hvt Hvt') in Htt'.
        assert (0 < inject_Z d' * pow2 ez')%Q as Hv'.
        { apply Qmult_lt_0_compat; [ | apply pow2_pos].
          change 0%Q with (inject_Z 0). rewrite <- Zlt_Qlt. lia. }
        assert (inject_Z d' * pow2 ez' <= inject_Z d * pow2 ez)%Q as Hle
          by (rewrite Hd, Hd'; lra).
        assert (0 < d) as Hdpos.
        { destruct (Z_lt_le_dec 0 d) as [ | Hneg]; [assumption | exfalso].
          assert (inject_Z d * pow2 ez <= 0)%Q as Hn.
          { setoid_replace 0%Q with (0 * pow2 ez)%Q by ring.
            apply Qmult_le_compat_r; [ | apply Qlt_le_weak; apply pow2_pos].
            change 0%Q with (inject_Z 0). rewrite <- Zle_Qle. lia. }
          lra. }
        destruct d' as [ | p' | p' ]; try lia. destruct d as [ | p | p ]; try lia.
        cbn [binary_normalize]. apply binary_round_mono. exact Hle.
Qed.

Lemma potential_credits_antitone (b t t' : f64) :
  valid b = true -> valid t = true -> valid t' = true ->
  fle zero t -> fle t t' ->
  fle (potential_credits b t') (potential_credits b t).
Proof.
  unfold fle. rewrite zero_is_pos_zero. intros Hvb Hvt Hvt' Ht Htt'.
  rewrite !potential_credits_cases.
  destruct (ltb pos_zero b) eqn:Hb; [ | reflexivity].
  cbn [nsub b64_arith].
  destruct (ltb pos_zero (sub b t')) eqn:Hd'.
  - pose proof (sub_antitone b t t' Hvb Hvt Hvt' Hb Ht Htt' Hd') as Hle.
    rewrite (ltb_leb_trans _ _ _ Hd' Hle). exact Hle.
  - destruct (ltb pos_zero (sub b t)) eqn:Hd; [ | reflexivity].
    apply ltb_leb. exact Hd.
Qed.

End FloatOrder.

(* ------------------------------------------------------------------ *)
(** * More activity, more emissions *)

Ltac factor_normal :=
  match goal with
  | |- is_normal_pos ?c = true => vm_compute; reflexivity
  end.

Section Monotone.

Import B64 B64Facts.

Local Open Scope num_scope.

Lemma grows_intro x y :
  valid x = true -> valid y = true -> nonneg x = true -> leb x y = true ->
  grows x y.
Proof.
  intros. unfold grows, fle. rewrite zero_is_pos_zero. auto.
Qed.

Lemma grows_elim x y :
  grows x y ->
  valid x = true /\ valid y = true /\ nonneg x = true /\ leb x y = true /\
  nonneg y = true.
Proof.
  unfold grows, fle. rewrite zero_is_pos_zero. intros (H1 & H2 & H3 & H4).
  repeat split; auto. eapply nonneg_trans; eauto.
Qed.

Lemma grows_refl x : valid x = true -> fle zero x -> grows x x.
Proof.
  intros Hv Hx. unfold grows. repeat split; auto.
  unfold fle in *. rewrite zero_is_pos_zero in Hx. apply leb_refl.
  destruct x; try reflexivity. discriminate.
Qed.

Lemma normal_pos_finite c : is_normal_pos c = true -> is_pos_finite c = true.
Proof. destruct c as [ | | | [ | ] m e]; try discriminate. reflexivity. Qed.

Lemma grows_mul x y c :
  grows x y -> is_normal_pos c = true -> grows (x *! c) (y *! c).
Proof.
  intros H Hc. apply grows_elim in H as (Hx & Hy & Hn & Hle & _).
  cbn [nmul b64_arith]. apply grows_intro.
  - now apply mul_valid.
  - now apply mul_valid.
  - apply mul_nonneg; [exact Hn | now apply normal_pos_finite].
  - now apply mul_mono.
Qed.

Lemma grows_add a a' b b' :
  grows a a' -> grows b b' -> grows (a +! b) (a' +! b').
Proof.
  intros Ha Hb.
  apply grows_elim in Ha as (Ha1 & Ha2 & Ha3 & Ha4 & _).
  apply grows_elim in Hb as (Hb1 & Hb2 & Hb3 & Hb4 & _).
  cbn [nadd b64_arith]. apply grows_intro.
  - now apply add_valid.
  - now apply add_valid.
  - now apply add_nonneg.
  - now apply add_mono.
Qed.

Lemma grows_div x y c :
  grows x y -> is_pos_finite c = true -> grows (ndiv x c) (ndiv y c).
Proof.
  intros H Hc. apply grows_elim in H as (Hx & Hy & Hn & Hle & _).
  cbn [ndiv b64_arith]. apply grows_intro.
  - now apply div_valid.
  - now apply div_valid.
  - now apply div_nonneg.
  - now apply div_mono.
Qed.

Lemma grows_Z2F a b : 0 <= a <= b -> grows (Z2F a) (Z2F b).
Proof.
  intros H. apply grows_intro.
  - apply Z2F_valid.
  - apply Z2F_valid.
  - apply Z2F_sign_nonneg. lia.
  - now apply Z2F_mono.
Qed.

(** *** The calculators *)

Lemma fertilizer_grows x y :
  grows x y ->
  grows (compute_fertilizer_emissions x) (compute_fertilizer_emissions y).
Proof.
  intros H. unfold compute_fertilizer_emissions.
  apply grows_mul; [apply grows_mul; [apply grows_mul | ] | ];
    try factor_normal. exact H.
Qed.

Lemma electricity_grows x y :
  grows x y ->
  grows (compute_electricity_emissions x) (compute_electricity_emissions y).
Proof.
  intros H. unfold compute_electricity_emissions.
  apply grows_mul; [exact H | factor_normal].
Qed.

Lemma fuel_grows x y fuel_type :
  grows x y ->
  grows (compute_fuel_emissions x fuel_type) (compute_fuel_emissions y fuel_type).
Proof.
  intros H. unfold compute_fuel_emissions.
  apply grows_mul; [exact H | ]. destruct (String.eqb _ _); factor_normal.
Qed.

Lemma steel_grows x y :
  grows x y ->
  grows (compute_steel_emissions x) (compute_steel_emissions y).
Proof.
  intros H. unfold compute_steel_emissions.
  apply grows_mul; [apply grows_mul | ]; try factor_normal. exact H.
Qed.

Lemma rice_value_grows a a' y y' :
  grows a a' -> grows y y' ->
  grows (ndiv (a *! of_Z 7870 +! y *! of_Z 1000 *! lit 9 1) (of_Z 2))
        (ndiv (a' *! of_Z 7870 +! y' *! of_Z 1000 *! lit 9 1) (of_Z 2)).
Proof.
  intros Ha Hy. apply grows_div; [ | factor_pos].
  apply grows_add;
    [apply grows_mul | apply grows_mul; [apply grows_mul | ] ];
    try factor_normal; assumption.
Qed.

Lemma livestock_grows h h' v' :
  0 <= h <= h' -> compute_livestock_emissions h' = Ok v' ->
  exists v, compute_livestock_emissions h = Ok v /\ grows v v'.
Proof.
  intros Hh Hv'.
  pose proof (grows_Z2F h h' Hh) as Hg.
  destruct (compute_livestock_emissions_cases h') as [[H' Hf'] | [H' _]];
    rewrite H' in Hv'; inversion Hv'; subst v'; clear Hv'.
  assert (float_of_int h = Ok (Z2F h)) as Hf.
  { unfold float_of_int in *.
    apply grows_elim in Hg as (_ & _ & Hn & Hle & _).
    destruct (Z2F h') as [ z' | i' | | s' m' e'] eqn:E'; try discriminate;
      destruct (Z2F h) as [ z | [ | ] | | s m e] eqn:E; try reflexivity;
      discriminate. }
  destruct (compute_livestock_emissions_cases h) as [[H _] | [_ H]];
    [ | congruence].
  eexists. split; [exact H | ].
  apply grows_mul; [exact Hg | factor_normal].
Qed.

(** *** Sums *)

Lemma fold_add_grows (xs ys : list f64) :
  Forall2 grows xs ys -> forall acc acc', grows acc acc' ->
  grows (fold_left nadd xs acc) (fold_left nadd ys acc').
Proof.
  induction 1 as [ | x y xs ys Hxy Hrest IH]; intros acc acc' Hacc;
    cbn [fold_left]; [exact Hacc | ].
  apply IH. now apply grows_add.
Qed.

Lemma py_sum_grows (xs ys : list f64) :
  Forall2 grows xs ys -> grows (py_sum xs) (py_sum ys).
Proof.
  intros H. unfold py_sum. apply fold_add_grows; [exact H | ].
  apply grows_refl; reflexivity.
Qed.

Lemma add_above a b :
  valid a = true -> valid b = true -> nonneg a = true -> nonneg b = true ->
  leb a (add a b) = true /\ leb b (add a b) = true.
Proof.
  intros Hva Hvb Ha Hb.
  assert (forall x y, valid x = true -> valid y = true ->
            nonneg x = true -> nonneg y = true -> leb y (add x y) = true) as H.
  { intros x y Hvx Hvy Hx Hy.
    destruct (add_zero_l false y Hy) as (y' & Hy' & Hle & _).
    apply leb_trans with (1 := Hle). rewrite <- Hy'.
    apply add_mono_l; auto. }
  split; [ | now apply H]. rewrite add_comm. now apply H.
Qed.

Lemma fold_add_above (xs : list f64) : forall acc,
  valid acc = true -> nonneg acc = true ->
  Forall (fun x => valid x = true /\ nonneg x = true) xs ->
  leb acc (fold_left nadd xs acc) = true /\
  Forall (fun x => leb x (fold_left nadd xs acc) = true) xs.
Proof.
  induction xs as [ | x xs IH]; intros acc Hv Hn Hall; cbn [fold_left].
  - split; [ | constructor]. apply leb_refl.
    destruct acc; try reflexivity. discriminate.
  - inversion Hall as [ | ? ? [Hvx Hnx] Hrest]; subst.
    cbn [nadd b64_arith].
    destruct (add_above acc x Hv Hvx Hn Hnx) as [H1 H2].
    destruct (IH (add acc x) (add_valid _ _ Hv Hvx) (add_nonneg _ _ Hn Hnx) Hrest)
      as [H3 H4].
    split; [eapply leb_trans; eauto | ].
    constructor; [eapply leb_trans; eauto | exact H4].
Qed.

Lemma grows_both x y :
  grows x y ->
  (valid x = true /\ nonneg x = true) /\ (valid y = true /\ nonneg y = true).
Proof. intros H. apply grows_elim in H. tauto. Qed.

Lemma grows_fle x y : grows x y -> fle x y.
Proof. intros (_ & _ & _ & H). exact H. Qed.

(** X10. Every calculator is non-decreasing on non-negative quantities:
    for well-formed floats [0.0 <= x <= y] the fertilizer, electricity,
    fuel (any fuel type) and steel emissions of [x] are at most those
    of [y]; the rice emissions do not decrease when the area or the
    yield grows; [kg_to_tonnes x] is at most [kg_to_tonnes y]; and a
    smaller non-negative cattle count converts whenever the larger one
    does and gives at most its emissions.  No rounding step of the
    float arithmetic reverses the order. *)
Theorem calculators_monotone (x y : f64) :
  valid x = true -> valid y = true -> fle zero x -> fle x y ->
  fle (compute_fertilizer_emissions x) (compute_fertilizer_emissions y) /\
  fle (compute_electricity_emissions x) (compute_electricity_emissions y) /\
  (forall fuel_type,
     fle (compute_fuel_emissions x fuel_type) (compute_fuel_emissions y fuel_type)) /\
  fle (compute_steel_emissions x) (compute_steel_emissions y) /\
  (forall a, valid a = true -> fle zero a ->
     exists r r' s s',
       compute_rice_emissions x a = Ok r /\ compute_rice_emissions y a = Ok r' /\
       fle r r' /\
       compute_rice_emissions a x = Ok s /\ compute_rice_emissions a y = Ok s' /\
       fle s s') /\
  (exists t t', kg_to_tonnes x = Ok t /\ kg_to_tonnes y = Ok t' /\ fle t t') /\
  (forall h h' v', 0 <= h <= h' -> compute_livestock_emissions h' = Ok v' ->
     exists v, compute_livestock_emissions h = Ok v /\ fle v v').
Proof.
  intros Hvx Hvy Hx Hxy.
  assert (grows x y) as H by (unfold grows; auto).
  split; [apply grows_fle; now apply fertilizer_grows | ].
  split; [apply grows_fle; now apply electricity_grows | ].
  split; [intros ft; apply grows_fle; now apply fuel_grows | ].
  split; [apply grows_fle; now apply steel_grows | ].
  split; [ | split].
  - intros a Hva Ha. pose proof (grows_refl a Hva Ha) as Haa.
    rewrite !compute_rice_emissions_ok. do 4 eexists.
    split; [reflexivity | ]. split; [reflexivity | ].
    split; [apply grows_fle; now apply rice_value_grows | ].
    split; [reflexivity | ]. split; [reflexivity | ].
    apply grows_fle; now apply rice_value_grows.
  - rewrite !kg_to_tonnes_ok. do 2 eexists.
    split; [reflexivity | ]. split; [reflexivity | ].
    apply grows_fle. apply grows_div; [exact H | factor_pos].
  - intros h h' v' Hh Hv'.
    destruct (livestock_grows h h' v' Hh Hv') as (v & Hv & Hg).
    exists v. split; [exact Hv | now apply grows_fle].
Qed.

Lemma calculators_monotone_witness :
  fle (compute_steel_emissions (lit 100 1)) (compute_steel_emissions (lit 105 1)).
Proof.
  refine (proj1 (proj2 (proj2 (proj2
    (calculators_monotone (lit 100 1) (lit 105 1) _ _ _ _)))));
    vm_compute; reflexivity.
Defined.

Lemma totals_grow (b : f64) (ri rj : report f64) :
  valid b = true ->
  totals_derived ri -> totals_derived rj ->
  potential_credits_t ri = potential_credits b (total_em_t ri) ->
  potential_credits_t rj = potential_credits b (total_em_t rj) ->
  Forall2 grows (em_values_kg ri) (em_values_kg rj) ->
  Forall2 fle (em_values_kg ri) (em_values_kg rj) /\
  fle (total_em_kg ri) (total_em_kg rj) /\
  fle (total_em_t ri) (total_em_t rj) /\
  fle (potential_credits_t rj) (potential_credits_t ri).
Proof.
  intros Hvb (Hkgi & _ & Hti) (Hkgj & _ & Htj) Hci Hcj Hall.
  pose proof (py_sum_grows _ _ Hall) as Hsum.
  rewrite <- Hkgi, <- Hkgj in Hsum.
  assert (grows (total_em_t ri) (total_em_t rj)) as Ht.
  { rewrite Hti, Htj. apply grows_div; [exact Hsum | factor_pos]. }
  split; [eapply Forall2_impl; [ | exact Hall]; apply grows_fle | ].
  split; [now apply grows_fle | ]. split; [now apply grows_fle | ].
  rewrite Hci, Hcj. destruct Ht as (H1 & H2 & H3 & H4).
  now apply potential_credits_antitone.
Qed.

(** X11. More activity never lowers the reported emissions and never
    raises the potential credits.  For a well-formed baseline and two
    forms of the same sector with well-formed non-negative quantities,
    the second at least the first field by field (same crop type): each
    per-source value, the total in kilograms and the total in tonnes of
    the first report are at most those of the second, and the credits
    of the second are at most those of the first.  The alloy reports
    always exist; the agriculture report of the smaller form exists
    whenever that of the larger one does.  The sum is the left-to-right
    float addition of [py_sum]. *)
Theorem more_activity_never_more_credits (baseline_tco2e : f64) :
  valid baseline_tco2e = true ->
  (forall i j, alloy_valid i -> alloy_valid j -> alloy_nonneg i -> alloy_le i j ->
     exists ri rj,
       main_alloy baseline_tco2e i = Ok ri /\
       main_alloy baseline_tco2e j = Ok rj /\
       Forall2 fle (em_values_kg ri) (em_values_kg rj) /\
       fle (total_em_kg ri) (total_em_kg rj) /\
       fle (total_em_t ri) (total_em_t rj) /\
       fle (potential_credits_t rj) (potential_credits_t ri)) /\
  (forall i j rj, agri_valid i -> agri_valid j -> agri_nonneg i -> agri_le i j ->
     main_agriculture baseline_tco2e j = Ok rj ->
     exists ri,
       main_agriculture baseline_tco2e i = Ok ri /\
       Forall2 fle (em_values_kg ri) (em_values_kg rj) /\
       fle (total_em_kg ri) (total_em_kg rj) /\
       fle (total_em_t ri) (total_em_t rj) /\
       fle (potential_credits_t rj) (potential_credits_t ri)).
Proof.
  intros Hvb. split.
  - intros i j (Vi1 & Vi2 & Vi3 & Vi4) (Vj1 & Vj2 & Vj3 & Vj4)
      (N1 & N2 & N3 & N4) (L1 & L2 & L3 & L4).
    destruct (main_alloy_ok baseline_tco2e i) as (ri & Hri & _ & Hvi & Hti & Hci & _).
    destruct (main_alloy_ok baseline_tco2e j) as (rj & Hrj & _ & Hvj & Htj & Hcj & _).
    exists ri, rj. split; [exact Hri | ]. split; [exact Hrj | ].
    apply (totals_grow baseline_tco2e); auto.
    rewrite Hvi, Hvj.
    apply Forall2_cons; [apply steel_grows; unfold grows; auto | ].
    apply Forall2_cons; [apply electricity_grows; unfold grows; auto | ].
    apply Forall2_cons; [apply fuel_grows; unfold grows; auto | ].
    apply Forall2_cons; [apply fuel_grows; unfold grows; auto | ].
    apply Forall2_nil.
  - intros i j rj (Vi1 & Vi2 & Vi3 & Vi4 & Vi5 & Vi6)
      (Vj1 & Vj2 & Vj3 & Vj4 & Vj5 & Vj6)
      (N1 & N2 & N3 & N4 & N5 & N6 & N7)
      (Lc & L1 & L2 & L3 & L4 & L5 & L6 & L7) Hrj.
    destruct (main_agriculture_cases baseline_tco2e j)
      as [(rj' & vj & Hrj' & Hlj & _ & Hvj & Htj & Hcj & _) | (Hrj' & _)];
      [ | congruence].
    assert (rj' = rj) by congruence. subst rj'.
    destruct (livestock_grows (livestock_count i) (livestock_count j) vj
                ltac:(lia) Hlj) as (vi & Hli & Hgl).
    destruct (main_agriculture_cases baseline_tco2e i)
      as [(ri & vi' & Hri & Hli' & _ & Hvi & Hti & Hci & _) | (_ & Hli' & _)];
      [ | congruence].
    assert (vi' = vi) by congruence. subst vi'.
    exists ri. split; [exact Hri | ].
    apply (totals_grow baseline_tco2e); auto.
    rewrite Hvi, Hvj, <- Lc.
    apply Forall2_cons; [apply fertilizer_grows; unfold grows; auto | ].
    apply Forall2_cons; [apply fuel_grows; unfold grows; auto | ].
    apply Forall2_cons; [apply fuel_grows; unfold grows; auto | ].
    apply Forall2_cons; [apply electricity_grows; unfold grows; auto | ].
    apply Forall2_cons.
    { destruct (String.eqb (crop_type i) "Rice").
      - apply rice_value_grows; unfold grows; auto.
      - apply grows_refl; reflexivity. }
    apply Forall2_cons; [exact Hgl | apply Forall2_nil].
Qed.

Lemma more_activity_never_more_credits_witness :
  exists ri rj,
    main_alloy (lit 300 1) scenario_alloy = Ok ri /\
    main_alloy (lit 300 1)
      {| steel_prod_t := lit 105 1; elec_kwh_alloy := lit 10000 1;
         diesel_l_alloy := lit 0 1; petrol_l_alloy := lit 0 1 |} = Ok rj /\
    fle (total_em_kg ri) (total_em_kg rj) /\
    fle (potential_credits_t rj) (potential_credits_t ri).
Proof.
  assert (valid (lit 300 1) = true) as Hb by (vm_compute; reflexivity).
  destruct (proj1 (more_activity_never_more_credits (lit 300 1) Hb)
              scenario_alloy
              {| steel_prod_t := lit 105 1; elec_kwh_alloy := lit 10000 1;
                 diesel_l_alloy := lit 0 1; petrol_l_alloy := lit 0 1 |})
    as (ri & rj & Hi & Hj & _ & Hkg & _ & Hc);
    try (repeat split; vm_compute; reflexivity).
  exists ri, rj. auto.
Defined.

Lemma wellformed_values (baseline_tco2e : f64) (r : report f64) :
  submitted_wellformed baseline_tco2e r ->
  totals_derived r /\
  Forall (fun x => valid x = true /\ nonneg x = true) (em_values_kg r).
Proof.
  intros [(i & (V1 & V2 & V3 & V4 & V5 & V6) &
               (N1 & N2 & N3 & N4 & N5 & N6 & N7) & Hr)
         | (i & (V1 & V2 & V3 & V4) & (N1 & N2 & N3 & N4) & Hr)].
  - destruct (main_agriculture_cases baseline_tco2e i)
      as [(r' & v & Hr' & Hl & _ & Hv & Ht & _) | (Hr' & _)]; [ | congruence].
    assert (r' = r) by congruence. subst r'.
    split; [exact Ht | ]. rewrite Hv.
    destruct (livestock_grows (livestock_count i) (livestock_count i) v
                ltac:(lia) Hl) as (v' & Hl' & Hg).
    apply Forall_cons;
      [apply (grows_both _ _ (fertilizer_grows _ _ (grows_refl _ V3 N4))) | ].
    apply Forall_cons;
      [apply (grows_both _ _ (fuel_grows _ _ _ (grows_refl _ V4 N5))) | ].
    apply Forall_cons;
      [apply (grows_both _ _ (fuel_grows _ _ _ (grows_refl _ V5 N6))) | ].
    apply Forall_cons;
      [apply (grows_both _ _ (electricity_grows _ _ (grows_refl _ V6 N7))) | ].
    apply Forall_cons.
    { destruct (String.eqb (crop_type i) "Rice"); [ | split; reflexivity].
      apply (grows_both _ _ (rice_value_grows _ _ _ _ (grows_refl _ V1 N1)
                               (grows_refl _ V2 N2))). }
    apply Forall_cons; [apply (grows_both _ _ Hg) | apply Forall_nil].
  - destruct (main_alloy_ok baseline_tco2e i) as (r' & Hr' & _ & Hv & Ht & _).
    assert (r' = r) by congruence. subst r'.
    split; [exact Ht | ]. rewrite Hv.
    apply Forall_cons;
      [apply (grows_both _ _ (steel_grows _ _ (grows_refl _ V1 N1))) | ].
    apply Forall_cons;
      [apply (grows_both _ _ (electricity_grows _ _ (grows_refl _ V2 N2))) | ].
    apply Forall_cons;
      [apply (grows_both _ _ (fuel_grows _ _ _ (grows_refl _ V3 N3))) | ].
    apply Forall_cons;
      [apply (grows_both _ _ (fuel_grows _ _ _ (grows_refl _ V4 N4))) | ].
    apply Forall_nil.
Qed.

(** X12. In every report of a submission with well-formed non-negative
    quantities no source exceeds the total: each per-source value is at
    most [total_em_kg], in spite of the rounding of every addition of
    the sum. *)
Theorem no_source_above_total (baseline_tco2e : f64) (r : report f64) :
  submitted_wellformed baseline_tco2e r ->
  Forall (fun v => fle v (total_em_kg r)) (em_values_kg r).
Proof.
  intros H. destruct (wellformed_values _ _ H) as ((Hkg & _) & Hall).
  rewrite Hkg. unfold py_sum.
  apply (fold_add_above (em_values_kg r) (of_Z 0)); [reflexivity | reflexivity | ].
  exact Hall.
Qed.

Lemma no_source_above_total_witness :
  exists r, main_alloy zero scenario_alloy = Ok r /\
    Forall (fun v => fle v (total_em_kg r)) (em_values_kg r).
Proof.
  destruct (main_alloy_ok zero scenario_alloy) as (r & Hr & _).
  exists r. split; [exact Hr | ].
  apply (no_source_above_total zero). right. exists scenario_alloy.
  split; [ | split; [ | exact Hr] ]; repeat split; vm_compute; reflexivity.
Defined.

End Monotone.

(* ------------------------------------------------------------------ *)
(** * The credits as the baseline and the total move *)

Section CreditsOrder.

Import B64 B64Facts.

Local Open Scope num_scope.

Lemma positive_not_nan x : ltb pos_zero x = true -> is_nan x = false.
Proof. destruct x; try reflexivity. discriminate. Qed.

Lemma sub_mono_l b b' t :
  valid b = true -> valid b' = true -> valid t = true ->
  ltb pos_zero b = true -> leb b b' = true -> nonneg t = true ->
  ltb pos_zero (sub b t) = true ->
  leb (sub b t) (sub b' t) = true.
Proof.
  intros Hvb Hvb' Hvt Hb Hbb' Ht Hpos.
  pose proof (ltb_leb _ _ Hpos) as Hnn. fold (nonneg (sub b t)) in Hnn.
  destruct b as [sb | [ | ] | | [ | ] mb eb]; try discriminate.
  - (* an infinite baseline *)
    destruct b' as [sb' | [ | ] | | [ | ] mb' eb']; try discriminate.
    apply leb_refl. now apply positive_not_nan.
  - destruct b' as [sb' | [ | ] | | [ | ] mb' eb']; try discriminate.
    + (* the larger baseline is infinite *)
      destruct (nonneg_cases t Ht) as [[s ->] | [-> | (mt & et & ->)]];
        try discriminate; try reflexivity.
      change (sub (S754_infinity false) (S754_finite false mt et))
        with (S754_infinity false).
      now apply nonneg_leb_inf.
    + destruct (nonneg_cases t Ht) as [[s ->] | [-> | (mt & et & ->)]].
      * exact Hbb'.
      * discriminate.
      * destruct (sub_finite mb eb mt et) as (d & ez & Hs & Hd).
        destruct (sub_finite mb' eb' mt et) as (d' & ez' & Hs' & Hd').
        rewrite Hs in *. rewrite Hs'.
        pose proof (normalize_positive d ez Hpos) as Hdpos.
        apply (leb_value mb eb mb' eb' Hvb Hvb') in Hbb'.
        assert (0 < inject_Z d * pow2 ez)%Q as Hv.
        { apply Qmult_lt_0_compat; [ | apply pow2_pos].
          change 0%Q with (inject_Z 0). rewrite <- Zlt_Qlt. lia. }
        assert (inject_Z d * pow2 ez <= inject_Z d' * pow2 ez')%Q as Hle
          by (rewrite Hd, Hd'; lra).
        assert (0 < d') as Hd'pos.
        { destruct (Z_lt_le_dec 0 d') as [ | Hneg]; [assumption | exfalso].
          assert (inject_Z d' * pow2 ez' <= 0)%Q as Hn.
          { setoid_replace 0%Q with (0 * pow2 ez')%Q by ring.
            apply Qmult_le_compat_r; [ | apply Qlt_le_weak; apply pow2_pos].
            change 0%Q with (inject_Z 0). rewrite <- Zle_Qle. lia. }
          lra. }
        destruct d as [ | p | p ]; try lia. destruct d' as [ | p' | p' ]; try lia.
        cbn [binary_normalize]. apply binary_round_mono. exact Hle.
Qed.

(** X13. The potential credits never decrease when the baseline grows
    and never increase when the total grows: for well-formed floats
    with [baseline <= baseline'] and [0.0 <= total <= total'], the
    credits of [baseline] and [total'] are at most the credits of
    [baseline'] and [total].  The rounding of the subtraction never
    reverses the order. *)
Theorem credits_monotone (baseline_t baseline_t' total_t total_t' : f64) :
  valid baseline_t = true -> valid baseline_t' = true ->
  valid total_t = true -> valid total_t' = true ->
  fle baseline_t baseline_t' -> fle zero total_t -> fle total_t total_t' ->
  fle (potential_credits baseline_t total_t')
      (potential_credits baseline_t' total_t).
Proof.
  unfold fle. rewrite zero_is_pos_zero.
  intros Hvb Hvb' Hvt Hvt' Hbb' Ht Htt'.
  rewrite !potential_credits_cases. cbn [nsub b64_arith].
  destruct (ltb pos_zero baseline_t) eqn:Hb.
  - rewrite (ltb_leb_trans _ _ _ Hb Hbb').
    destruct (ltb pos_zero (sub baseline_t total_t')) eqn:Hd.
    + pose proof (sub_antitone _ _ _ Hvb Hvt Hvt' Hb Ht Htt' Hd) as H1.
      pose proof (ltb_leb_trans _ _ _ Hd H1) as Hd1.
      pose proof (sub_mono_l _ _ _ Hvb Hvb' Hvt Hb Hbb' Ht Hd1) as H2.
      rewrite (ltb_leb_trans _ _ _ Hd1 H2).
      eapply leb_trans; eauto.
    + destruct (ltb pos_zero (sub baseline_t' total_t)) eqn:Hd';
        [apply ltb_leb; exact Hd' | reflexivity].
  - destruct (ltb pos_zero baseline_t'); [ | reflexivity].
    destruct (ltb pos_zero (sub baseline_t' total_t)) eqn:Hd';
      [apply ltb_leb; exact Hd' | reflexivity].
Qed.

Lemma credits_monotone_witness :
  fle (potential_credits (lit 300 1) (lit 26216 3))
      (potential_credits (lit 305 1) (lit 25000 3)).
Proof.
  apply credits_monotone; vm_compute; reflexivity.
Defined.

End CreditsOrder.
